(** * Classifier nodes of the MDP toolkit (mdp/nodes/classifier_nodes.py)

    A shallow embedding of the classifiers of [classifier_nodes.py] and the
    properties of their training and inference steps.

    Numbers.  The Python code computes on floating-point numbers (Python
    floats and numpy arrays).  The embedding is written once, over an
    interface [Num] of the arithmetic the code uses, and is run at two
    instances: [binary64], the IEEE 754 double precision numbers of the
    Python interpreter (Rocq's primitive floats), and [exactQ], the
    rational numbers, where every operation is exact. *)

From Stdlib Require Import ZArith QArith Qfield Qround Lqa Floats.
From stdpp Require Import gmap strings list fin_maps sorting.

Set Warnings "-clear-no-such-hyp".

(** ** Exceptions *)

(** The exceptions the modelled code can raise. *)
Inductive exn : Type :=
  | TrainingException
  | KeyError
  | ZeroDivisionError
  | IndexError
  | TypeError
  | AttributeError
  | ValueError.

(** A computation that returns a value or raises. *)
Inductive result (A : Type) : Type :=
  | Ok (a : A)
  | Raise (e : exn).
Arguments Ok {A} a.
Arguments Raise {A} e.

Definition bind {A B} (r : result A) (k : A → result B) : result B :=
  match r with
  | Ok a => k a
  | Raise e => Raise e
  end.

#[export] Instance result_bind : MBind result := fun A B k r => bind r k.
#[export] Instance result_ret : MRet result := fun A a => Ok a.

Definition is_ok {A} (r : result A) : bool :=
  match r with Ok _ => true | Raise _ => false end.

(** A method of a node: it reads and writes the attributes [S] of [self]
    and returns or raises.  The attributes written before an exception
    stay written. *)
Definition method (S A : Type) : Type := S → result A * S.

#[export] Instance method_bind {S} : MBind (method S) := fun A B k m self =>
  match m self with
  | (Ok a, self') => k a self'
  | (Raise e, self') => (Raise e, self')
  end.
#[export] Instance method_ret {S} : MRet (method S) := fun A a self =>
  (Ok a, self).

Definition get {S} : method S S := fun self => (Ok self, self).
Definition put {S} (self' : S) : method S unit := fun _ => (Ok (), self').
Definition raise {S A} (e : exn) : method S A := fun self => (Raise e, self).
Definition lift {S A} (r : result A) : method S A := fun self => (r, self).

(** A [for] loop over a list. *)
Fixpoint for_each {S A} (l : list A) (body : A → method S unit)
    : method S unit :=
  match l with
  | [] => mret ()
  | a :: l' => body a ;; for_each l' body
  end.

(** Indexing a list: out of range raises. *)
Definition index {A} (l : list A) (i : nat) : result A :=
  match l !! i with
  | Some a => Ok a
  | None => Raise IndexError
  end.

(** ** The arithmetic interface *)

(** The operations of the numeric substrate: conversion of a Python int,
    the four operations, the comparisons [<] and [==], and the literal
    [0.1]. *)
Class Num (F : Type) := {
  of_Z : Z → F;
  fadd : F → F → F;
  fsub : F → F → F;
  fmul : F → F → F;
  fdiv : F → F → F;
  fltb : F → F → bool;
  feqb : F → F → bool;
  lit_tenth : F;
}.

(** The laws of multiplication that both instances below have: they hold
    of IEEE 754 as well as of exact arithmetic. *)
Class NumLaws (F : Type) `{Num F} : Prop := {
  fmul_1_l : ∀ x : F, fmul (of_Z 1) x = x;
  fmul_1_r : ∀ x : F, fmul x (of_Z 1) = x;
  fmul_comm : ∀ x y : F, fmul x y = fmul y x;
}.

Section Derived.
Context {F : Type} `{Num F}.

Definition fzero : F := of_Z 0.
Definition fone : F := of_Z 1.

(** [numx.sign]: -1, 0 or 1 by the sign of the argument; the argument
    itself (a nan) when it compares with nothing. *)
Definition sign (x : F) : F :=
  if fltb x fzero then of_Z (-1)
  else if fltb fzero x then of_Z 1
  else if feqb x fzero then of_Z 0
  else x.

(** Division of Python floats: a zero divisor raises. *)
Definition pydiv (x y : F) : result F :=
  if feqb y fzero then Raise ZeroDivisionError else Ok (fdiv x y).

(** [numx.dot] of two vectors. *)
Fixpoint dot_from (acc : F) (x w : list F) : F :=
  match x, w with
  | a :: x', b :: w' => dot_from (fadd acc (fmul a b)) x' w'
  | _, _ => acc
  end.
Definition dot (x w : list F) : F := dot_from fzero x w.

(** [abs] of a number. *)
Definition fabs (x : F) : F := if fltb x fzero then fsub fzero x else x.

(** [numx.dot] raises on vectors of different lengths. *)
Definition np_dot (x w : list F) : result F :=
  if (length x =? length w)%nat then Ok (dot x w) else Raise ValueError.

(** The sum of the entries of a vector. *)
Definition fsum (l : list F) : F := fold_left fadd l fzero.
End Derived.

(** *** IEEE 754 double precision *)

Module Binary64.
(** Conversion of an integer: the nearest double (ties to even). *)
Definition of_int (z : Z) : float :=
  SF2Prim (binary_normalize prec emax z 0 false).

(** The double nearest to the decimal literal [0.1]. *)
Definition tenth : float := Eval vm_compute in
  PrimFloat.div (of_int 1) (of_int 10).
End Binary64.

#[export] Instance binary64 : Num float := {|
  of_Z := Binary64.of_int;
  fadd := PrimFloat.add;
  fsub := PrimFloat.sub;
  fmul := PrimFloat.mul;
  fdiv := PrimFloat.div;
  fltb := PrimFloat.ltb;
  feqb := PrimFloat.eqb;
  lit_tenth := Binary64.tenth;
|}.

(** *** Exact rational arithmetic *)

#[export] Instance exactQ : Num Q := {|
  of_Z := inject_Z;
  fadd := Qplus;
  fsub := Qminus;
  fmul := Qmult;
  fdiv := Qdiv;
  fltb := fun x y => match Qcompare x y with Lt => true | _ => false end;
  feqb := Qeq_bool;
  lit_tenth := 1 # 10;
|}.

(** ** Training calls *)

(** The [labels] argument of a training call: one label for the whole
    batch, or a sequence of labels. *)
Inductive labels_arg (L : Type) : Type :=
  | OneLabel (l : L)
  | LabelSeq (ls : list L).
Arguments OneLabel {L} l.
Arguments LabelSeq {L} ls.

(** Modelled from the spec: [mdp.utils.izip_stretched], which is not part
    of this file.  The batch is zipped against the labels; a single label
    is repeated over all rows, and of two sequences of different lengths
    the shorter one's last element is repeated to match the longer. *)
Definition stretch {A} (n : nat) (l : list A) : list A :=
  match last l with
  | Some a => l ++ replicate (n - length l) a
  | None => []
  end.

Definition izip_stretched {A L} (x : list A) (labels : labels_arg L)
    : list (A * L) :=
  match labels with
  | OneLabel l => zip x (replicate (length x) l)
  | LabelSeq ls =>
      let n := max (length x) (length ls) in
      zip (stretch n x) (stretch n ls)
  end.

(** The test shared by the [_check_train_args] methods: a label sequence
    of a length other than the number of rows. *)
Definition labels_mismatch {A L} (x : list A) (labels : labels_arg L) : bool :=
  match labels with
  | LabelSeq ls => negb (length ls =? length x)%nat
  | OneLabel _ => false
  end.

(** * SignumClassifier *)

Module SignumClassifier.
Section Signum.
Context {F : Type} `{Num F}.

(** [is_trainable]: the node has no training phase. *)
Definition is_trainable : bool := false.

(** [_label]: the sums of the rows, [xi.sum()], and [numx.sign] of the
    list of the sums. *)
Definition _label (x : list (list F)) : list F :=
  let ret := map (fun xi => fsum xi) x in
  map sign ret.
End Signum.
End SignumClassifier.

(** * SimpleMarkovClassifier *)

Module SimpleMarkovClassifier.
Section Markov.
Context {K L : Type} `{Countable K} `{Countable L}.

(** The attributes set by [__init__]: the number of observations and the
    three dictionaries of counts. *)
Record state : Type := {
  ntotal_connections : Z;
  features : gmap (list K) Z;
  labels : gmap L Z;
  connections : gmap (list K * L) Z;
}.

Definition init : state :=
  {| ntotal_connections := 0; features := ∅; labels := ∅; connections := ∅ |}.

(** [d[k] += 1] when [k in d], [d[k] = 1] otherwise. *)
Definition count_up {A} `{Countable A} (k : A) (d : gmap A Z) : gmap A Z :=
  match d !! k with
  | Some n => <[k := (n + 1)%Z]> d
  | None => <[k := 1%Z]> d
  end.

Definition _learn (self : state) (feature : list K) (label : L) : state :=
  {| ntotal_connections := ntotal_connections self + 1;
     labels := count_up label (labels self);
     features := count_up feature (features self);
     connections := count_up (feature, label) (connections self) |}.

Definition _train (self : state) (x : list (list K)) (lbls : labels_arg L)
    : state :=
  fold_left (fun self '(xi, labeli) => _learn self xi labeli)
            (izip_stretched x lbls) self.

Definition _check_train_args (x : list (list K)) (lbls : labels_arg L)
    : result unit :=
  if labels_mismatch x lbls then Raise TrainingException else Ok ().

(** Modelled from the spec: the [train] of the node base class, which is
    not part of this file, validates the arguments and then calls
    [_train]. *)
Definition train (x : list (list K)) (lbls : labels_arg L)
    : method state unit :=
  lift (_check_train_args x lbls) ;;
  self ← get; put (_train self x lbls).

(** A training history: the calls of [train], oldest first. *)
Definition history : Type := list (list (list K) * labels_arg L).

Definition after (h : history) : state :=
  fold_left (fun self '(x, lbls) => snd (train x lbls self)) h init.

(** The state after a list of observed (feature, label) pairs. *)
Definition learn_all (obs : list (list K * L)) (self : state) : state :=
  fold_left (fun self '(xi, labeli) => _learn self xi labeli) obs self.

(** The counts of a state that training has reached are positive. *)
Definition counts_ok (self : state) : Prop :=
  (∀ l n, labels self !! l = Some n → (0 < n)%Z) ∧
  (∀ f n, features self !! f = Some n →
          (0 < n ∧ 0 < ntotal_connections self)%Z).

(** The joint count of a feature and a label, 0 for a pair that has not
    been observed, and the sum of the joint counts of a feature over the
    labels of the state. *)
Definition joint_count (self : state) (feature : list K) (label : L) : Z :=
  default 0%Z (connections self !! (feature, label)).

(** The probability of a label given a feature that has been counted
    [n_feature] times, by the rule of Bayes, in exact arithmetic. *)
Definition posterior (self : state) (feature : list K) (n_feature : Z)
    (label : L) : Q :=
  ((inject_Z (joint_count self feature label)
      / inject_Z (default 0%Z (labels self !! label)))
   * (inject_Z (default 0%Z (labels self !! label))
      / inject_Z (ntotal_connections self))
   / (inject_Z n_feature / inject_Z (ntotal_connections self)))%Q.

Definition joint_total (self : state) (feature : list K) : Z :=
  foldr Z.add 0%Z
        (map (joint_count self feature) (map_to_list (labels self)).*1).

(** The joint counts of a feature add up to the count of the feature,
    and a pair is counted only with a label that is counted. *)
Definition joint_ok (self : state) : Prop :=
  (∀ feature, joint_total self feature
              = default 0%Z (features self !! feature)) ∧
  (∀ feature label, labels self !! label = None →
                    connections self !! (feature, label) = None).

(** The (feature, label) pairs a history has taught the classifier. *)
Definition observations (h : history) : list (list K * L) :=
  concat (map (fun '(x, lbls) =>
                 if labels_mismatch x lbls then []
                 else izip_stretched x lbls) h).

(** The number of the occurrences of a key in a list of keys, and the
    entry that a dictionary of counts has for a key that has occurred [n]
    times: no entry for a key that has not occurred. *)
Definition occurrences {A} `{EqDecision A} (k : A) (keys : list A) : nat :=
  length (filter (fun k' => k' = k) keys).

Definition count_entry (n : nat) : option Z :=
  match n with
  | O => None
  | S _ => Some (Z.of_nat n)
  end.

Section Prob.
Context {F : Type} `{Num F}.

(** The body of the loop over the labels: the probability of one
    label.  [1.0] is the float of the integer one. *)
Definition prob_of_label (self : state) (feature : list K)
    (n_feature_connections : Z) (label : L) : result F :=
  let n_conn := default 0%Z (connections self !! (feature, label)) in
  let n_label_connections := default 0%Z (labels self !! label) in
  p_feature_given_label ←
    pydiv (fmul (of_Z 1) (of_Z n_conn)) (of_Z n_label_connections);
  p_label ←
    pydiv (fmul (of_Z 1) (of_Z n_label_connections))
          (of_Z (ntotal_connections self));
  p_feature ←
    pydiv (fmul (of_Z 1) (of_Z n_feature_connections))
          (of_Z (ntotal_connections self));
  pydiv (fmul (fmul (of_Z 1) p_feature_given_label) p_label) p_feature.

Fixpoint prob_loop (self : state) (feature : list K)
    (n_feature_connections : Z) (todo : list L)
    (probabilities : gmap L F) : result (gmap L F) :=
  match todo with
  | [] => Ok probabilities
  | label :: todo' =>
      prob ← prob_of_label self feature n_feature_connections label;
      prob_loop self feature n_feature_connections todo'
                (<[label := prob]> probabilities)
  end.

(** [_prob_one] reads the state and assigns none of its attributes: it
    is a function of the state to the returned dictionary. *)
Definition _prob_one (self : state) (feature : list K)
    : result (gmap L F) :=
  match features self !! feature with
  | None => Ok ∅
  | Some n_feature_connections =>
      prob_loop self feature n_feature_connections
                (map_to_list (labels self)).*1 ∅
  end.

Definition _prob (self : state) (feats : list (list K))
    : result (list (gmap L F)) :=
  mapM (_prob_one self) feats.
End Prob.
End Markov.
End SimpleMarkovClassifier.

(** * PerceptronClassifier *)

Module PerceptronClassifier.
Section Perceptron.
Context {F : Type} `{Num F}.

Record state : Type := {
  input_dim : nat;
  weights : list F;
  offset_weight : F;
  learning_rate : F;
}.

Definition set_weights (w : list F) (self : state) : state :=
  {| input_dim := input_dim self; weights := w;
     offset_weight := offset_weight self;
     learning_rate := learning_rate self |}.

Definition set_offset_weight (b : F) (self : state) : state :=
  {| input_dim := input_dim self; weights := weights self;
     offset_weight := b; learning_rate := learning_rate self |}.

(** [__init__]: no weights yet, offset 0, learning rate 0.1. *)
Definition init (dim : nat) : state :=
  {| input_dim := dim; weights := []; offset_weight := of_Z 0;
     learning_rate := lit_tenth |}.

Definition _check_train_args (x : list (list F)) (lbls : labels_arg F)
    : result unit :=
  if labels_mismatch x lbls then Raise TrainingException
  else
    let lbls := match lbls with LabelSeq ls => ls | OneLabel l => [l] end in
    if forallb (fun x => feqb (fabs x) (of_Z 1)) lbls then Ok ()
    else Raise TrainingException.

(** [_label] on one row. *)
Definition _label_row (self : state) (x : list F) : result F :=
  d ← np_dot x (weights self);
  Ok (sign (fadd d (offset_weight self))).

Definition _label (self : state) (x : list (list F)) : result (list F) :=
  mapM (_label_row self) x.

(** The loop [for j in range(self.input_dim)].  [new_weights] is the
    array [self.weights] itself, so every assignment to [new_weights[j]]
    is at once an assignment to [self.weights[j]]. *)
Definition update_weight (rate : F) (xi : list F) (j : nat)
    : method state unit :=
  self ← get;
  wj ← lift (index (weights self) j);
  xj ← lift (index xi j);
  put (set_weights (<[j := fadd wj (fmul rate xj)]> (weights self)) self).

(** The body of the loop over the rows. *)
Definition train_row (xi : list F) (labeli : F) : method state unit :=
  self ← get;
  prediction ← lift (_label_row self xi);
  let rate := fmul (learning_rate self) (fsub labeli prediction) in
  for_each (seq 0 (input_dim self)) (update_weight rate xi) ;;
  self ← get;
  let new_offset := fadd (offset_weight self) (fmul rate (of_Z 1)) in
  put (set_offset_weight new_offset self).

Definition _train (x : list (list F)) (lbls : labels_arg F)
    : method state unit :=
  self ← get;
  (if (length (weights self) =? 0)%nat
   then put (set_weights (replicate (input_dim self) (of_Z 1)) self)
   else mret ()) ;;
  for_each (izip_stretched x lbls) (fun '(xi, labeli) => train_row xi labeli).

(** Modelled from the spec: the [train] of the node base class, which is
    not part of this file, validates the arguments and then calls
    [_train]. *)
Definition train (x : list (list F)) (lbls : labels_arg F)
    : method state unit :=
  lift (_check_train_args x lbls) ;; _train x lbls.

(** A sequence of calls of [_train], oldest first. *)
Definition train_calls (calls : list (list (list F) * labels_arg F))
    : method state unit :=
  for_each calls (fun '(x, lbls) => _train x lbls).

(** The update of the weights and the bias by one (row, label) pair, in
    the words of the specification: the prediction is the sign of the dot
    product of the weights and the row plus the bias, the rate is the
    learning rate times the difference of the label and the prediction,
    every weight grows by the rate times its entry of the row and the
    bias grows by the rate. *)
Definition online_update (learning_rate : F) (wb : list F * F)
    (pair : list F * F) : list F * F :=
  let '(weights, bias) := wb in
  let '(row, label) := pair in
  let prediction := sign (fadd (dot weights row) bias) in
  let rate := fmul learning_rate (fsub label prediction) in
  (zip_with (fun wj xj => fadd wj (fmul rate xj)) weights row,
   fadd bias rate).

(** The state with the weights and the offset of [wb]. *)
Definition with_weights (wb : list F * F) (self : state) : state :=
  {| input_dim := input_dim self; weights := wb.1; offset_weight := wb.2;
     learning_rate := learning_rate self |}.

(** The (row, label) pairs of a sequence of calls, in the order of the
    calls and of the rows of each batch. *)
Definition pairs_of (calls : list (list (list F) * labels_arg F))
    : list (list F * F) :=
  concat (map (fun '(x, lbls) => izip_stretched x lbls) calls).
(** The argument of [numx.sign] in [_label] for one row: the dot product
    of the row and the weights, plus the offset. *)
Definition activation (self : state) (x : list F) : F :=
  fadd (dot x (weights self)) (offset_weight self).

End Perceptron.
End PerceptronClassifier.

(** * DiscreteHopfieldClassifier *)

(** Modelled from the spec: [mdp.utils.bool_to_sign] and
    [mdp.utils.sign_to_bool], which are not part of this file.  The binary
    values false and true are mapped to the bipolar values -1 and +1, and
    back. *)
Definition bool_to_sign {F} `{Num F} (pattern : list bool) : list F :=
  map (fun b : bool => if b then of_Z 1 else of_Z (-1)) pattern.

Definition sign_to_bool {F} `{Num F} (pattern : list F) : list bool :=
  map (fun v => fltb fzero v) pattern.

Module DiscreteHopfieldClassifier.
Section Hopfield.
Context {F : Type} `{Num F}.

(** [_weight_matrix] starts as the integer 0 and becomes a matrix with
    the first pattern added to it. *)
Inductive weight_matrix : Type :=
  | Zero
  | Matrix (m : list (list F)).

Record state : Type := {
  input_dim : nat;
  _weight_matrix : weight_matrix;
  _num_patterns : Z;
  _shuffled_update : bool;
}.

Definition init (dim : nat) : state :=
  {| input_dim := dim; _weight_matrix := Zero; _num_patterns := 0;
     _shuffled_update := true |}.

Definition set_weight_matrix (w : weight_matrix) (self : state) : state :=
  {| input_dim := input_dim self; _weight_matrix := w;
     _num_patterns := _num_patterns self;
     _shuffled_update := _shuffled_update self |}.

(** [numx.outer]. *)
Definition outer (u v : list F) : list (list F) :=
  map (fun a => map (fun b => fmul a b) v) u.

(** [self._weight_matrix += m]: the integer 0 plus a matrix, or the sum
    of two matrices.  The base class accepts only patterns of [input_dim]
    entries, so the two matrices have the same shape. *)
Definition add_matrix (w : weight_matrix) (m : list (list F))
    : weight_matrix :=
  match w with
  | Zero => Matrix (map (map (fun b => fadd (of_Z 0) b)) m)
  | Matrix w => Matrix (zip_with (zip_with fadd) w m)
  end.

Definition _train_one (self : state) (pattern : list bool) : state :=
  let pattern := bool_to_sign pattern in
  let weights := outer pattern pattern in
  let scaled :=
    map (map (fun a => fdiv a (of_Z (Z.of_nat (input_dim self))))) weights in
  {| input_dim := input_dim self;
     _weight_matrix := add_matrix (_weight_matrix self) scaled;
     _num_patterns := _num_patterns self + 1;
     _shuffled_update := _shuffled_update self |}.

Definition _train (self : state) (x : list (list bool)) : state :=
  fold_left _train_one x self.

(** [self._weight_matrix[i][i] = 0]. *)
Definition zero_diagonal_entry (i : nat) : method state unit :=
  self ← get;
  match _weight_matrix self with
  | Zero => raise TypeError
  | Matrix m =>
      row ← lift (index m i);
      _ ← lift (index row i);
      put (set_weight_matrix (Matrix (<[i := <[i := of_Z 0]> row]> m)) self)
  end.

Definition _stop_training : method state unit :=
  self ← get;
  for_each (seq 0 (input_dim self)) zero_diagonal_entry.

(** The entry of a matrix at the row and the column [i] is there and
    is 0. *)
Definition zero_at (m : list (list F)) (i : nat) : Prop :=
  ∃ row, m !! i = Some row ∧ row !! i = Some (of_Z 0).

(** The matrix [m'] has the shape of [m] and its entries off the
    diagonal. *)
Definition same_off_diagonal (m m' : list (list F)) : Prop :=
  length m' = length m ∧
  ∀ i row, m !! i = Some row →
    ∃ row', m' !! i = Some row' ∧ length row' = length row ∧
            ∀ j, j ≠ i → row' !! j = row !! j.

(** The body of the loop over the rows of one pass: the pattern and the
    flag [has_converged] are the variables it updates. *)
Definition update_unit (m : list (list F)) (threshold : list F)
    (st : list F * bool) (row : nat) : result (list F * bool) :=
  let '(pattern, has_converged) := st in
  w_row ← index m row;
  thresh_row ← index threshold row;
  d ← np_dot w_row pattern;
  let new_pattern_row := sign (fsub d thresh_row) in
  if feqb new_pattern_row (of_Z 0) then Ok (pattern, has_converged)
  else
    cur ← index pattern row;
    if negb (feqb cur new_pattern_row)
    then Ok (<[row := new_pattern_row]> pattern, false)
    else Ok (pattern, has_converged).

Fixpoint one_pass (m : list (list F)) (threshold : list F)
    (iter_order : list nat) (st : list F * bool) : result (list F * bool) :=
  match iter_order with
  | [] => Ok st
  | row :: rest =>
      st' ← update_unit m threshold st row;
      one_pass m threshold rest st'
  end.

(** The order of one pass.  [shuffle k order] is what the k-th call of
    [numx_rand.shuffle] makes of [order]. *)
Definition iter_order_of (self : state) (shuffle : nat → list nat → list nat)
    (m : list (list F)) (k : nat) : list nat :=
  let iter_order := seq 0 (length m) in
  if _shuffled_update self then shuffle k iter_order else iter_order.

(** The [while not has_converged] loop, from its k-th pass on.  It has no
    bound in the code: [None] is a loop still running after [fuel]
    passes. *)
Fixpoint relax (self : state) (shuffle : nat → list nat → list nat)
    (m : list (list F)) (threshold : list F)
    (fuel k : nat) (pattern : list F) : option (result (list F)) :=
  match fuel with
  | O => None
  | S fuel' =>
      match one_pass m threshold (iter_order_of self shuffle m k)
                     (pattern, true) with
      | Raise e => Some (Raise e)
      | Ok (pattern', true) => Some (Ok pattern')
      | Ok (pattern', false) =>
          relax self shuffle m threshold fuel' (S k) pattern'
      end
  end.

Definition _label_one (self : state) (shuffle : nat → list nat → list nat)
    (fuel : nat) (pattern : list bool) (threshold : list F)
    : option (result (list bool)) :=
  let pattern := bool_to_sign pattern in
  match _weight_matrix self with
  | Zero => Some (Raise TypeError)
  | Matrix m =>
      match relax self shuffle m threshold fuel 0 pattern with
      | None => None
      | Some (Raise e) => Some (Raise e)
      | Some (Ok pattern') => Some (Ok (sign_to_bool pattern'))
      end
  end.
(** The property [memory_size]. *)
Definition memory_size (self : state) : nat := input_dim self.

(** The property [load_parameter]: the division by
    [float(self.input_dim)] raises for the dimension 0. *)
Definition load_parameter (self : state) : result F :=
  pydiv (of_Z (_num_patterns self)) (of_Z (Z.of_nat (input_dim self))).

(** The list comprehension of [_label]: the patterns of the batch are
    relaxed one after the other, the i-th with the shuffles
    [shuffles i]; the first one that raises ends the call. *)
Fixpoint label_rows (self : state)
    (shuffles : nat → nat → list nat → list nat) (fuel i : nat)
    (x : list (list bool)) (threshold : list F)
    : option (result (list (list bool))) :=
  match x with
  | [] => Some (Ok [])
  | pattern :: rest =>
      match _label_one self (shuffles i) fuel pattern threshold with
      | None => None
      | Some (Raise e) => Some (Raise e)
      | Some (Ok recalled) =>
          match label_rows self shuffles fuel (S i) rest threshold with
          | None => None
          | Some (Raise e) => Some (Raise e)
          | Some (Ok others) => Some (Ok (recalled :: others))
          end
      end
  end.

(** [_label] with one number for the threshold: the thresholds of the
    units are [numx.zeros(self.input_dim) + threshold]. *)
Definition _label (self : state)
    (shuffles : nat → nat → list nat → list nat) (fuel : nat)
    (x : list (list bool)) (threshold : F)
    : option (result (list (list bool))) :=
  let threshold :=
    map (fun zero => fadd zero threshold)
        (replicate (input_dim self) (of_Z 0)) in
  label_rows self shuffles fuel 0 x threshold.

End Hopfield.

(** *** The energy of a pattern, in exact arithmetic *)

(** The sum of the products of the entries of two vectors. *)
Fixpoint sumprod (u w : list Q) : Q :=
  match u, w with
  | a :: u', b :: w' => (a * b + sumprod u' w')%Q
  | _, _ => 0%Q
  end.

(** The entry of a matrix at the row [i] and the column [j]. *)
Definition entry (m : list (list Q)) (i j : nat) : Q :=
  nth j (nth i m []) 0%Q.

(** A matrix of [n] rows and [n] columns that is symmetric and whose
    diagonal is 0. *)
Definition square (n : nat) (m : list (list Q)) : Prop :=
  length m = n ∧ Forall (fun row => length row = n) m.

Definition symmetric (n : nat) (m : list (list Q)) : Prop :=
  ∀ i j, (i < n)%nat → (j < n)%nat → entry m i j = entry m j i.

Definition zero_diagonal (n : nat) (m : list (list Q)) : Prop :=
  ∀ i, (i < n)%nat → entry m i i = 0%Q.

(** The energy of the pattern [p] under the weights [m] and the
    thresholds: the thresholds times the pattern, minus half the weights
    on both sides of the pattern. *)
Definition energy (m : list (list Q)) (threshold p : list Q) : Q :=
  (sumprod threshold p
   - sumprod p (map (fun row => sumprod row p) m) / 2)%Q.

(** A pattern of the values -1 and +1. *)
Definition bipolar (p : list Q) : Prop :=
  Forall (fun v => v = 1%Q ∨ v = (-1)%Q) p.


(** A matrix and thresholds the relaxation converges on, and a pattern it
    works on. *)
Definition relaxable (n : nat) (m : list (list Q)) (threshold : list Q)
    : Prop :=
  square n m ∧ symmetric n m ∧ zero_diagonal n m ∧ length threshold = n.

Definition pattern_of (n : nat) (p : list Q) : Prop :=
  bipolar p ∧ length p = n.

(** What training makes of the weight matrix: after at least one pattern
    it is a square symmetric matrix. *)
Definition trained (n : nat) (self : state (F:=Q)) : Prop :=
  input_dim self = n ∧
  ∃ w, _weight_matrix self = Matrix w ∧ square n w ∧ symmetric n w.

(** The rule of Hebb for the units [i] and [j] of a memory of [n] units:
    the sum over the patterns of the product of the values of the two
    units, each divided by [n]. *)
Definition hebbian (n : nat) (patterns : list (list bool)) (i j : nat) : Q :=
  foldr (fun p acc =>
           (nth i (bool_to_sign p) 0 * nth j (bool_to_sign p) 0
            / inject_Z (Z.of_nat n) + acc)%Q)
        0%Q patterns.

End DiscreteHopfieldClassifier.

(** * KMeansClassifier *)

Module KMeansClassifier.
Section KMeans.
Context {F : Type} `{Num F}.

(** [numx.linalg.norm], the Euclidean norm of the numerical library. *)
Variable norm : list F → F.

(** [self.data] is a Python list of numbers while training;
    [_stop_training] makes it an array, flat at first and then of the
    shape [(tlen, input_dim)]. *)
Inductive data_repr : Type :=
  | PyList (l : list F)
  | FlatArray (l : list F)
  | Rows (a : list (list F)).

Record state : Type := {
  input_dim : nat;
  _num_clusters : nat;
  data : data_repr;
  tlen : nat;
  _centroids : option (list (list F));
  max_iter : nat;
}.

Definition init (num_clusters max_iter dim : nat) : state :=
  {| input_dim := dim; _num_clusters := num_clusters; data := PyList [];
     tlen := 0; _centroids := None; max_iter := max_iter |}.

Definition set_data (d : data_repr) (self : state) : state :=
  {| input_dim := input_dim self; _num_clusters := _num_clusters self;
     data := d; tlen := tlen self; _centroids := _centroids self;
     max_iter := max_iter self |}.

Definition set_centroids (c : option (list (list F))) (self : state)
    : state :=
  {| input_dim := input_dim self; _num_clusters := _num_clusters self;
     data := data self; tlen := tlen self; _centroids := c;
     max_iter := max_iter self |}.

(** [self.tlen += x.shape[0]; self.data.extend(x.ravel().tolist())]:
    an array has no [extend]. *)
Definition _train (x : list (list F)) : method state unit :=
  self ← get;
  put {| input_dim := input_dim self; _num_clusters := _num_clusters self;
         data := data self; tlen := tlen self + length x;
         _centroids := _centroids self; max_iter := max_iter self |} ;;
  self ← get;
  match data self with
  | PyList l => put (set_data (PyList (l ++ concat x)) self)
  | FlatArray _ | Rows _ => raise AttributeError
  end.

(** Cutting a flat list into rows of [dim] entries. *)
Fixpoint chunks (n dim : nat) (l : list F) : list (list F) :=
  match n with
  | O => []
  | S n' => take dim l :: chunks n' dim (drop dim l)
  end.

(** The entries of [numx.array(self.data)]. *)
Definition entries (d : data_repr) : list F :=
  match d with
  | PyList l | FlatArray l => l
  | Rows a => concat a
  end.

(** The assignment of the shape [(n, dim)] to an array: it raises when
    the size does not fit. *)
Definition reshape (n dim : nat) (flat : list F) : result (list (list F)) :=
  if (length flat =? n * dim)%nat then Ok (chunks n dim flat)
  else Raise ValueError.

(** [numx.argmin]: the index of the first minimum; a nan counts as
    smaller than every number. *)
Fixpoint argmin_from (best_idx : nat) (best : F) (i : nat) (l : list F)
    : nat :=
  match l with
  | [] => best_idx
  | d :: l' =>
      if feqb best best && (fltb d best || negb (feqb d d))
      then argmin_from i d (S i) l'
      else argmin_from best_idx best (S i) l'
  end.

Definition argmin (l : list F) : result nat :=
  match l with
  | [] => Raise ValueError
  | d :: l' => Ok (argmin_from 0 d 1 l')
  end.

(** [data - c] on two vectors. *)
Definition vsub (u v : list F) : list F := zip_with fsub u v.

Definition nearest_idx (x : list F) (centroids : list (list F))
    : result nat :=
  let dists := map (fun c => norm (vsub x c)) centroids in
  argmin dists.

(** [_nearest_centroid_idx]: iterating over [None] raises. *)
Definition _nearest_centroid_idx (x : list F)
    (centroids : option (list (list F))) : result nat :=
  match centroids with
  | None => Raise TypeError
  | Some cs => nearest_idx x cs
  end.

(** An entry of the list [new_centroids]: the sum of the positions and
    their number.  The sum starts as the float [0.] and is a vector from
    the first position on. *)
Definition sum_position : Type := option (list F).

Definition add_position (s : sum_position) (x : list F) : sum_position :=
  match s with
  | None => Some (map (fun a => fadd (of_Z 0) a) x)
  | Some v => Some (zip_with fadd v x)
  end.

(** The loop [for x in self.data] of one step. *)
Fixpoint cluster (centroids : list (list F)) (rows : list (list F))
    (new_centroids : list (sum_position * F))
    : result (list (sum_position * F)) :=
  match rows with
  | [] => Ok new_centroids
  | x :: rows' =>
      idx ← nearest_idx x centroids;
      old ← index new_centroids idx;
      let pos_count := (add_position old.1 x, fadd old.2 (of_Z 1)) in
      cluster centroids rows' (<[idx := pos_count]> new_centroids)
  end.

(** [c[0] / c[1] if c[1] > 0. else centroids[idx]].  A count above 0.
    comes with a vector for a sum: the sum is still the float [0.] only
    as long as the count is [0.]. *)
Definition new_position (centroids : list (list F)) (idx : nat)
    (c : sum_position * F) : result (list F) :=
  if fltb (of_Z 0) c.2 then
    match c.1 with
    | Some v => Ok (map (fun a => fdiv a c.2) v)
    | None => Ok []
    end
  else index centroids idx.

(** One step of the loop [for step in xrange(self.max_iter)], up to the
    new array of centroids. *)
Definition lloyd_step (rows centroids : list (list F))
    : result (list (list F)) :=
  sums ← cluster centroids rows
         (replicate (length centroids) (None, of_Z 0));
  mapM (fun '(idx, c) => new_position centroids idx c)
       (zip (seq 0 (length sums)) sums).

(** [numx.all(new_centroids == centroids)]. *)
Definition all_equal (a b : list (list F)) : bool :=
  forallb (fun '(u, v) => forallb (fun '(p, q) => feqb p q) (zip u v))
          (zip a b).

(** The loop runs through [steps] steps from [centroids] without an
    array of centroids that equals the one before it. *)
Inductive runs_out (rows : list (list F))
    : nat → list (list F) → Prop :=
  | runs_out_O centroids : runs_out rows 0 centroids
  | runs_out_S steps centroids new_centroids :
      lloyd_step rows centroids = Ok new_centroids →
      all_equal new_centroids centroids = false →
      runs_out rows steps new_centroids →
      runs_out rows (S steps) centroids.

(** The loop over the steps; [None] when it runs out without a stable
    array, [Some centroids] when it returns from inside. *)
Fixpoint iterate (steps : nat) (rows centroids : list (list F))
    : result (option (list (list F))) :=
  match steps with
  | O => Ok None
  | S steps' =>
      new_centroids ← lloyd_step rows centroids;
      if all_equal new_centroids centroids then Ok (Some centroids)
      else iterate steps' rows new_centroids
  end.

(** The truth value of [not a] for an array [a]: an array of one entry
    is as true as the entry, an empty array is false, and the truth value
    of a larger array raises. *)
Definition not_array (a : list (list F)) : result bool :=
  match concat a with
  | [] => Ok true
  | [v] => Ok (feqb v (of_Z 0))
  | _ => Raise ValueError
  end.

(** [random.sample(xrange(self.tlen), self._num_clusters)] and the rows
    of the data at the indices it returns, [centr_idx]. *)
Definition sample_centroids (self : state) (rows : list (list F))
    (centr_idx : list nat) : result (list (list F)) :=
  if (tlen self <? _num_clusters self)%nat then Raise ValueError
  else mapM (index rows) centr_idx.

(** [_stop_training].  [centr_idx] is what [random.sample] returns when
    it is called: [_num_clusters] distinct indices below [tlen]. *)
Definition _stop_training (centr_idx : list nat) : method state unit :=
  self ← get;
  put (set_data (FlatArray (entries (data self))) self) ;;
  rows ← lift (reshape (tlen self) (input_dim self) (entries (data self)));
  put (set_data (Rows rows) self) ;;
  self ← get;
  centroids ← lift
    match _centroids self with
    | None => sample_centroids self rows centr_idx
    | Some a =>
        fresh ← not_array a;
        if fresh : bool then sample_centroids self rows centr_idx
        else Ok a
    end;
  stable ← lift (iterate (max_iter self) rows centroids);
  match stable with
  | Some centroids => put (set_centroids (Some centroids) self)
  | None => mret ()
  end.

Definition _label (self : state) (x : list (list F)) : result (list nat) :=
  mapM (fun xi => _nearest_centroid_idx xi (_centroids self)) x.

(** The rows that are assigned to the centroid of index [k], in their
    order. *)
Definition is_assigned (centroids : list (list F)) (k : nat)
    (x : list F) : bool :=
  match nearest_idx x centroids with
  | Ok i => (i =? k)%nat
  | Raise _ => false
  end.

Definition assigned_to (centroids : list (list F)) (k : nat)
    (rows : list (list F)) : list (list F) :=
  filter (fun x => is_assigned centroids k x = true) rows.
End KMeans.

(** The mean of a list of samples of [dim] entries, in exact arithmetic:
    entry by entry the sum over the samples divided by their number. *)
Definition column_sum (j : nat) (samples : list (list Q)) : Q :=
  foldr (fun x acc => (nth j x 0 + acc)%Q) 0%Q samples.

Definition mean (dim : nat) (samples : list (list Q)) : list Q :=
  map (fun j => (column_sum j samples
                 / inject_Z (Z.of_nat (length samples)))%Q) (seq 0 dim).

(** [k] is the index of the first minimum of [dists]: no entry is
    smaller and every entry before it is larger. *)
Definition first_minimum (dists : list Q) (k : nat) : Prop :=
  ∃ d, dists !! k = Some d ∧
       (∀ j dj, dists !! j = Some dj → (d <= dj)%Q) ∧
       (∀ j dj, (j < k)%nat → dists !! j = Some dj → (d < dj)%Q).
End KMeansClassifier.

(** * GaussianClassifierNode *)

(** The functions of the numerical library that the Gaussian classifier
    calls: [numx.sqrt], [numx.exp], the power [**], [numx.pi],
    [numx_linalg.det] and [utils.inv], which raises on a singular
    matrix. *)
Class NumLib (F : Type) := {
  fsqrt : F → F;
  fexp : F → F;
  fpow : F → F → F;
  fpi : F;
  det : list (list F) → F;
  inv : list (list F) → result (list (list F));
}.

(** [utils.CovarianceMatrix], which is not part of this file: an
    accumulator that is created empty, updated with the rows of a batch
    and fixed into a covariance matrix, a mean and the number of rows it
    has seen. *)
Class CovarianceMatrix (F : Type) := {
  cov_obj : Type;
  cov_new : cov_obj;
  cov_update : cov_obj → list (list F) → result cov_obj;
  cov_fix : cov_obj → result (list (list F) * list F * F);
}.

Module GaussianClassifierNode.
Section Gaussian.
Context {F : Type} `{Num F} `{NumLib F} `{CovarianceMatrix F}.
Context {L : Type} `{Countable L}.

(** The order of the labels, by which [list.sort] sorts them. *)
Variable label_le : L → L → Prop.
Context `{∀ a b, Decision (label_le a b)}.

(** An attribute is [None] as long as it has not been assigned, and
    again once it has been deleted. *)
Record state : Type := {
  input_dim : nat;
  cov_objs : option (gmap L cov_obj);
  labels : option (list L);
  inv_covs : option (list (list (list F)));
  means : option (list (list F));
  p : option (list F);
  _sqrt_def_covs : option (list F);
}.

Definition init (dim : nat) : state :=
  {| input_dim := dim; cov_objs := Some ∅; labels := None;
     inv_covs := None; means := None; p := None; _sqrt_def_covs := None |}.

Definition set_cov_objs (v : option (gmap L cov_obj)) (self : state) :=
  {| input_dim := input_dim self; cov_objs := v; labels := labels self;
     inv_covs := inv_covs self; means := means self; p := p self;
     _sqrt_def_covs := _sqrt_def_covs self |}.
Definition set_labels (v : option (list L)) (self : state) :=
  {| input_dim := input_dim self; cov_objs := cov_objs self; labels := v;
     inv_covs := inv_covs self; means := means self; p := p self;
     _sqrt_def_covs := _sqrt_def_covs self |}.
Definition set_inv_covs (v : option (list (list (list F)))) (self : state) :=
  {| input_dim := input_dim self; cov_objs := cov_objs self;
     labels := labels self; inv_covs := v; means := means self;
     p := p self; _sqrt_def_covs := _sqrt_def_covs self |}.
Definition set_means (v : option (list (list F))) (self : state) :=
  {| input_dim := input_dim self; cov_objs := cov_objs self;
     labels := labels self; inv_covs := inv_covs self; means := v;
     p := p self; _sqrt_def_covs := _sqrt_def_covs self |}.
Definition set_p (v : option (list F)) (self : state) :=
  {| input_dim := input_dim self; cov_objs := cov_objs self;
     labels := labels self; inv_covs := inv_covs self;
     means := means self; p := v; _sqrt_def_covs := _sqrt_def_covs self |}.
Definition set_sqrt_def_covs (v : option (list F)) (self : state) :=
  {| input_dim := input_dim self; cov_objs := cov_objs self;
     labels := labels self; inv_covs := inv_covs self;
     means := means self; p := p self; _sqrt_def_covs := v |}.

(** Reading an attribute: one that is not there raises. *)
Definition attr {A} (field : state → option A) : method state A :=
  fun self =>
    match field self with
    | Some a => (Ok a, self)
    | None => (Raise AttributeError, self)
    end.

Definition _check_train_args (x : list (list F)) (lbls : labels_arg L)
    : result unit :=
  if labels_mismatch x lbls then Raise TrainingException else Ok ().

Definition _update_covs (x : list (list F)) (lbl : L) : method state unit :=
  objs ← attr cov_objs;
  (if decide (is_Some (objs !! lbl)) then mret ()
   else self ← get; put (set_cov_objs (Some (<[lbl := cov_new]> objs)) self)) ;;
  objs ← attr cov_objs;
  obj ← lift (match objs !! lbl with
              | Some o => Ok o
              | None => Raise KeyError
              end);
  obj' ← lift (cov_update obj x);
  self ← get;
  put (set_cov_objs (Some (<[lbl := obj']> objs)) self).

(** [numx.compress(labels_ == lbl, x, axis=0)]: the rows whose label is
    [lbl]. *)
Definition compress (lbl : L) (ls : list L) (x : list (list F))
    : list (list F) :=
  (filter (fun xl => xl.2 = lbl) (zip x ls)).*1.

(** [set(labels_)] is visited in the order of [elements]; the visits
    update different dictionary entries. *)
Definition _train (x : list (list F)) (lbls : labels_arg L)
    : method state unit :=
  match lbls with
  | LabelSeq ls =>
      for_each (elements (list_to_set ls : gset L))
               (fun lbl => _update_covs (compress lbl ls x) lbl)
  | OneLabel l => _update_covs x l
  end.

(** Modelled from the spec: the [train] of the node base class, which is
    not part of this file, validates the arguments and then calls
    [_train]. *)
Definition train (x : list (list F)) (lbls : labels_arg L)
    : method state unit :=
  lift (_check_train_args x lbls) ;; _train x lbls.

Definition append {A} (field : state → option (list A))
    (set : option (list A) → state → state) (a : A) : method state unit :=
  l ← attr field;
  self ← get;
  put (set (Some (l ++ [a])) self).

(** The body of the loop [for lbl in self.labels]; [nitems] is the local
    variable it adds to. *)
Definition fix_label (nitems : F) (lbl : L) : method state F :=
  objs ← attr cov_objs;
  obj ← lift (match objs !! lbl with
              | Some o => Ok o
              | None => Raise KeyError
              end);
  '(cov, mean, p_lbl) ← lift (cov_fix obj);
  let nitems := fadd nitems p_lbl in
  append _sqrt_def_covs set_sqrt_def_covs (fsqrt (det cov)) ;;
  append means set_means mean ;;
  append p set_p p_lbl ;;
  icov ← lift (inv cov);
  append inv_covs set_inv_covs icov ;;
  mret nitems.

Fixpoint fix_labels (nitems : F) (lbls : list L) : method state F :=
  match lbls with
  | [] => mret nitems
  | lbl :: rest =>
      nitems ← fix_label nitems lbl;
      fix_labels nitems rest
  end.

(** [self.p[i] /= float(nitems)]. *)
Definition normalize_p (nitems : F) (i : nat) : method state unit :=
  ps ← attr p;
  pi ← lift (index ps i);
  q ← lift (pydiv pi nitems);
  self ← get;
  put (set_p (Some (<[i := q]> ps)) self).

Definition _stop_training : method state unit :=
  objs ← attr cov_objs;
  self ← get;
  put (set_labels (Some (merge_sort label_le (map_to_list objs).*1)) self) ;;
  self ← get; put (set_inv_covs (Some []) self) ;;
  self ← get; put (set_means (Some []) self) ;;
  self ← get; put (set_p (Some []) self) ;;
  self ← get; put (set_sqrt_def_covs (Some []) self) ;;
  lbls ← attr labels;
  nitems ← fix_labels (of_Z 0) lbls;
  ps ← attr p;
  for_each (seq 0 (length ps)) (normalize_p nitems) ;;
  self ← get;
  put (set_cov_objs None self).

(** The product of a row vector and a matrix with [dim] columns. *)
Definition vecmat (dim : nat) (v : list F) (m : list (list F)) : list F :=
  map (fun j => dot v (map (fun row => nth j row fzero) m)) (seq 0 dim).

(** The density of one row under the Gaussian of the label at
    [lbl_idx], from its mean, inverse covariance matrix and square root
    of the determinant. *)
Definition density (dim : nat) (sqrt_detS : F) (invS : list (list F))
    (mean x : list F) : F :=
  let x_mn := zip_with fsub x mean in
  let exponent :=
    fmul (fdiv (of_Z (-1)) (of_Z 2))
         (fsum (zip_with fmul (vecmat dim x_mn invS) x_mn)) in
  let constant :=
    fdiv (fpow (fmul (of_Z 2) fpi)
               (fsub fzero (fdiv (of_Z (Z.of_nat dim)) (of_Z 2))))
         sqrt_detS in
  fmul constant (fexp exponent).

Definition _gaussian_prob (self : state) (x : list (list F)) (lbl_idx : nat)
    : result (list F) :=
  let dim := input_dim self in
  match _sqrt_def_covs self, inv_covs self, means self with
  | Some sq, Some ics, Some mns =>
      sqrt_detS ← index sq lbl_idx;
      invS ← index ics lbl_idx;
      mean ← index mns lbl_idx;
      Ok (map (density dim sqrt_detS invS mean) x)
  | _, _, _ => Raise AttributeError
  end.

(** The column of [tmp_prob] of one label: the densities times the
    prior. *)
Definition prob_column (self : state) (x : list (list F)) (i : nat)
    : result (list F) :=
  g ← _gaussian_prob self x i;
  match p self with
  | Some ps => p_i ← index ps i; Ok (map (fun v => fmul v p_i) g)
  | None => Raise AttributeError
  end.

(** The rows of the array that has been filled column by column. *)
Definition rows_of (n : nat) (cols : list (list F)) : list (list F) :=
  map (fun r => map (fun col => nth r col fzero) cols) (seq 0 n).

(** [class_probabilities], after the checks of the base class on [x]
    that come first and are not part of this file. *)
Definition class_probabilities (self : state) (x : list (list F))
    : result (list (list F)) :=
  match labels self with
  | None => Raise AttributeError
  | Some lbls =>
      cols ← mapM (prob_column self x) (seq 0 (length lbls));
      let tmp_prob := rows_of (length x) cols in
      Ok (map (fun row => let tmp_tot := fsum row in
                          map (fun v => fdiv v tmp_tot) row) tmp_prob)
  end.

(** The row of one query point before it is normalized, in the words of
    the specification: for every label index the density of the point
    under the Gaussian of the label, times the prior of the label. *)
Definition density_times_prior (self : state) (xr : list F) (i : nat)
    : result F :=
  match _sqrt_def_covs self, inv_covs self, means self, p self with
  | Some sq, Some ics, Some mns, Some ps =>
      sqrt_detS ← index sq i;
      invS ← index ics i;
      mean ← index mns i;
      p_i ← index ps i;
      Ok (fmul (density (input_dim self) sqrt_detS invS mean xr) p_i)
  | _, _, _, _ => Raise AttributeError
  end.

Definition unnormalized (self : state) (xr : list F) : result (list F) :=
  match labels self with
  | Some lbls => mapM (density_times_prior self xr) (seq 0 (length lbls))
  | None => Raise AttributeError
  end.

(** The attributes of inference are there, one entry for each of [n]
    labels. *)
Definition finalized (n : nat) (self : state) : Prop :=
  ∃ ics mns ps sq,
    inv_covs self = Some ics ∧ means self = Some mns ∧
    p self = Some ps ∧ _sqrt_def_covs self = Some sq ∧
    length ics = n ∧ length mns = n ∧ length ps = n ∧ length sq = n.

(** [argmax]: the index of the first maximum. *)
Fixpoint argmax_from (best_idx : nat) (best : F) (i : nat) (l : list F)
    : nat :=
  match l with
  | [] => best_idx
  | d :: l' =>
      if feqb best best && (fltb best d || negb (feqb d d))
      then argmax_from i d (S i) l'
      else argmax_from best_idx best (S i) l'
  end.

Definition argmax (l : list F) : result nat :=
  match l with
  | [] => Raise ValueError
  | d :: l' => Ok (argmax_from 0 d 1 l')
  end.

Definition _label (self : state) (x : list (list F)) : result (list L) :=
  class_prob ← class_probabilities self x;
  winner ← mapM argmax class_prob;
  match labels self with
  | Some lbls => mapM (index lbls) winner
  | None => Raise AttributeError
  end.
(** [dict(items)]: of two items with the same key the later one stays. *)
Definition dict_of {A} (items : list (L * A)) : gmap L A :=
  fold_left (fun d '(k, v) => <[k := v]> d) items ∅.

(** [_prob]: for every row the dictionary of the labels and the
    probabilities of the row. *)
Definition _prob (self : state) (x : list (list F))
    : result (list (gmap L F)) :=
  class_prob ← class_probabilities self x;
  match labels self with
  | Some lbls => Ok (map (fun prob => dict_of (zip lbls prob)) class_prob)
  | None => Raise AttributeError
  end.

(** The statistics that [fix] returns for the accumulator of a label:
    [c] is the number of the rows of the label. *)
Definition fixed_count (objs : gmap L cov_obj) (lbl : L) (c : F) : Prop :=
  ∃ obj cov mean, objs !! lbl = Some obj ∧ cov_fix obj = Ok (cov, mean, c).

End Gaussian.
(** [k] is the index of the first maximum of [probs]: no entry is larger
    and every entry before it is smaller. *)
Definition first_maximum (probs : list Q) (k : nat) : Prop :=
  ∃ v, probs !! k = Some v ∧
       (∀ j vj, probs !! j = Some vj → (vj <= v)%Q) ∧
       (∀ j vj, (j < k)%nat → probs !! j = Some vj → (vj < v)%Q).

End GaussianClassifierNode.

(** * Example inputs *)

Module Examples.
Import SimpleMarkovClassifier.

(** Five observations in one call: the feature [(0,)] once with the
    label a and three times with b, the feature [(1,)] once with a. *)
Definition markov_history : history (K:=Z) (L:=string) :=
  [ ([[0%Z]; [0%Z]; [0%Z]; [0%Z]; [1%Z]],
     LabelSeq ["a"; "b"; "b"; "b"; "a"]) ].

(** Two rows and their labels for the perceptron, in two orders. *)
Definition perceptron_rows : list (list float) :=
  [ [of_Z 1; of_Z 0]; [of_Z 1; of_Z (-1)] ].
Definition perceptron_labels : list float := [of_Z (-1); of_Z 1].

(** The pattern stored in a Hopfield memory of four units, and the
    pattern with its second unit flipped. *)
Definition hopfield_stored : list bool := [true; true; false; false].
Definition hopfield_query : list bool := [true; false; false; false].

(** The Euclidean norm in double precision, and the square of the
    Euclidean norm in exact arithmetic. *)
Definition euclid (v : list float) : float :=
  PrimFloat.sqrt (fsum (map (fun a => fmul a a) v)).
Definition sq_norm (v : list Q) : Q := fsum (map (fun a => fmul a a) v).

(** Three rows of one entry and two centroids. *)
Definition kmeans_rows : list (list Q) := [[0%Q]; [1%Q]; [10%Q]].
Definition kmeans_centroids : list (list Q) := [[0%Q]; [1%Q]].

(** A K-means classifier of two clusters and at most one step, trained
    with the rows 0, 1 and 10. *)
Definition kmeans_trained : KMeansClassifier.state (F:=float) :=
  (KMeansClassifier._train [[of_Z 0]; [of_Z 1]; [of_Z 10]]
     (KMeansClassifier.init 2 1 1)).2.

(** A K-means classifier of two clusters trained with the rows 0 and
    10: its first step finds the centroids stable. *)
Definition kmeans_stable : KMeansClassifier.state (F:=float) :=
  (KMeansClassifier._train [[of_Z 0]; [of_Z 10]]
     (KMeansClassifier.init 2 100 1)).2.

(** Stand-ins in rational numbers for the functions of the numerical
    library, to run the Gaussian classifier on an example: a square
    root that is exact on squares, the Taylor polynomial of degree 4 for
    the exponential (its inverse at a negative argument), the power as a
    power of the square root, 22/7 for pi, and the determinant and the
    inverse of matrices of one entry. *)
Definition rational_sqrt (q : Q) : Q :=
  (inject_Z (Z.sqrt (Qnum q)) / inject_Z (Z.sqrt (Zpos (Qden q))))%Q.

Definition rational_numlib : NumLib Q := {|
  fsqrt := rational_sqrt;
  fexp := fun x =>
    let taylor := fun y : Q =>
      (1 + y + y * y / 2 + y * y * y / 6 + y * y * y * y / 24)%Q in
    if Qle_bool 0 x then taylor x else (1 / taylor (- x))%Q;
  fpow := fun x y => Qpower (rational_sqrt x) (Qfloor (2 * y));
  fpi := 22 # 7;
  det := fun m => match m with [[a]] => a | _ => 0%Q end;
  inv := fun m => match m with
                  | [[a]] => Ok [[(1 / a)%Q]]
                  | _ => Raise ValueError
                  end;
|}.

(** Modelled from the spec: the covariance accumulator, the running sum
    of the outer products of the rows, the sum of the rows and their
    number; it is fixed into the covariance matrix, the mean and the
    number of rows. *)
Definition add_to {A} (add : A → A → A) (acc : option A) (a : A)
    : option A :=
  match acc with
  | None => Some a
  | Some b => Some (add b a)
  end.

Definition running_update
    (acc : option (list (list Q)) * option (list Q) * Q)
    (row : list Q) : option (list (list Q)) * option (list Q) * Q :=
  let '(outers, sums, n) := acc in
  (add_to (zip_with (zip_with Qplus)) outers
          (DiscreteHopfieldClassifier.outer row row),
   add_to (zip_with Qplus) sums row,
   (n + 1)%Q).

Definition running_cov : CovarianceMatrix Q := {|
  cov_obj := option (list (list Q)) * option (list Q) * Q;
  cov_new := (None, None, 0%Q);
  cov_update := fun acc x => Ok (fold_left running_update x acc);
  cov_fix := fun '(outers, sums, n) =>
    match outers, sums with
    | Some m, Some s =>
        let mean := map (fun a => (a / n)%Q) s in
        let cov :=
          zip_with (zip_with Qminus)
                   (map (map (fun a => (a / n)%Q)) m)
                   (DiscreteHopfieldClassifier.outer mean mean) in
        Ok (cov, mean, n)
    | _, _ => Raise ValueError
    end;
|}.

(** A Gaussian classifier of one dimension trained with the rows 1 and 3
    for the label 0 and the rows 10 and 12 for the label 1. *)
Definition gaussian_trained
    : GaussianClassifierNode.state (H1:=running_cov) (F:=Q) (L:=Z) :=
  (GaussianClassifierNode._train [[1%Q]; [3%Q]; [10%Q]; [12%Q]]
     (LabelSeq [0%Z; 0%Z; 1%Z; 1%Z])
     (GaussianClassifierNode.init 1)).2.
(** A K-means classifier of two clusters in exact arithmetic, trained
    with the rows 0 and 10. *)
Definition kmeans_exact : KMeansClassifier.state (F:=Q) :=
  (KMeansClassifier._train [[0%Q]; [10%Q]]
     (KMeansClassifier.init 2 100 1)).2.

End Examples.

(** * Properties *)

(** ** The exception and method monads *)

Lemma bind_ok {A B} (r : result A) (k : A → result B) b :
  r ≫= k = Ok b → ∃ a, r = Ok a ∧ k a = Ok b.
Proof. destruct r as [a|e]; simpl; [eauto | discriminate]. Qed.

Lemma mapM_ok_length {A B} (f : A → result B) (l : list A) (l' : list B) :
  mapM f l = Ok l' → length l' = length l.
Proof.
  revert l'. induction l as [|a l IH]; intros l' E; simpl in E.
  - by inversion E.
  - destruct (f a) as [b|e] eqn:Ea; simpl in E; [|discriminate].
    destruct (mapM f l) as [bs|e] eqn:El; simpl in E; [|discriminate].
    inversion E; subst. simpl. f_equal. by apply IH.
Qed.

(** ** The stretched zip *)

(** With as many labels as rows, the stretched zip is the plain zip. *)
Lemma stretch_length_eq {A} (l : list A) : stretch (length l) l = l.
Proof.
  unfold stretch. destruct (last l) eqn:E.
  - rewrite Nat.sub_diag. simpl. apply app_nil_r.
  - apply last_None in E. by subst.
Qed.

Lemma izip_stretched_seq {A L} (x : list A) (ls : list L) :
  length ls = length x → izip_stretched x (LabelSeq ls) = zip x ls.
Proof.
  intros E. unfold izip_stretched. rewrite E, Nat.max_id.
  rewrite <- E at 2. by rewrite !stretch_length_eq.
Qed.

(** ** Exact arithmetic *)

Lemma Qmult_1_l_eq (x : Q) : (1 * x)%Q = x.
Proof. destruct x as [n d]. unfold Qmult. simpl. by destruct n. Qed.

Lemma Qmult_1_r_eq (x : Q) : (x * 1)%Q = x.
Proof.
  destruct x as [n d]. unfold Qmult. simpl.
  by rewrite Z.mul_1_r, Pos.mul_1_r.
Qed.

Lemma Qmult_comm_eq (x y : Q) : (x * y)%Q = (y * x)%Q.
Proof.
  destruct x as [n d], y as [n' d']. unfold Qmult. simpl.
  by rewrite Z.mul_comm, Pos.mul_comm.
Qed.

Lemma pydiv_Q_ok (x y : Q) : ¬ (y == 0)%Q → pydiv x y = Ok (x / y)%Q.
Proof.
  intros Hy. unfold pydiv. simpl.
  destruct (Qeq_bool y (inject_Z 0)) eqn:E; [|done].
  apply Qeq_bool_iff in E. by destruct Hy.
Qed.

Lemma inject_Z_nonzero (n : Z) : n ≠ 0%Z → ¬ (inject_Z n == 0)%Q.
Proof. unfold Qeq. simpl. lia. Qed.

Lemma Qdiv_nonzero (x y : Q) :
  ¬ (x == 0)%Q → ¬ (y == 0)%Q → ¬ (x / y == 0)%Q.
Proof.
  intros Hx Hy E. apply Hx.
  assert (Hxy : (x == (x / y) * y)%Q) by (field; exact Hy).
  rewrite Hxy, E. ring.
Qed.

(** ** Double precision arithmetic *)

(** Multiplying a double by 1 leaves it as it is: the significand of the
    product has 52 zero bits too many, which rounding shifts out. *)
Lemma digits2_pos_shift52 (m : positive) :
  Zpos (digits2_pos (4503599627370496 * m)) = (Zpos (digits2_pos m) + 52)%Z.
Proof. cbv [Pos.mul]. cbn [digits2_pos]. rewrite !Pos2Z.inj_succ. lia. Qed.

Lemma shr_shift52 (m : positive) (e : Z) :
  shr {| shr_m := Zpos (4503599627370496 * m);
         shr_r := false; shr_s := false |} (-52 + e) 52
  = ({| shr_m := Zpos m; shr_r := false; shr_s := false |}, e).
Proof. unfold shr. apply f_equal2; [|lia]. vm_compute. reflexivity. Qed.

Lemma round_aux_shift52 (s : bool) (m : positive) (e : Z) :
  bounded prec emax m e = true →
  binary_round_aux prec emax s (Zpos (4503599627370496 * m)) (-52 + e)
                   loc_Exact
  = S754_finite s m e.
Proof.
  intros Hb. apply andb_prop in Hb as [Hc He].
  unfold canonical_mantissa in Hc. apply Z.eqb_eq in Hc.
  unfold binary_round_aux, shr_fexp.
  unfold Zdigits2 at 1. rewrite digits2_pos_shift52.
  replace (Zpos (digits2_pos m) + 52 + (-52 + e))%Z
    with (Zpos (digits2_pos m) + e)%Z by lia.
  rewrite Hc. replace (e - (-52 + e))%Z with 52%Z by lia.
  unfold shr_record_of_loc at 1. rewrite shr_shift52.
  cbn [shr_m loc_of_shr_record round_nearest_even shr_record_of_loc].
  unfold Zdigits2. rewrite Hc, Z.sub_diag. cbn [shr shr_m].
  by rewrite He.
Qed.

Lemma float_mul_1_l (x : float) : (1 * x)%float = x.
Proof.
  apply Prim2SF_inj. rewrite mul_spec.
  pose proof (Prim2SF_valid x) as V.
  change (Prim2SF 1) with (S754_finite false 4503599627370496 (-52)).
  destruct (Prim2SF x) as [s|s| |s m e]; try reflexivity.
  apply (round_aux_shift52 s m e V).
Qed.

Lemma float_mul_comm (x y : float) : (x * y)%float = (y * x)%float.
Proof.
  apply Prim2SF_inj. rewrite !mul_spec.
  destruct (Prim2SF x) as [s|s| |s m e], (Prim2SF y) as [s'|s'| |s' m' e'];
    cbn [SF64mul SFmul]; try reflexivity; try (by rewrite xorb_comm).
  by rewrite xorb_comm, Pos.mul_comm, Z.add_comm.
Qed.

#[export] Instance binary64_laws : NumLaws float.
Proof.
  split; cbn [of_Z fmul binary64].
  - apply float_mul_1_l.
  - intros x. rewrite float_mul_comm. apply float_mul_1_l.
  - apply float_mul_comm.
Qed.

#[export] Instance exactQ_laws : NumLaws Q.
Proof.
  split; cbn [of_Z fmul exactQ].
  - apply Qmult_1_l_eq.
  - apply Qmult_1_r_eq.
  - apply Qmult_comm_eq.
Qed.

(** ** SimpleMarkovClassifier *)

Section MarkovFacts.
Import SimpleMarkovClassifier.
Context {K L : Type} `{Countable K} `{Countable L}.
Implicit Types (self : state (K:=K) (L:=L)) (h : history (K:=K) (L:=L)).

Lemma count_up_lookup {A} `{Countable A} (k k' : A) (d : gmap A Z) :
  count_up k d !! k' =
    if decide (k = k') then Some (default 0%Z (d !! k) + 1)%Z else d !! k'.
Proof.
  unfold count_up. destruct (d !! k) as [n|] eqn:E; simpl;
    rewrite lookup_insert; by case_decide.
Qed.

Lemma count_up_dom {A} `{Countable A} (k : A) (d : gmap A Z) :
  dom (count_up k d) = {[k]} ∪ dom d.
Proof. unfold count_up. destruct (d !! k); apply dom_insert_L. Qed.

(** The state after a history is the state after its observations. *)
Lemma fold_train_observations h self :
  fold_left (fun self '(x, lbls) => snd (train x lbls self)) h self
  = learn_all (observations h) self.
Proof.
  revert self. induction h as [|[x lbls] h IH]; intros self; [done|].
  simpl. rewrite IH. unfold observations at 2. simpl.
  fold (observations h). unfold learn_all at 2. rewrite fold_left_app.
  f_equal. unfold train, _check_train_args, lift, put, get.
  destruct (labels_mismatch x lbls); reflexivity.
Qed.

Lemma after_observations h : after h = learn_all (observations h) init.
Proof. apply fold_train_observations. Qed.

Lemma counts_ok_init : counts_ok (init (K:=K) (L:=L)).
Proof. split; intros ? ?; simpl; by rewrite lookup_empty. Qed.

Lemma counts_ok_learn self f l :
  (0 ≤ ntotal_connections self)%Z → counts_ok self →
  counts_ok (_learn self f l).
Proof.
  intros Hn [Hl Hf]. split; simpl.
  - intros l' n. rewrite count_up_lookup. case_decide.
    + intros [= <-]. destruct (labels self !! l) as [m|] eqn:E; simpl;
        [apply Hl in E|]; lia.
    + apply Hl.
  - intros f' n. rewrite count_up_lookup. case_decide.
    + intros [= <-]. destruct (features self !! f) as [m|] eqn:E; simpl;
        [apply Hf in E|]; lia.
    + intros E. apply Hf in E. lia.
Qed.

Lemma counts_ok_learn_all obs self :
  (0 ≤ ntotal_connections self)%Z → counts_ok self →
  (0 ≤ ntotal_connections (learn_all obs self))%Z ∧
  counts_ok (learn_all obs self).
Proof.
  revert self. induction obs as [|[f l] obs IH]; intros self Hn Hok;
    [done|].
  simpl. apply IH; [simpl; lia | by apply counts_ok_learn].
Qed.

Lemma counts_ok_after h : counts_ok (after h).
Proof.
  rewrite after_observations.
  apply counts_ok_learn_all; [done | apply counts_ok_init].
Qed.

Lemma dom_labels_learn_all obs self :
  dom (labels (learn_all obs self))
  = list_to_set obs.*2 ∪ dom (labels self).
Proof.
  revert self. induction obs as [|[f l] obs IH]; intros self.
  - simpl. set_solver.
  - change (learn_all ((f, l) :: obs) self)
      with (learn_all obs (_learn self f l)).
    rewrite IH, fmap_cons, list_to_set_cons. clear IH.
    cbn [labels features _learn]. rewrite count_up_dom.
    cbn [fst snd]. set_solver.
Qed.

Lemma dom_features_learn_all obs self :
  dom (features (learn_all obs self))
  = list_to_set obs.*1 ∪ dom (features self).
Proof.
  revert self. induction obs as [|[f l] obs IH]; intros self.
  - simpl. set_solver.
  - change (learn_all ((f, l) :: obs) self)
      with (learn_all obs (_learn self f l)).
    rewrite IH, fmap_cons, list_to_set_cons. clear IH.
    cbn [labels features _learn]. rewrite count_up_dom.
    cbn [fst snd]. set_solver.
Qed.

(** The keys of [labels] are the labels observed, those of [features]
    the features observed. *)
Lemma dom_labels_after h :
  dom (labels (after h)) = list_to_set (observations h).*2.
Proof.
  rewrite after_observations, dom_labels_learn_all. simpl.
  rewrite dom_empty_L. set_solver.
Qed.

Lemma dom_features_after h :
  dom (features (after h)) = list_to_set (observations h).*1.
Proof.
  rewrite after_observations, dom_features_learn_all. simpl.
  rewrite dom_empty_L. set_solver.
Qed.

(** The loop over the labels, when the probability of every label is
    defined. *)
Lemma prob_loop_ok {F} `{Num F} self feature n (g : L → F) todo acc :
  (∀ l, l ∈ todo → prob_of_label self feature n l = Ok (g l)) →
  ∃ m, prob_loop self feature n todo acc = Ok m ∧
       ∀ l, m !! l = if decide (l ∈ todo) then Some (g l) else acc !! l.
Proof.
  revert acc. induction todo as [|l0 todo IH]; intros acc Hg; simpl.
  - exists acc. split; [done|]. intros l.
    destruct (decide (l ∈ [])) as [Hin|]; [|done].
    by apply elem_of_nil in Hin.
  - rewrite (Hg l0) by left. simpl.
    destruct (IH (<[l0 := g l0]> acc)) as (m & Hm & Hlook).
    { intros l Hl. apply Hg. by right. }
    exists m. split; [done|]. intros l. rewrite Hlook.
    destruct (decide (l ∈ todo)) as [Hin|Hnin].
    + rewrite decide_True; [done | by right].
    + rewrite lookup_insert. destruct (decide (l0 = l)) as [->|Hne].
      * rewrite decide_True; [done | by left].
      * rewrite decide_False; [done|].
        intros [->|?]%elem_of_cons; done.
Qed.

(** C1: whatever the training history, the probabilities of a query
    feature that is not a key of the dictionary of the feature counts
    are the empty dictionary: [_prob_one] returns it without raising,
    before any division, and being a function of the state it leaves
    the state as it is. *)
Theorem prob_one_unseen_feature {F} `{Num F} h (feature : list K) :
  features (after h) !! feature = None →
  _prob_one (F:=F) (after h) feature = Ok ∅.
Proof. intros E. unfold _prob_one. by rewrite E. Qed.

(** The features that are keys of the dictionary are the observed
    ones. *)
Lemma features_after_None h (feature : list K) :
  features (after h) !! feature = None ↔ feature ∉ (observations h).*1.
Proof.
  rewrite <- not_elem_of_dom, dom_features_after.
  by rewrite elem_of_list_to_set.
Qed.

(** The probability of one label in exact arithmetic. *)
Lemma prob_of_label_exact self feature n_feature label n_label :
  counts_ok self →
  features self !! feature = Some n_feature →
  labels self !! label = Some n_label →
  prob_of_label (F:=Q) self feature n_feature label
  = Ok ((inject_Z (default 0%Z (connections self !! (feature, label)))
           / inject_Z n_label)
        * (inject_Z n_label / inject_Z (ntotal_connections self))
        / (inject_Z n_feature / inject_Z (ntotal_connections self)))%Q.
Proof.
  intros [Hl Hf] Ef El. apply Hl in El as Hnl. apply Hf in Ef as [Hnf Hn].
  unfold prob_of_label. rewrite El. cbn [default of_Z fmul exactQ].
  unfold id. change (inject_Z 1) with 1%Q. rewrite !Qmult_1_l_eq.
  rewrite pydiv_Q_ok by (apply inject_Z_nonzero; lia). cbn [mbind result_bind bind].
  rewrite pydiv_Q_ok by (apply inject_Z_nonzero; lia). cbn [mbind result_bind bind].
  rewrite pydiv_Q_ok by (apply inject_Z_nonzero; lia). cbn [mbind result_bind bind].
  rewrite Qmult_1_l_eq.
  rewrite pydiv_Q_ok; [done|].
  apply Qdiv_nonzero; apply inject_Z_nonzero; lia.
Qed.

(** In exact arithmetic the loop over the labels returns the posterior
    of every label of the state. *)
Lemma prob_one_posterior h (feature : list K) (n_feature : Z) :
  features (after h) !! feature = Some n_feature →
  ∃ m : gmap L Q,
    _prob_one (after h) feature = Ok m ∧
    ∀ l, m !! l
         = (fun _ => posterior (after h) feature n_feature l)
             <$> labels (after h) !! l.
Proof.
  intros Ef.
  destruct (prob_loop_ok (F:=Q) (after h) feature n_feature
              (posterior (after h) feature n_feature)
              (map_to_list (labels (after h))).*1 ∅) as (m & Hm & Hlook).
  { intros l Hl. apply list_elem_of_fmap in Hl as ([l' n] & -> & Hl).
    apply elem_of_map_to_list in Hl. cbn [fst].
    rewrite (prob_of_label_exact _ _ _ _ n);
      auto using counts_ok_after.
    unfold posterior, joint_count. by rewrite Hl. }
  exists m. split; [unfold _prob_one; by rewrite Ef|].
  intros l. rewrite Hlook.
  destruct (labels (after h) !! l) as [n|] eqn:El.
  - rewrite decide_True; [done|].
    apply list_elem_of_fmap. exists (l, n).
    split; [done|]. by apply elem_of_map_to_list.
  - rewrite decide_False; [apply lookup_empty|].
    intros ([l' n] & -> & Hl)%list_elem_of_fmap.
    apply elem_of_map_to_list in Hl. cbn [fst] in El. congruence.
Qed.

(** C2: whatever the training history, for a query feature that has been
    observed [_prob_one] returns a dictionary whose keys are the labels
    observed, and whose value at a label is
    [(joint / n_label) * (n_label / total) / (n_feature / total)], where
    the joint count is 0 for a pair that has not been observed.  The
    arithmetic is exact. *)
Theorem prob_one_bayes h (feature : list K) :
  feature ∈ (observations h).*1 →
  ∃ (n_feature : Z) (probabilities : gmap L Q),
    features (after h) !! feature = Some n_feature ∧
    _prob_one (after h) feature = Ok probabilities ∧
    dom probabilities = list_to_set (observations h).*2 ∧
    ∀ label n_label, labels (after h) !! label = Some n_label →
      probabilities !! label = Some
        ((inject_Z (default 0%Z (connections (after h) !! (feature, label)))
            / inject_Z n_label)
         * (inject_Z n_label / inject_Z (ntotal_connections (after h)))
         / (inject_Z n_feature
            / inject_Z (ntotal_connections (after h))))%Q.
Proof.
  intros Hobs.
  assert (Hin : feature ∈ dom (features (after h))).
  { rewrite dom_features_after. by apply elem_of_list_to_set. }
  apply elem_of_dom in Hin as [n_feature Ef]. exists n_feature.
  destruct (prob_one_posterior h feature n_feature Ef) as (m & Em & Hlook).
  exists m. split; [done|]. split; [done|]. split.
  - rewrite <- dom_labels_after. apply set_eq. intros l.
    by rewrite !elem_of_dom, Hlook, fmap_is_Some.
  - intros label n_label El. rewrite Hlook, El. cbn [fmap option_fmap option_map].
    unfold posterior, joint_count. by rewrite El.
Qed.
End MarkovFacts.

(** C3: there are a training history and a query feature that has been
    observed for which the probabilities returned, computed in double
    precision as the interpreter does, do not add up to 1, in whichever
    order they are added: nothing normalizes them again.  After the
    observations of [markov_history] the probabilities of the feature
    [(0,)] are 0.25 and 0.7499999999999999. *)
Theorem prob_one_not_normalized :
  ∃ (h : SimpleMarkovClassifier.history (K:=Z) (L:=string))
    (feature : list Z) (probabilities : gmap string float),
    feature ∈ (SimpleMarkovClassifier.observations h).*1 ∧
    SimpleMarkovClassifier._prob_one (SimpleMarkovClassifier.after h) feature
      = Ok probabilities ∧
    ∀ values : list float,
      values ≡ₚ (map_to_list probabilities).*2 → fsum values ≠ of_Z 1.
Proof.
  exists Examples.markov_history, [0%Z],
    {[ "a" := 0x1p-2%float; "b" := 0x1.7ffffffffffffp-1%float ]}.
  split; [|split].
  - vm_compute. left.
  - vm_compute. reflexivity.
  - intros values Hp.
    assert (Hs : PrimFloat.eqb (fsum values) (of_Z 1) = false).
    { vm_compute in Hp. symmetry in Hp.
      apply Permutation_length_2_inv in Hp as [-> | ->];
        vm_compute; reflexivity. }
    intros E. rewrite E in Hs. vm_compute in Hs. discriminate.
Qed.

(** The hypothesis of C1 at one input: a feature that has not been
    observed. *)
Lemma prob_one_unseen_feature_witness :
  SimpleMarkovClassifier.features
    (SimpleMarkovClassifier.after Examples.markov_history) !! [7%Z] = None ∧
  SimpleMarkovClassifier._prob_one (F:=float)
    (SimpleMarkovClassifier.after Examples.markov_history) [7%Z] = Ok ∅.
Proof.
  split; [vm_compute; reflexivity|].
  apply (prob_one_unseen_feature (F:=float)). vm_compute. reflexivity.
Defined.

(** ** PerceptronClassifier *)

Lemma for_each_app {S A} (l1 l2 : list A) (body : A → method S unit) self :
  for_each (l1 ++ l2) body self
  = match for_each l1 body self with
    | (Ok _, self') => for_each l2 body self'
    | (Raise e, self') => (Raise e, self')
    end.
Proof.
  revert self. induction l1 as [|a l1 IH]; intros self; [done|].
  cbn [app for_each]. unfold mbind, method_bind.
  destruct (body a self) as [[[]|e] self']; [apply IH | done].
Qed.

(** The rows of a stretched zip are rows of the batch. *)
Lemma stretch_elem {A} (n : nat) (l : list A) a : a ∈ stretch n l → a ∈ l.
Proof.
  unfold stretch. destruct (last l) as [b|] eqn:E; [|by intros ?%elem_of_nil].
  intros [Ha|Ha]%elem_of_app; [done|].
  apply elem_of_replicate in Ha as [-> _].
  apply last_Some in E as [l' ->]. apply elem_of_app. right. left.
Qed.

Lemma izip_stretched_row {A L} (x : list A) (lbls : labels_arg L) xi l :
  (xi, l) ∈ izip_stretched x lbls → xi ∈ x.
Proof.
  destruct lbls as [l0|ls]; simpl; intros Hin.
  - by apply elem_of_zip_l in Hin.
  - apply elem_of_zip_l in Hin. by apply stretch_elem in Hin.
Qed.

Section PerceptronFacts.
Import PerceptronClassifier.
Context {F : Type} `{NumLaws F}.
Implicit Types (self : state (F:=F)) (w xi : list F).

Lemma dot_from_comm acc (x w : list F) : dot_from acc x w = dot_from acc w x.
Proof.
  revert acc w. induction x as [|a x IH]; intros acc [|b w]; simpl;
    try done.
  by rewrite IH, fmul_comm.
Qed.

Lemma dot_comm (x w : list F) : dot x w = dot w x.
Proof. apply dot_from_comm. Qed.

(** The loop over the entries: after [length w1] rounds the entries
    before that index have been updated and the others not yet. *)
Lemma update_weights_loop rate w2 : ∀ w1 x1 x2 self,
  length w1 = length x1 → length w2 = length x2 →
  weights self = w1 ++ w2 →
  for_each (seq (length w1) (length w2)) (update_weight rate (x1 ++ x2)) self
  = (Ok (),
     set_weights
       (w1 ++ zip_with (fun wj xj => fadd wj (fmul rate xj)) w2 x2) self).
Proof.
  induction w2 as [|a w2 IH]; intros w1 x1 x2 self E1 E2 Ew.
  - destruct x2; [|done]. simpl. unfold mret, method_ret. f_equal.
    destruct self; simpl in *. by subst.
  - destruct x2 as [|b x2]; [done|]. injection E2 as E2.
    cbn [length seq for_each].
    unfold mbind at 1, method_bind at 1.
    unfold update_weight at 1.
    unfold mbind, method_bind, get, lift, put, index.
    rewrite Ew, list_lookup_middle by done.
    rewrite E1, list_lookup_middle by done. rewrite <- E1.
    rewrite insert_app_r_alt, Nat.sub_diag by lia. cbn [insert list_insert].
    set (a' := fadd a (fmul rate b)).
    specialize (IH (w1 ++ [a']) (x1 ++ [b]) x2
                   (set_weights (w1 ++ a' :: w2) self)).
    rewrite !length_app in IH. cbn [length] in IH.
    rewrite !Nat.add_1_r in IH. rewrite <- !app_assoc in IH.
    cbn [app] in IH.
    rewrite IH by (try done; congruence). reflexivity.
Qed.

Lemma update_weights_all rate xi self :
  length (weights self) = input_dim self →
  length xi = input_dim self →
  for_each (seq 0 (input_dim self)) (update_weight rate xi) self
  = (Ok (),
     set_weights
       (zip_with (fun wj xj => fadd wj (fmul rate xj)) (weights self) xi)
       self).
Proof.
  intros Ew Ex. rewrite <- Ew.
  apply (update_weights_loop rate (weights self) [] [] xi self);
    [done | congruence | done].
Qed.

(** One row: the body of the loop is the update of the specification. *)
Lemma train_row_online_update xi labeli self :
  length (weights self) = input_dim self →
  length xi = input_dim self →
  train_row xi labeli self
  = (Ok (),
     with_weights
       (online_update (learning_rate self)
          (weights self, offset_weight self) (xi, labeli)) self).
Proof.
  intros Ew Ex. unfold train_row.
  unfold mbind at 1, method_bind at 1, get at 1.
  unfold _label_row, np_dot. rewrite Ex, Ew, Nat.eqb_refl.
  cbn [mbind result_bind bind]. unfold mbind at 1, method_bind at 1.
  unfold mbind at 1, method_bind at 1. unfold lift.
  rewrite update_weights_all by done.
  unfold get, put, mbind, method_bind. cbn [online_update].
  rewrite fmul_1_r, (dot_comm xi). reflexivity.
Qed.

Lemma online_update_length lr (wb : list F * F) (pair : list F * F) :
  length pair.1 = length wb.1 →
  length (online_update lr wb pair).1 = length wb.1.
Proof.
  destruct wb as [w b], pair as [xi l]. simpl. intros E.
  rewrite length_zip_with. lia.
Qed.

Lemma with_weights_twice wb wb' self :
  with_weights wb (with_weights wb' self) = with_weights wb self.
Proof. reflexivity. Qed.

(** The loop over the rows is the fold of the update of the
    specification over the pairs, in their order. *)
Lemma train_rows_fold pairs : ∀ self,
  length (weights self) = input_dim self →
  (∀ xi l, (xi, l) ∈ pairs → length xi = input_dim self) →
  for_each pairs (fun '(xi, labeli) => train_row xi labeli) self
  = (Ok (),
     with_weights
       (fold_left (online_update (learning_rate self)) pairs
                  (weights self, offset_weight self)) self)
  ∧ length (fold_left (online_update (learning_rate self)) pairs
                      (weights self, offset_weight self)).1
    = input_dim self.
Proof.
  induction pairs as [|[xi l] pairs IH]; intros self Ew Hrows.
  - simpl. split; [|done]. unfold mret, method_ret. f_equal.
    by destruct self.
  - cbn [for_each fold_left]. unfold mbind, method_bind.
    rewrite train_row_online_update by (try done; apply (Hrows xi l); left).
    set (wb := online_update (learning_rate self)
                 (weights self, offset_weight self) (xi, l)).
    assert (Ewb : length wb.1 = input_dim self).
    { unfold wb. rewrite online_update_length; simpl; [done|].
      rewrite Ew. apply (Hrows xi l). left. }
    destruct (IH (with_weights wb self)) as [IH1 IH2]; [done| |].
    { intros xi' l' Hin. apply (Hrows xi' l'). by right. }
    cbn [weights offset_weight learning_rate input_dim with_weights]
      in IH1, IH2.
    rewrite <- surjective_pairing in IH1, IH2.
    split; [|done]. etrans; [exact IH1|]. reflexivity.
Qed.

Lemma replicate_0_weights self :
  length (weights self) = input_dim self →
  (length (weights self) =? 0)%nat = true →
  set_weights (replicate (input_dim self) (of_Z 1)) self = self.
Proof.
  intros Ew E0. apply Nat.eqb_eq in E0. rewrite <- Ew, E0.
  destruct self as [d w b lr]; simpl in *.
  apply nil_length_inv in E0. by subst.
Qed.

(** A call on a state whose weights are there leaves out the
    initialisation. *)
Lemma train_next (x : list (list F)) lbls self :
  length (weights self) = input_dim self →
  (∀ row, row ∈ x → length row = input_dim self) →
  _train x lbls self
  = (Ok (),
     with_weights
       (fold_left (online_update (learning_rate self))
                  (izip_stretched x lbls)
                  (weights self, offset_weight self)) self)
  ∧ length (fold_left (online_update (learning_rate self))
                      (izip_stretched x lbls)
                      (weights self, offset_weight self)).1
    = input_dim self.
Proof.
  intros Ew Hrows. unfold _train.
  unfold mbind at 1, method_bind at 1, get at 1.
  unfold mbind at 1, method_bind at 1.
  assert (Hp : ∀ xi l, (xi, l) ∈ izip_stretched x lbls →
                       length xi = input_dim self).
  { intros xi l Hin. apply Hrows. by apply izip_stretched_row in Hin. }
  destruct (length (weights self) =? 0)%nat eqn:E0.
  - unfold put. rewrite replicate_0_weights by done.
    by apply train_rows_fold.
  - unfold mret, method_ret. by apply train_rows_fold.
Qed.

(** The first call: the weights are all ones and the offset is 0. *)
Lemma train_first (x : list (list F)) lbls (dim : nat) :
  (∀ row, row ∈ x → length row = dim) →
  _train x lbls (init dim)
  = (Ok (),
     with_weights
       (fold_left (online_update lit_tenth) (izip_stretched x lbls)
                  (replicate dim (of_Z 1), of_Z 0)) (init dim))
  ∧ length (fold_left (online_update lit_tenth) (izip_stretched x lbls)
                      (replicate dim (of_Z 1), of_Z 0)).1 = dim.
Proof.
  intros Hrows. unfold _train.
  unfold mbind at 1, method_bind at 1, get at 1.
  unfold mbind at 1, method_bind at 1. cbn [init weights length Nat.eqb].
  unfold put. cbn [input_dim].
  destruct (train_rows_fold (izip_stretched x lbls)
              (set_weights (replicate dim (of_Z 1)) (init dim)))
    as [E1 E2].
  - simpl. apply length_replicate.
  - intros xi l Hin. apply Hrows. by apply izip_stretched_row in Hin.
  - split; [|exact E2]. etrans; [exact E1|]. reflexivity.
Qed.

Lemma train_calls_next calls : ∀ self,
  length (weights self) = input_dim self →
  (∀ (x : list (list F)) lbls row, (x, lbls) ∈ calls → row ∈ x →
                 length row = input_dim self) →
  train_calls calls self
  = (Ok (),
     with_weights
       (fold_left (online_update (learning_rate self)) (pairs_of calls)
                  (weights self, offset_weight self)) self).
Proof.
  induction calls as [|[x lbls] calls IH]; intros self Ew Hrows.
  - simpl. unfold mret, method_ret. f_equal. by destruct self.
  - unfold train_calls. cbn [for_each]. unfold mbind, method_bind.
    destruct (train_next x lbls self) as [E1 E2]; [done| |].
    { intros row Hin. apply (Hrows x lbls); [left|done]. }
    rewrite E1. fold (train_calls calls).
    rewrite IH; [| done |].
    + cbn [weights offset_weight learning_rate with_weights].
      rewrite <- surjective_pairing.
      unfold pairs_of. cbn [map concat]. rewrite fold_left_app.
      reflexivity.
    + intros x' lbls' row Hin Hrow. apply (Hrows x' lbls'); [by right|done].
Qed.
End PerceptronFacts.

(** C4: over a sequence of calls of [_train] on a new perceptron the
    weights are set to all ones in the first call only; from there every
    (row, label) pair, in the order of the calls and of the rows of each
    batch (a single label paired with every row), updates the weights and
    the bias by the update of the specification before the next pair is
    looked at.  The order of the rows is the order of the updates: there
    is a batch, computed in double precision, whose rows in the other
    order end in other weights. *)
Theorem train_online_update :
  (∀ (F : Type) (N : Num F) (NL : NumLaws F) (dim : nat)
     (calls : list (list (list F) * labels_arg F)),
     calls ≠ [] →
     (∀ x lbls row, (x, lbls) ∈ calls → row ∈ x → length row = dim) →
     PerceptronClassifier.train_calls calls (PerceptronClassifier.init dim)
     = (Ok (),
        PerceptronClassifier.with_weights
          (fold_left (PerceptronClassifier.online_update lit_tenth)
                     (PerceptronClassifier.pairs_of calls)
                     (replicate dim (of_Z 1), of_Z 0))
          (PerceptronClassifier.init dim)))
  ∧ (∃ (x x' : list (list float)) (lbls lbls' : list float),
       zip x' lbls' ≡ₚ zip x lbls ∧
       PerceptronClassifier.weights
         (PerceptronClassifier._train x (LabelSeq lbls)
            (PerceptronClassifier.init 2)).2
       ≠ PerceptronClassifier.weights
           (PerceptronClassifier._train x' (LabelSeq lbls')
              (PerceptronClassifier.init 2)).2).
Proof.
  split.
  - intros F N NL dim [|[x lbls] calls] Hne Hrows; [done|].
    unfold PerceptronClassifier.train_calls. cbn [for_each].
    unfold mbind, method_bind.
    destruct (train_first x lbls dim) as [E1 E2].
    { intros row Hin. apply (Hrows x lbls); [left|done]. }
    rewrite E1. fold (PerceptronClassifier.train_calls calls).
    rewrite train_calls_next; [| done |].
    + cbn [PerceptronClassifier.weights PerceptronClassifier.offset_weight
           PerceptronClassifier.learning_rate
           PerceptronClassifier.with_weights PerceptronClassifier.init].
      rewrite <- surjective_pairing.
      unfold PerceptronClassifier.pairs_of. cbn [map concat].
      rewrite fold_left_app. reflexivity.
    + intros x' lbls' row Hin Hrow. apply (Hrows x' lbls'); [by right|done].
  - exists Examples.perceptron_rows, (reverse Examples.perceptron_rows),
      Examples.perceptron_labels, (reverse Examples.perceptron_labels).
    split.
    + vm_compute. apply perm_swap.
    + intros E.
      apply (f_equal (fun w => match w with
                               | a :: _ => PrimFloat.eqb a 1
                               | [] => false
                               end)) in E.
      vm_compute in E. discriminate.
Qed.

(** The hypotheses of C4 at one input: one call with the two rows of
    [perceptron_rows], in double precision. *)
Lemma train_online_update_witness :
  let calls := [(Examples.perceptron_rows,
                 LabelSeq Examples.perceptron_labels)] in
  calls ≠ [] ∧
  (∀ x lbls row, (x, lbls) ∈ calls → row ∈ x → length row = 2) ∧
  PerceptronClassifier.train_calls calls (PerceptronClassifier.init 2)
  = (Ok (),
     PerceptronClassifier.with_weights
       (fold_left (PerceptronClassifier.online_update lit_tenth)
                  (PerceptronClassifier.pairs_of calls)
                  (replicate 2 (of_Z 1), of_Z 0))
       (PerceptronClassifier.init 2)).
Proof.
  assert (Hrows : ∀ (x : list (list float)) (lbls : labels_arg float) row,
            (x, lbls) ∈ [(Examples.perceptron_rows,
                          LabelSeq Examples.perceptron_labels)] →
            row ∈ x → length row = 2).
  { intros x lbls row Hin Hrow.
    apply list_elem_of_singleton in Hin. injection Hin as -> ->.
    unfold Examples.perceptron_rows in Hrow.
    apply elem_of_cons in Hrow as [->|Hrow]; [reflexivity|].
    apply list_elem_of_singleton in Hrow as ->. reflexivity. }
  split; [discriminate|]. split; [exact Hrows|].
  apply (proj1 train_online_update float binary64 binary64_laws 2);
    [discriminate | exact Hrows].
Defined.

(** The hypothesis of C2 at one input: the feature [(0,)] of
    [markov_history]. *)
Lemma prob_one_bayes_witness :
  [0%Z] ∈ (SimpleMarkovClassifier.observations Examples.markov_history).*1 ∧
  ∃ probabilities : gmap string Q,
    SimpleMarkovClassifier._prob_one
      (SimpleMarkovClassifier.after Examples.markov_history) [0%Z]
    = Ok probabilities ∧
    dom probabilities
    = list_to_set
        (SimpleMarkovClassifier.observations Examples.markov_history).*2.
Proof.
  assert (Hin : [0%Z] ∈
            (SimpleMarkovClassifier.observations Examples.markov_history).*1)
    by (vm_compute; left).
  split; [exact Hin|].
  destruct (prob_one_bayes Examples.markov_history [0%Z] Hin)
    as (n & m & _ & Em & Hd & _).
  exists m. by split.
Defined.

(** ** Validation of the labels *)

Lemma labels_mismatch_seq {A L} (x : list A) (ls : list L) :
  length ls ≠ length x → labels_mismatch x (LabelSeq ls) = true.
Proof. intros Hne. simpl. by apply negb_true_iff, Nat.eqb_neq. Qed.

(** C5: for each of the three classifiers that take labels, a call of
    [train] with a sequence of labels that is not as long as the batch has
    rows raises a [TrainingException], and the state after the call is the
    state before it: the weights, the dictionaries of counts and the
    covariance accumulators are as they were. *)
Theorem train_label_count_mismatch :
  (∀ (F : Type) (N : Num F) (self : PerceptronClassifier.state)
     (x : list (list F)) (ls : list F),
     length ls ≠ length x →
     PerceptronClassifier.train x (LabelSeq ls) self
     = (Raise TrainingException, self))
  ∧ (∀ (K L : Type) (EK : EqDecision K) (CK : Countable K)
       (EL : EqDecision L) (CL : Countable L)
       (self : SimpleMarkovClassifier.state (K:=K) (L:=L))
       (x : list (list K)) (ls : list L),
       length ls ≠ length x →
       SimpleMarkovClassifier.train x (LabelSeq ls) self
       = (Raise TrainingException, self))
  ∧ (∀ (F : Type) (N : Num F) (C : CovarianceMatrix F)
       (L : Type) (EL : EqDecision L) (CL : Countable L)
       (self : GaussianClassifierNode.state (F:=F) (L:=L))
       (x : list (list F)) (ls : list L),
       length ls ≠ length x →
       GaussianClassifierNode.train x (LabelSeq ls) self
       = (Raise TrainingException, self)).
Proof.
  split; [|split].
  - intros F N self x ls Hne.
    unfold PerceptronClassifier.train,
      PerceptronClassifier._check_train_args.
    by rewrite labels_mismatch_seq.
  - intros K L EK CK EL CL self x ls Hne.
    unfold SimpleMarkovClassifier.train,
      SimpleMarkovClassifier._check_train_args.
    by rewrite labels_mismatch_seq.
  - intros F N C L EL CL self x ls Hne.
    unfold GaussianClassifierNode.train,
      GaussianClassifierNode._check_train_args.
    by rewrite labels_mismatch_seq.
Qed.

(** The hypothesis of C5 at one input: two rows and three labels, for a
    Markov classifier that has been trained. *)
Lemma train_label_count_mismatch_witness :
  length ["a"; "b"; "a"] ≠ length [[0%Z]; [1%Z]] ∧
  SimpleMarkovClassifier.train [[0%Z]; [1%Z]] (LabelSeq ["a"; "b"; "a"])
    (SimpleMarkovClassifier.after Examples.markov_history)
  = (Raise TrainingException,
     SimpleMarkovClassifier.after Examples.markov_history).
Proof.
  split; [simpl; lia|].
  apply (proj1 (proj2 train_label_count_mismatch)). simpl. lia.
Defined.

(** ** KMeansClassifier *)

Lemma mapM_lookup_ok {A B} (f : A → result B) (l : list A) :
  (∀ i a, l !! i = Some a → is_ok (f a) = true) →
  ∃ l', mapM f l = Ok l' ∧ length l' = length l ∧
        ∀ i a, l !! i = Some a → ∃ b, f a = Ok b ∧ l' !! i = Some b.
Proof.
  induction l as [|a l IH]; intros Hok.
  - exists []. split; [done|]. split; [done|]. intros i a. by destruct i.
  - destruct (f a) as [b|e] eqn:Ea.
    2:{ specialize (Hok 0%nat a eq_refl). by rewrite Ea in Hok. }
    destruct IH as (l' & El & Hlen & Hl').
    { intros i a' Hi. apply (Hok (S i)). exact Hi. }
    exists (b :: l'). split; [|split].
    + simpl. rewrite Ea. simpl. rewrite El. reflexivity.
    + simpl. by rewrite Hlen.
    + intros [|i] a' Hi; simpl in Hi.
      * injection Hi as <-. by exists b.
      * apply Hl' in Hi as (b' & ? & ?). by exists b'.
Qed.

Section KMeansGeneric.
Import KMeansClassifier.
Context {F : Type} `{Num F} (norm : list F → F).

Lemma argmin_from_bound (l : list F) : ∀ b best i,
  (b < i)%nat → (argmin_from b best i l < i + length l)%nat.
Proof.
  induction l as [|d l IH]; intros b best i Hb; simpl; [lia|].
  destruct (feqb best best && (fltb d best || negb (feqb d d))).
  - specialize (IH i d (S i)). lia.
  - specialize (IH b best (S i)). lia.
Qed.

Lemma nearest_idx_bound x cs k :
  nearest_idx norm x cs = Ok k → (k < length cs)%nat.
Proof.
  unfold nearest_idx, argmin. destruct cs as [|c cs]; [done|].
  simpl. intros [= <-].
  pose proof (argmin_from_bound
                (map (fun c => norm (vsub x c)) cs) 0 (norm (vsub x c)) 1)
    as Hb.
  rewrite length_map in Hb. lia.
Qed.

Lemma nearest_idx_ok x cs :
  cs ≠ [] → ∃ k, nearest_idx norm x cs = Ok k.
Proof.
  unfold nearest_idx, argmin. destruct cs as [|c cs]; [done|].
  simpl. eauto.
Qed.

(** The loop over the rows adds to the entry of every index the rows
    assigned to it, in their order. *)
Lemma cluster_spec cs rows : ∀ acc,
  length acc = length cs → cs ≠ [] →
  ∃ acc', cluster norm cs rows acc = Ok acc' ∧
          length acc' = length acc ∧
          ∀ k e, acc !! k = Some e →
            acc' !! k = Some
              (fold_left add_position (assigned_to norm cs k rows) e.1,
               fold_left (fun c _ => fadd c (of_Z 1))
                         (assigned_to norm cs k rows) e.2).
Proof.
  induction rows as [|x rows IH]; intros acc Hlen Hne.
  - exists acc. split; [done|]. split; [done|].
    intros k [s c] Hk. by simpl.
  - destruct (nearest_idx_ok x cs Hne) as [idx Eidx].
    pose proof (nearest_idx_bound _ _ _ Eidx) as Hidx.
    destruct (lookup_lt_is_Some_2 acc idx) as [old Eold]; [lia|].
    cbn [cluster]. rewrite Eidx. cbn [mbind result_bind bind].
    unfold index. rewrite Eold. cbn [bind].
    destruct (IH (<[idx := (add_position old.1 x, fadd old.2 (of_Z 1))]> acc))
      as (acc' & Eacc & Hlen' & Hacc); [by rewrite length_insert | done |].
    exists acc'. split; [done|]. split; [by rewrite length_insert in Hlen'|].
    intros k e Hk. destruct (decide (k = idx)) as [->|Hneq].
    + rewrite (Hacc idx (add_position old.1 x, fadd old.2 (of_Z 1))).
      2:{ apply list_lookup_insert_eq. lia. }
      assert (e = old) as -> by congruence.
      unfold assigned_to. rewrite filter_cons_True.
      2:{ unfold is_assigned. rewrite Eidx. apply Nat.eqb_refl. }
      reflexivity.
    + rewrite (Hacc k e).
      2:{ by rewrite list_lookup_insert_ne. }
      unfold assigned_to. rewrite filter_cons_False; [done|].
      unfold is_assigned. rewrite Eidx.
      apply not_true_iff_false, Nat.eqb_neq. congruence.
Qed.
End KMeansGeneric.

Section KMeansExact.
Import KMeansClassifier.
Variable norm : list Q → Q.

Lemma fltb_Q (x y : Q) : fltb x y = true ↔ (x < y)%Q.
Proof.
  cbn [fltb exactQ]. rewrite Qlt_alt.
  destruct (x ?= y)%Q; split; congruence.
Qed.

Lemma feqb_Q_refl (x : Q) : feqb x x = true.
Proof. cbn [feqb exactQ]. apply Qeq_bool_iff. reflexivity. Qed.

(** The count of an entry is the number of the rows added. *)
Lemma count_fold (samples : list (list Q)) : ∀ c : Q,
  (fold_left (fun c _ => fadd c (of_Z 1)) samples c
   == c + inject_Z (Z.of_nat (length samples)))%Q.
Proof.
  induction samples as [|x samples IH]; intros c.
  - cbn [fold_left length]. change (inject_Z (Z.of_nat 0)) with 0%Q. ring.
  - cbn [fold_left length]. rewrite IH. cbn [fadd of_Z exactQ].
    rewrite Nat2Z.inj_succ, <- Z.add_1_l, inject_Z_plus. ring.
Qed.

Lemma nth_zip_with_Qplus (u w : list Q) j :
  length u = length w →
  nth j (zip_with Qplus u w) 0%Q = (nth j u 0 + nth j w 0)%Q.
Proof.
  revert w j. induction u as [|a u IH]; intros [|b w] [|j] E; try done.
  simpl. apply IH. by injection E.
Qed.

Lemma column_sum_cons j x (samples : list (list Q)) :
  column_sum j (x :: samples) = (nth j x 0 + column_sum j samples)%Q.
Proof. reflexivity. Qed.

(** The sum of an entry is, column by column, the sum of the rows
    added. *)
Lemma sum_fold dim (samples : list (list Q)) : ∀ v0 : list Q,
  Forall (fun x => length x = dim) samples → length v0 = dim →
  ∃ v, fold_left add_position samples (Some v0) = Some v ∧
       length v = dim ∧
       ∀ j, (nth j v 0 == nth j v0 0 + column_sum j samples)%Q.
Proof.
  induction samples as [|x samples IH]; intros v0 Hrows Hv0.
  - exists v0. split; [done|]. split; [done|]. intros j.
    cbn [column_sum foldr]. ring.
  - apply Forall_cons in Hrows as [Hx Hrows].
    destruct (IH (zip_with fadd v0 x)) as (v & Ev & Hlen & Hv);
      [done | rewrite length_zip_with; lia |].
    exists v. split; [done|]. split; [done|]. intros j.
    rewrite Hv, column_sum_cons. cbn [fadd exactQ].
    rewrite nth_zip_with_Qplus by congruence. ring.
Qed.

Lemma nth_map_Q (f : Q → Q) (l : list Q) j :
  (j < length l)%nat → nth j (map f l) 0%Q = f (nth j l 0%Q).
Proof.
  revert j. induction l as [|a l IH]; intros [|j] Hj; simpl in *;
    try lia; [done|]. apply IH. lia.
Qed.

Lemma sum_fold_first dim x (samples : list (list Q)) :
  Forall (fun x => length x = dim) (x :: samples) →
  ∃ v, fold_left add_position (x :: samples) None = Some v ∧
       length v = dim ∧
       ∀ j, (nth j v 0 == column_sum j (x :: samples))%Q.
Proof.
  intros Hrows. pose proof Hrows as [Hx Hrows']%Forall_cons.
  cbn [fold_left add_position].
  destruct (sum_fold dim samples (map (fun a => fadd (of_Z 0) a) x))
    as (v & Ev & Hlen & Hv); [done | by rewrite length_map |].
  exists v. split; [done|]. split; [done|]. intros j.
  rewrite Hv, column_sum_cons. cbn [fadd of_Z exactQ].
  destruct (decide (j < length x)%nat) as [Hj|Hj].
  - rewrite nth_map_Q by done. change (inject_Z 0) with 0%Q. ring.
  - rewrite !nth_overflow by (rewrite ?length_map; lia). ring.
Qed.

(** In exact arithmetic [argmin] is the index of the first minimum. *)
Lemma argmin_from_first_minimum (l : list Q) : ∀ (p : list Q) b best,
  p !! b = Some best →
  (∀ j dj, p !! j = Some dj → (best <= dj)%Q) →
  (∀ j dj, (j < b)%nat → p !! j = Some dj → (best < dj)%Q) →
  first_minimum (p ++ l) (argmin_from b best (length p) l).
Proof.
  induction l as [|d l IH]; intros p b best Hb Hle Hlt.
  - rewrite app_nil_r. by exists best.
  - cbn [argmin_from]. rewrite feqb_Q_refl, (feqb_Q_refl d).
    cbn [andb negb]. rewrite orb_false_r.
    pose proof (lookup_lt_Some _ _ _ Hb) as Hbp.
    replace (p ++ d :: l) with ((p ++ [d]) ++ l)
      by (by rewrite <- app_assoc).
    replace (S (length p)) with (length (p ++ [d]))
      by (rewrite length_app; simpl; lia).
    destruct (fltb d best) eqn:E.
    + apply fltb_Q in E. apply IH.
      * apply list_lookup_middle. done.
      * intros j dj Hj. apply lookup_app_Some in Hj as [Hj|[_ Hj]].
        -- apply Hle in Hj. lra.
        -- apply list_lookup_singleton_Some in Hj as [_ <-]. lra.
      * intros j dj Hjlt Hj. rewrite lookup_app_l in Hj by done.
        apply Hle in Hj. lra.
    + assert (Hge : (best <= d)%Q).
      { apply Qnot_lt_le. intros Hlt'. apply fltb_Q in Hlt'. congruence. }
      apply IH.
      * by rewrite lookup_app_l.
      * intros j dj Hj. apply lookup_app_Some in Hj as [Hj|[_ Hj]].
        -- by apply Hle in Hj.
        -- by apply list_lookup_singleton_Some in Hj as [_ <-].
      * intros j dj Hjlt Hj. rewrite lookup_app_l in Hj by lia.
        by apply (Hlt j).
Qed.

Lemma nearest_idx_first_minimum x cs k :
  nearest_idx norm x cs = Ok k →
  first_minimum (map (fun c => norm (vsub x c)) cs) k.
Proof.
  unfold nearest_idx, argmin. destruct cs as [|c cs]; [done|].
  cbn [map]. intros [= <-].
  apply (argmin_from_first_minimum _ [norm (vsub x c)] 0 (norm (vsub x c))).
  - done.
  - intros [|j] dj Hj; [|done]. injection Hj as <-. lra.
  - intros j dj Hj. lia.
Qed.
End KMeansExact.

(** The new position of a centroid no row is assigned to, and of one that
    has rows. *)
Lemma new_position_empty (cs : list (list Q)) k c :
  cs !! k = Some c →
  KMeansClassifier.new_position cs k (None, of_Z 0) = Ok c.
Proof.
  intros Hk. unfold KMeansClassifier.new_position. cbn [snd].
  destruct (fltb (of_Z 0) (of_Z 0 : Q)) eqn:E.
  - apply fltb_Q in E. cbn [of_Z exactQ] in E. lra.
  - unfold index. by rewrite Hk.
Qed.

Lemma new_position_mean (cs : list (list Q)) k dim x samples :
  Forall (fun x => length x = dim) (x :: samples) →
  ∃ c', KMeansClassifier.new_position cs k
          (fold_left KMeansClassifier.add_position (x :: samples) None,
           fold_left (fun c _ => fadd c (of_Z 1)) (x :: samples) (of_Z 0))
        = Ok c' ∧
        Forall2 Qeq c' (KMeansClassifier.mean dim (x :: samples)).
Proof.
  intros Hrows.
  destruct (sum_fold_first dim x samples Hrows) as (v & Ev & Hlen & Hv).
  pose proof (count_fold (x :: samples) (of_Z 0)) as Hc.
  set (cnt := fold_left (fun c _ => fadd c (of_Z 1)) (x :: samples) (of_Z 0))
    in *.
  assert (Hpos : (0 < cnt)%Q).
  { rewrite Hc. cbn [of_Z exactQ length]. rewrite Nat2Z.inj_succ.
    rewrite <- Z.add_1_l, inject_Z_plus.
    pose proof (Nat2Z.is_nonneg (length samples)) as Hn.
    assert (0 <= inject_Z (Z.of_nat (length samples)))%Q
      by (change 0%Q with (inject_Z 0); by rewrite <- Zle_Qle).
    change (inject_Z 0) with 0%Q. change (inject_Z 1) with 1%Q. lra. }
  exists (map (fun a => fdiv a cnt) v). split.
  - unfold KMeansClassifier.new_position. cbn [fst snd]. rewrite Ev.
    assert (E : fltb (of_Z 0) cnt = true) by (by apply fltb_Q).
    by rewrite E.
  - apply Forall2_same_length_lookup_2.
    { unfold KMeansClassifier.mean. by rewrite !length_map, length_seq. }
    intros j a b Ha Hb. unfold KMeansClassifier.mean in Hb.
    apply list_lookup_fmap_Some in Ha as (vj & -> & Hvj).
    apply list_lookup_fmap_Some in Hb as (j' & -> & Hj').
    apply lookup_seq in Hj' as [-> _]. cbn [Nat.add fdiv exactQ].
    pose proof (nth_lookup_Some v j 0%Q vj Hvj) as Hn.
    rewrite <- Hn, Hv.
    assert (Hcnt : (cnt == inject_Z (Z.of_nat (length (x :: samples))))%Q).
    { rewrite Hc. cbn [of_Z exactQ]. change (inject_Z 0) with 0%Q. ring. }
    by rewrite Hcnt.
Qed.

(** C7: in one step of Lloyd's algorithm every row is assigned to the
    centroid at the smallest distance, the first of them when there are
    several; a centroid no row is assigned to stays as it is, and every
    other centroid becomes the mean of the rows assigned to it.  The
    arithmetic is exact, and the norm is any function. *)
Theorem lloyd_step_centroids (norm : list Q → Q) (dim : nat)
    (rows centroids : list (list Q)) :
  centroids ≠ [] →
  Forall (fun x => length x = dim) rows →
  ∃ new_centroids,
    KMeansClassifier.lloyd_step norm rows centroids = Ok new_centroids ∧
    length new_centroids = length centroids ∧
    (∀ x, x ∈ rows →
       ∃ k, KMeansClassifier.nearest_idx norm x centroids = Ok k ∧
            KMeansClassifier.first_minimum
              (map (fun c => norm (KMeansClassifier.vsub x c)) centroids) k) ∧
    (∀ k c, centroids !! k = Some c →
       ∃ c', new_centroids !! k = Some c' ∧
         (KMeansClassifier.assigned_to norm centroids k rows = [] → c' = c) ∧
         (KMeansClassifier.assigned_to norm centroids k rows ≠ [] →
          Forall2 Qeq c'
            (KMeansClassifier.mean dim (KMeansClassifier.assigned_to norm centroids k rows)))).
Proof.
  intros Hne Hrows. unfold KMeansClassifier.lloyd_step.
  destruct (cluster_spec norm centroids rows
              (replicate (length centroids) (None, of_Z 0)))
    as (sums & Esums & Hlen & Hsums); [by rewrite length_replicate | done |].
  rewrite length_replicate in Hlen.
  rewrite Esums. cbn [mbind result_bind bind].
  assert (Hentry : ∀ k c, centroids !! k = Some c →
            ∃ c', sums !! k ≫= (fun e =>
                    match KMeansClassifier.new_position centroids k e with
                    | Ok c' => Some c' | Raise _ => None end) = Some c' ∧
         (KMeansClassifier.assigned_to norm centroids k rows = [] → c' = c) ∧
         (KMeansClassifier.assigned_to norm centroids k rows ≠ [] →
          Forall2 Qeq c'
            (KMeansClassifier.mean dim (KMeansClassifier.assigned_to norm centroids k rows)))).
  { intros k c Hk. pose proof (lookup_lt_Some _ _ _ Hk) as Hklt.
    rewrite (Hsums k (None, of_Z 0)) by (by apply lookup_replicate_2).
    cbn [fst snd mbind option_bind].
    assert (Hsub : Forall (fun x => length x = dim)
                     (KMeansClassifier.assigned_to norm centroids k rows)).
    { unfold KMeansClassifier.assigned_to. rewrite Forall_forall in Hrows.
      apply Forall_forall. intros x [_ Hx]%list_elem_of_filter. auto. }
    destruct (KMeansClassifier.assigned_to norm centroids k rows)
      as [|x samples] eqn:Ea.
    - cbn [fold_left]. exists c.
      pose proof (new_position_empty _ _ c Hk) as Ec.
      unfold KMeansClassifier.sum_position. rewrite Ec.
      by repeat split.
    - destruct (new_position_mean centroids k dim x samples Hsub)
        as (c' & Ec' & Hmean).
      exists c'. rewrite Ec'. by repeat split. }
  destruct (mapM_lookup_ok
              (fun '(idx, c) => KMeansClassifier.new_position centroids idx c)
              (zip (seq 0 (length sums)) sums))
    as (new & Enew & Hnewlen & Hnew).
  { intros i [idx e] Hi. apply lookup_zip_Some in Hi as [Hidx He].
    apply lookup_seq in Hidx as [-> Hilt]. cbn [Nat.add].
    destruct (lookup_lt_is_Some_2 centroids i) as [c Hc]; [lia|].
    destruct (Hentry i c Hc) as (c' & Hc' & _). rewrite He in Hc'.
    cbn [mbind option_bind] in Hc'.
    by destruct (KMeansClassifier.new_position centroids i e). }
  exists new. split; [done|]. split; [|split].
  - rewrite Hnewlen, length_zip, length_seq. lia.
  - intros x Hx. destruct (nearest_idx_ok norm x centroids Hne) as [k Ek].
    exists k. split; [done|]. by apply nearest_idx_first_minimum.
  - intros k c Hk. pose proof (lookup_lt_Some _ _ _ Hk) as Hklt.
    destruct (Hentry k c Hk) as (c' & Hc' & Hprop).
    exists c'. split; [|done].
    destruct (lookup_lt_is_Some_2 sums k) as [e He]; [lia|].
    rewrite He in Hc'. cbn [mbind option_bind] in Hc'.
    destruct (Hnew k (k, e)) as (b & Eb & Hb).
    { apply lookup_zip_Some. split; [|done].
      apply lookup_seq. split; [done|lia]. }
    rewrite Hb. cbn beta iota in Eb. rewrite Eb in Hc'. congruence.
Qed.

(** The hypotheses of C7 at one input: the rows 0, 1 and 10 and the
    centroids 0 and 1. *)
Lemma lloyd_step_centroids_witness :
  Examples.kmeans_centroids ≠ [] ∧
  Forall (fun x => length x = 1%nat) Examples.kmeans_rows ∧
  ∃ new_centroids,
    KMeansClassifier.lloyd_step Examples.sq_norm Examples.kmeans_rows
      Examples.kmeans_centroids = Ok new_centroids ∧
    length new_centroids = length Examples.kmeans_centroids.
Proof.
  assert (Hrows : Forall (fun x => length x = 1%nat) Examples.kmeans_rows)
    by (repeat constructor).
  split; [discriminate|]. split; [exact Hrows|].
  destruct (lloyd_step_centroids Examples.sq_norm 1 Examples.kmeans_rows
              Examples.kmeans_centroids) as (new & Enew & Hlen & _);
    [discriminate | exact Hrows |].
  exists new. by split.
Defined.

Section KMeansStop.
Import KMeansClassifier.
Context {F : Type} `{Num F} (norm : list F → F).

Lemma iterate_runs_out rows steps centroids :
  runs_out norm rows steps centroids →
  iterate norm steps rows centroids = Ok None.
Proof.
  induction 1 as [centroids|steps centroids new Hstep Hneq _ IH]; [done|].
  cbn [iterate]. rewrite Hstep. cbn [mbind result_bind bind].
  by rewrite Hneq.
Qed.

Lemma label_without_centroids (self : state) x :
  _centroids self = None → x ≠ [] → _label norm self x = Raise TypeError.
Proof.
  intros Hc Hx. unfold _label. destruct x as [|xi x]; [done|].
  cbn [mapM]. by rewrite Hc.
Qed.

(** C10, as the code has it: when [_stop_training] of a classifier that
    has no centroids yet runs through all [max_iter] steps without an
    array of centroids that equals the one before it, it returns without
    assigning [_centroids], which stays [None]; every later call of
    [_label] on a batch with at least one row raises. *)
Theorem stop_training_runs_out (self : state) centr_idx rows centroids :
  _centroids self = None →
  reshape (tlen self) (input_dim self) (entries (data self)) = Ok rows →
  sample_centroids self rows centr_idx = Ok centroids →
  runs_out norm rows (max_iter self) centroids →
  ∃ self', _stop_training norm centr_idx self = (Ok (), self') ∧
           _centroids self' = None ∧
           ∀ x, x ≠ [] → _label norm self' x = Raise TypeError.
Proof.
  intros Hc Hreshape Hsample Hrun.
  exists (set_data (Rows rows) self). split; [|split].
  - unfold _stop_training.
    unfold mbind, method_bind, get, put, lift, mret, method_ret.
    rewrite Hreshape. cbn [_centroids set_data max_iter].
    rewrite Hc.
    replace (sample_centroids (set_data (Rows rows) self) rows centr_idx)
      with (Ok (A:=list (list F)) centroids)
      by (rewrite <- Hsample; reflexivity).
    by rewrite (iterate_runs_out _ _ _ Hrun).
  - exact Hc.
  - intros x Hx. by apply label_without_centroids.
Qed.
End KMeansStop.

(** The claim C10 as it is written fails on a batch without rows: the
    classifier of [kmeans_trained] runs out of steps, keeps [None] for its
    centroids, and [_label] then returns the empty list for the empty
    batch. *)
Lemma label_after_runs_out_empty_batch :
  let stopped :=
    KMeansClassifier._stop_training Examples.euclid [0%nat; 1%nat]
      Examples.kmeans_trained in
  KMeansClassifier.runs_out Examples.euclid
    [[of_Z 0]; [of_Z 1]; [of_Z 10]]
    (KMeansClassifier.max_iter Examples.kmeans_trained)
    [[of_Z 0]; [of_Z 1]] ∧
  stopped.1 = Ok () ∧
  KMeansClassifier._centroids stopped.2 = None ∧
  KMeansClassifier._label Examples.euclid stopped.2 [] = Ok [].
Proof.
  split; [|split; [|split]].
  - eapply KMeansClassifier.runs_out_S.
    + vm_compute. reflexivity.
    + vm_compute. reflexivity.
    + constructor.
  - vm_compute. reflexivity.
  - vm_compute. reflexivity.
  - reflexivity.
Qed.

(** The hypotheses of C10 at one input: the classifier of
    [kmeans_trained], whose only step moves the second centroid. *)
Lemma stop_training_runs_out_witness :
  ∃ self',
    KMeansClassifier._stop_training Examples.euclid [0%nat; 1%nat]
      Examples.kmeans_trained = (Ok (), self') ∧
    KMeansClassifier._centroids self' = None ∧
    KMeansClassifier._label Examples.euclid self' [[of_Z 0]]
    = Raise TypeError.
Proof.
  destruct (stop_training_runs_out Examples.euclid Examples.kmeans_trained
              [0%nat; 1%nat] [[of_Z 0]; [of_Z 1]; [of_Z 10]]
              [[of_Z 0]; [of_Z 1]])
    as (self' & E & Hc & Hlabel).
  - reflexivity.
  - vm_compute. reflexivity.
  - vm_compute. reflexivity.
  - eapply KMeansClassifier.runs_out_S.
    + vm_compute. reflexivity.
    + vm_compute. reflexivity.
    + constructor.
  - exists self'. split; [exact E|]. split; [exact Hc|].
    by apply Hlabel.
Defined.

(** ** Inversion of methods that return *)

Lemma method_bind_inv {S A B} (m : method S A) (k : A → method S B)
    (s s' : S) (b : B) :
  (m ≫= k) s = (Ok b, s') → ∃ a s1, m s = (Ok a, s1) ∧ k a s1 = (Ok b, s').
Proof.
  unfold mbind, method_bind. destruct (m s) as [[a|e] s1]; [eauto|done].
Qed.

Lemma lift_inv {S A} (r : result A) (s s' : S) (a : A) :
  lift r s = (Ok a, s') → r = Ok a ∧ s' = s.
Proof. unfold lift. by intros [= -> ->]. Qed.

Lemma for_each_inv_cons {S A} (a : A) (l : list A) (body : A → method S unit)
    (s s' : S) :
  for_each (a :: l) body s = (Ok (), s') →
  ∃ s1, body a s = (Ok (), s1) ∧ for_each l body s1 = (Ok (), s').
Proof.
  cbn [for_each]. intros (u & s1 & E1 & E2)%method_bind_inv.
  destruct u. eauto.
Qed.

Lemma mapM_ok_map {A B} (f : A → result B) (g : A → B) (l : list A) :
  (∀ a, a ∈ l → f a = Ok (g a)) → mapM f l = Ok (map g l).
Proof.
  induction l as [|a l IH]; intros Hf; [done|].
  cbn [mapM map]. rewrite (Hf a) by left. cbn [mbind result_bind bind].
  rewrite IH; [done|]. intros a' Ha'. apply Hf. by right.
Qed.

(** ** GaussianClassifierNode *)

Section GaussianFacts.
Import GaussianClassifierNode.
Context {F : Type} `{Num F} `{NumLib F} `{CovarianceMatrix F}.
Context {L : Type} `{Countable L}.
Variable label_le : L → L → Prop.
Context `{∀ a b, Decision (label_le a b)}.
Implicit Types self : state (F:=F) (L:=L).

Lemma attr_inv {A} (field : state → option A) self self' (a : A) :
  attr field self = (Ok a, self') → field self = Some a ∧ self' = self.
Proof. unfold attr. destruct (field self); by intros [= -> ->]. Qed.

Lemma fix_label_finalized nitems lbl self nitems' self' n :
  fix_label nitems lbl self = (Ok nitems', self') →
  finalized n self →
  finalized (S n) self' ∧ labels self' = labels self.
Proof.
  unfold fix_label. intros E (ics & mns & ps & sq & Ei & Em & Ep & Es & Hl).
  apply method_bind_inv in E as (objs & s1 & [_ ->]%attr_inv & E).
  apply method_bind_inv in E as (obj & s1 & [_ ->]%lift_inv & E).
  apply method_bind_inv in E as ([[cov mean] p_lbl] & s1 & [_ ->]%lift_inv & E).
  unfold append in E.
  apply method_bind_inv in E as ([] & s1 & E1 & E).
  unfold mbind, method_bind, attr, get, put in E1. rewrite Es in E1.
  injection E1 as <-.
  apply method_bind_inv in E as ([] & s2 & E2 & E).
  unfold mbind, method_bind, attr, get, put in E2.
  cbn [means set_sqrt_def_covs] in E2. rewrite Em in E2.
  injection E2 as <-.
  apply method_bind_inv in E as ([] & s3 & E3 & E).
  unfold mbind, method_bind, attr, get, put in E3.
  cbn [p set_means set_sqrt_def_covs] in E3. rewrite Ep in E3.
  injection E3 as <-.
  apply method_bind_inv in E as (icov & s4 & [_ ->]%lift_inv & E).
  apply method_bind_inv in E as ([] & s5 & E5 & E).
  unfold mbind, method_bind, attr, get, put in E5.
  cbn [inv_covs set_p set_means set_sqrt_def_covs] in E5. rewrite Ei in E5.
  injection E5 as <-.
  injection E as _ <-. split; [|done].
  exists (ics ++ [icov]), (mns ++ [mean]), (ps ++ [p_lbl]),
    (sq ++ [fsqrt (det cov)]).
  repeat split; try done; rewrite length_app; simpl; lia.
Qed.

Lemma fix_labels_finalized lbls : ∀ nitems self nitems' self' n,
  fix_labels nitems lbls self = (Ok nitems', self') →
  finalized n self →
  finalized (n + length lbls) self' ∧ labels self' = labels self.
Proof.
  induction lbls as [|lbl lbls IH]; intros nitems self nitems' self' n E Hf.
  - injection E as _ <-. by rewrite Nat.add_0_r.
  - cbn [fix_labels] in E.
    apply method_bind_inv in E as (nit1 & s1 & E1 & E).
    destruct (fix_label_finalized _ _ _ _ _ _ E1 Hf) as [Hf1 Hl1].
    destruct (IH _ _ _ _ _ E Hf1) as [Hf2 Hl2].
    split; [|congruence].
    cbn [length]. by replace (n + S (length lbls))%nat
      with (S n + length lbls)%nat by lia.
Qed.

Lemma normalize_p_finalized nitems i self self' n :
  normalize_p nitems i self = (Ok (), self') →
  finalized n self →
  finalized n self' ∧ labels self' = labels self.
Proof.
  unfold normalize_p.
  intros E (ics & mns & ps & sq & Ei & Em & Ep & Es & Hl).
  apply method_bind_inv in E as (ps' & s1 & [Eps ->]%attr_inv & E).
  apply method_bind_inv in E as (p_i & s1 & [_ ->]%lift_inv & E).
  apply method_bind_inv in E as (q & s1 & [_ ->]%lift_inv & E).
  unfold mbind, method_bind, get, put in E. injection E as <-.
  split; [|done]. assert (ps' = ps) as -> by congruence.
  exists ics, mns, (<[i := q]> ps), sq.
  repeat split; try done; try tauto. rewrite length_insert. tauto.
Qed.

Lemma normalize_all_finalized nitems (idxs : list nat) : ∀ self self' n,
  for_each idxs (normalize_p nitems) self = (Ok (), self') →
  finalized n self →
  finalized n self' ∧ labels self' = labels self.
Proof.
  induction idxs as [|i idxs IH]; intros self self' n E Hf.
  - by injection E as <-.
  - apply for_each_inv_cons in E as (s1 & E1 & E).
    destruct (normalize_p_finalized _ _ _ _ _ E1 Hf) as [Hf1 Hl1].
    destruct (IH _ _ _ E Hf1) as [Hf2 Hl2]. split; [done|congruence].
Qed.

(** After [_stop_training] has returned the labels are there with one
    entry of every attribute of inference for each, and the
    accumulators are gone. *)
Lemma stop_training_finalized self self' :
  _stop_training label_le self = (Ok (), self') →
  cov_objs self' = None ∧
  ∃ lbls, labels self' = Some lbls ∧ finalized (length lbls) self'.
Proof.
  unfold _stop_training. intros E.
  apply method_bind_inv in E as (objs & s1 & [_ ->]%attr_inv & E).
  unfold mbind at 1, method_bind at 1, get at 1 in E.
  apply method_bind_inv in E as ([] & s1 & E1 & E).
  injection E1 as <-.
  unfold mbind at 1, method_bind at 1, get at 1 in E.
  apply method_bind_inv in E as ([] & s1 & E1 & E). injection E1 as <-.
  unfold mbind at 1, method_bind at 1, get at 1 in E.
  apply method_bind_inv in E as ([] & s1 & E1 & E). injection E1 as <-.
  unfold mbind at 1, method_bind at 1, get at 1 in E.
  apply method_bind_inv in E as ([] & s1 & E1 & E). injection E1 as <-.
  unfold mbind at 1, method_bind at 1, get at 1 in E.
  apply method_bind_inv in E as ([] & s1 & E1 & E). injection E1 as <-.
  apply method_bind_inv in E as (lbls & s1 & [El ->]%attr_inv & E).
  cbn [labels set_sqrt_def_covs set_p set_means set_inv_covs set_labels]
    in El. injection El as El.
  apply method_bind_inv in E as (nitems & s1 & E1 & E).
  apply fix_labels_finalized with (n := 0%nat) in E1 as [Hf1 Hl1].
  2:{ exists [], [], [], []. by repeat split. }
  apply method_bind_inv in E as (ps & s2 & [_ ->]%attr_inv & E).
  apply method_bind_inv in E as ([] & s2 & E2 & E).
  apply normalize_all_finalized with (n := length lbls) in E2
    as [Hf2 Hl2]; [|exact Hf1].
  unfold mbind, method_bind, get, put in E. injection E as <-.
  split; [done|]. exists lbls. split.
  - cbn [labels set_cov_objs]. rewrite Hl2, Hl1. cbn. by rewrite El.
  - destruct Hf2 as (ics & mns & ps' & sq & ? & ? & ? & ? & ?).
    by exists ics, mns, ps', sq.
Qed.

(** A second [_stop_training] finds no accumulators. *)
Lemma second_stop_training_raises self self' :
  _stop_training label_le self = (Ok (), self') →
  _stop_training label_le self' = (Raise AttributeError, self').
Proof.
  intros [Hnone _]%stop_training_finalized.
  unfold _stop_training, mbind, method_bind, attr. by rewrite Hnone.
Qed.

Lemma index_nth {A} (l : list A) i d :
  (i < length l)%nat → index l i = Ok (nth i l d).
Proof.
  intros Hi. unfold index.
  destruct (lookup_lt_is_Some_2 l i Hi) as [a Ha].
  by rewrite Ha, (nth_lookup_Some _ _ d _ Ha).
Qed.

(** The array filled column by column, read row by row. *)
Lemma rows_of_columns (g : nat → list F → F) (x : list (list F)) idxs :
  rows_of (length x) (map (fun i => map (g i) x) idxs)
  = map (fun xr => map (fun i => g i xr) idxs) x.
Proof.
  unfold rows_of. apply list_eq. intros r.
  rewrite !list_lookup_fmap.
  destruct (x !! r) as [xr|] eqn:Ex.
  - rewrite lookup_seq_lt by (by eapply lookup_lt_Some).
    cbn [fmap option_fmap option_map Nat.add]. f_equal.
    rewrite map_map. apply map_ext. intros i.
    apply nth_lookup_Some. by rewrite list_lookup_fmap, Ex.
  - rewrite lookup_seq_ge by (by apply lookup_ge_None). done.
Qed.

(** On a finalized classifier [class_probabilities] returns, for every
    row of the batch, the densities times the priors divided by their
    sum. *)
Lemma class_probabilities_rows self lbls (x : list (list F)) :
  labels self = Some lbls → finalized (length lbls) self →
  ∃ g : nat → list F → F,
    (∀ xr, unnormalized self xr
           = Ok (map (fun i => g i xr) (seq 0 (length lbls)))) ∧
    class_probabilities self x
    = Ok (map (fun xr =>
                 let u := map (fun i => g i xr) (seq 0 (length lbls)) in
                 map (fun v => fdiv v (fsum u)) u) x).
Proof.
  intros El (ics & mns & ps & sq & Ei & Em & Ep & Es & Hi & Hm & Hp & Hs).
  exists (fun i xr =>
            fmul (density (input_dim self) (nth i sq fzero) (nth i ics [])
                          (nth i mns []) xr) (nth i ps fzero)).
  assert (Hd : ∀ xr i, (i < length lbls)%nat →
            density_times_prior self xr i
            = Ok (fmul (density (input_dim self) (nth i sq fzero)
                          (nth i ics []) (nth i mns []) xr)
                       (nth i ps fzero))).
  { intros xr i Hlt. unfold density_times_prior.
    rewrite Es, Ei, Em, Ep.
    rewrite (index_nth sq i fzero), (index_nth ics i []),
      (index_nth mns i []), (index_nth ps i fzero) by lia.
    reflexivity. }
  split.
  - intros xr. unfold unnormalized. rewrite El.
    apply mapM_ok_map. intros i [_ Hlt]%elem_of_seq. apply Hd. lia.
  - unfold class_probabilities. rewrite El.
    rewrite (mapM_ok_map _
               (fun i => map (fun xr =>
                  fmul (density (input_dim self) (nth i sq fzero)
                          (nth i ics []) (nth i mns []) xr)
                       (nth i ps fzero)) x)).
    + cbn [mbind result_bind bind]. f_equal.
      rewrite (rows_of_columns
                 (fun i xr =>
                    fmul (density (input_dim self) (nth i sq fzero)
                            (nth i ics []) (nth i mns []) xr)
                         (nth i ps fzero))).
      by rewrite map_map.
    + intros i [_ Hlt]%elem_of_seq. unfold prob_column, _gaussian_prob.
      rewrite Es, Ei, Em, Ep.
      rewrite (index_nth sq i fzero), (index_nth ics i []),
        (index_nth mns i []), (index_nth ps i fzero) by lia.
      cbn [mbind result_bind bind]. by rewrite map_map.
Qed.
End GaussianFacts.

(** In exact arithmetic the quotients of the entries of a row by their sum
    add up to 1. *)
Lemma fold_Qplus_proper (l : list Q) (a a' : Q) :
  (a == a')%Q → (fold_left Qplus l a == fold_left Qplus l a')%Q.
Proof.
  revert a a'. induction l as [|v l IH]; intros a a' E; [done|].
  cbn [fold_left]. apply IH. by rewrite E.
Qed.

Lemma fold_Qplus_div (t : Q) (u : list Q) : ∀ a : Q,
  ¬ (t == 0)%Q →
  (fold_left Qplus (map (fun v => v / t) u) (a / t)
   == fold_left Qplus u a / t)%Q.
Proof.
  induction u as [|v u IH]; intros a Ht; [reflexivity|].
  cbn [map fold_left]. rewrite <- IH by done.
  apply fold_Qplus_proper. by field.
Qed.

Lemma fsum_normalized (u : list Q) :
  ¬ (fsum u == 0)%Q → (fsum (map (fun v => fdiv v (fsum u)) u) == 1)%Q.
Proof.
  intros Ht. unfold fsum at 1. cbn [fadd fdiv exactQ].
  rewrite (fold_Qplus_proper _ fzero (fzero / fsum u)).
  - rewrite fold_Qplus_div by done.
    change (fold_left Qplus u fzero) with (fsum u). by field.
  - unfold fzero. cbn [of_Z exactQ]. change (inject_Z 0) with 0%Q. by field.
Qed.

(** C8: on a finalized Gaussian classifier [class_probabilities] returns
    for every row of the batch the densities of the row under the
    Gaussians of the labels, each times the prior of its label, divided by
    their sum; the entries of the row returned add up to 1 whenever that
    sum is not zero.  The arithmetic is exact, and the functions of the
    numerical library and the covariance accumulators are any. *)
Theorem class_probabilities_normalized
    (NL : NumLib Q) (C : CovarianceMatrix Q)
    (L : Type) (EL : EqDecision L) (CL : Countable L)
    (label_le : L → L → Prop) (D : ∀ a b, Decision (label_le a b))
    (self self' : GaussianClassifierNode.state (F:=Q) (L:=L))
    (x : list (list Q)) :
  GaussianClassifierNode._stop_training label_le self = (Ok (), self') →
  ∃ probs,
    GaussianClassifierNode.class_probabilities self' x = Ok probs ∧
    length probs = length x ∧
    ∀ r xr, x !! r = Some xr →
      ∃ u, GaussianClassifierNode.unnormalized self' xr = Ok u ∧
           probs !! r = Some (map (fun v => fdiv v (fsum u)) u) ∧
           (¬ (fsum u == 0)%Q →
            (fsum (map (fun v => fdiv v (fsum u)) u) == 1)%Q).
Proof.
  intros [_ (lbls & El & Hf)]%stop_training_finalized.
  destruct (class_probabilities_rows self' lbls x El Hf) as (g & Hu & Hc).
  eexists. split; [exact Hc|]. split; [by rewrite length_map|].
  intros r xr Hr. exists (map (fun i => g i xr) (seq 0 (length lbls))).
  split; [apply Hu|]. split.
  - by rewrite list_lookup_fmap, Hr.
  - apply fsum_normalized.
Qed.

(** The hypothesis of C8 at one input: the classifier of
    [gaussian_trained], finalized, and the query points 2 and 11. *)
Lemma class_probabilities_normalized_witness :
  let stopped :=
    GaussianClassifierNode._stop_training (H0:=Examples.rational_numlib)
      Z.le Examples.gaussian_trained in
  stopped = (Ok (), stopped.2) ∧
  ∃ probs,
    GaussianClassifierNode.class_probabilities
      (H0:=Examples.rational_numlib) stopped.2 [[2%Q]; [11%Q]] = Ok probs ∧
    length probs = 2%nat.
Proof.
  assert (Hstop :
    GaussianClassifierNode._stop_training (H0:=Examples.rational_numlib)
      Z.le Examples.gaussian_trained
    = (Ok (),
       (GaussianClassifierNode._stop_training (H0:=Examples.rational_numlib)
          Z.le Examples.gaussian_trained).2))
    by (vm_compute; reflexivity).
  split; [exact Hstop|].
  destruct (class_probabilities_normalized Examples.rational_numlib
              Examples.running_cov Z _ _ Z.le _ _ _ [[2%Q]; [11%Q]] Hstop)
    as (probs & E & Hlen & _).
  exists probs. by split.
Defined.

(** ** DiscreteHopfieldClassifier: the diagonal *)

Section HopfieldStop.
Import DiscreteHopfieldClassifier.
Context {F : Type} `{Num F}.
Implicit Types (self : state (F:=F)) (m : list (list F)).

Lemma zero_diagonal_entry_inv i self self' m :
  _weight_matrix self = Matrix m →
  zero_diagonal_entry i self = (Ok (), self') →
  ∃ m', self' = set_weight_matrix (Matrix m') self ∧
        zero_at m' i ∧ ∀ j, zero_at m j → zero_at m' j.
Proof.
  intros Em. unfold zero_diagonal_entry.
  unfold mbind at 1, method_bind at 1, get at 1. rewrite Em.
  intros (row & s1 & [Erow ->]%lift_inv & E)%method_bind_inv.
  apply method_bind_inv in E as (v & s1 & [Ev ->]%lift_inv & E).
  injection E as <-.
  unfold index in Erow, Ev.
  destruct (m !! i) as [row'|] eqn:Emi; [|done]. injection Erow as ->.
  destruct (row !! i) as [v'|] eqn:Eri; [|done]. clear Ev.
  exists (<[i := <[i := of_Z 0]> row]> m). split; [done|]. split.
  - exists (<[i := of_Z 0]> row). split.
    + apply list_lookup_insert_eq. by eapply lookup_lt_Some.
    + apply list_lookup_insert_eq. by eapply lookup_lt_Some.
  - intros j (rowj & Ej & Ejj). destruct (decide (j = i)) as [->|Hne].
    + exists (<[i := of_Z 0]> row). split.
      * apply list_lookup_insert_eq. by eapply lookup_lt_Some.
      * apply list_lookup_insert_eq. by eapply lookup_lt_Some.
    + exists rowj. split; [|done]. by rewrite list_lookup_insert_ne.
Qed.

Lemma zero_diagonal_loop_inv (idxs : list nat) : ∀ self self' m,
  _weight_matrix self = Matrix m →
  for_each idxs zero_diagonal_entry self = (Ok (), self') →
  ∃ m', self' = set_weight_matrix (Matrix m') self ∧
        (∀ j, j ∈ idxs → zero_at m' j) ∧ ∀ j, zero_at m j → zero_at m' j.
Proof.
  induction idxs as [|i idxs IH]; intros self self' m Em E.
  - injection E as <-. exists m. split; [|split].
    + destruct self; simpl in *. by subst.
    + by intros j ?%elem_of_nil.
    + done.
  - apply for_each_inv_cons in E as (s1 & E1 & E).
    destruct (zero_diagonal_entry_inv _ _ _ _ Em E1) as (m1 & -> & Hi & H1).
    destruct (IH (set_weight_matrix (Matrix m1) self) self' m1 eq_refl E)
      as (m' & -> & Hin & H2).
    exists m'. split; [done|]. split; [|by auto].
    intros j [->|Hj]%elem_of_cons; auto.
Qed.

(** On a matrix whose diagonal is 0 the loop changes nothing. *)
Lemma zero_diagonal_loop_id (idxs : list nat) self m :
  _weight_matrix self = Matrix m →
  (∀ j, j ∈ idxs → zero_at m j) →
  for_each idxs zero_diagonal_entry self = (Ok (), self).
Proof.
  intros Em Hz. induction idxs as [|i idxs IH]; [done|].
  cbn [for_each]. unfold mbind at 1, method_bind at 1.
  destruct (Hz i) as (row & Ei & Eii); [left|].
  assert (E1 : zero_diagonal_entry i self = (Ok (), self)).
  { unfold zero_diagonal_entry, mbind, method_bind, get, lift, put, index.
    rewrite Em, Ei, Eii. rewrite (list_insert_id row), list_insert_id by done.
    f_equal. destruct self; simpl in *. by subst. }
  rewrite E1. apply IH. intros j Hj. apply Hz. by right.
Qed.

(** [_stop_training] of the Hopfield classifier, called again, returns
    and leaves the state as it is. *)
Lemma stop_training_again self self' :
  _stop_training self = (Ok (), self') →
  _stop_training self' = (Ok (), self').
Proof.
  unfold _stop_training, mbind, method_bind, get. intros E.
  destruct (_weight_matrix self) as [|m] eqn:Em.
  - destruct (input_dim self) as [|n] eqn:En.
    + injection E as <-. by rewrite En.
    + cbn [seq for_each] in E.
      unfold mbind, method_bind, zero_diagonal_entry at 1 in E.
      unfold mbind, method_bind, get, raise in E. by rewrite Em in E.
  - destruct (zero_diagonal_loop_inv _ _ _ _ Em E) as (m' & -> & Hz & _).
    cbn [input_dim set_weight_matrix].
    apply (zero_diagonal_loop_id _ _ m'); [done|exact Hz].
Qed.
End HopfieldStop.

(** The amended C9: [_stop_training] of the Hopfield classifier can be
    called again and leaves the state, and with it every later result, as
    the first call has left it; the one of the Gaussian classifier deletes
    the accumulators it reads, so a second call raises and leaves the
    state of the first call. *)
Theorem stop_training_twice :
  (∀ (F : Type) (N : Num F)
     (self self' : DiscreteHopfieldClassifier.state (F:=F)),
     DiscreteHopfieldClassifier._stop_training self = (Ok (), self') →
     DiscreteHopfieldClassifier._stop_training self' = (Ok (), self'))
  ∧ (∀ (F : Type) (N : Num F) (NL : NumLib F) (C : CovarianceMatrix F)
       (L : Type) (EL : EqDecision L) (CL : Countable L)
       (label_le : L → L → Prop) (D : ∀ a b, Decision (label_le a b))
       (self self' : GaussianClassifierNode.state (F:=F) (L:=L)),
       GaussianClassifierNode._stop_training label_le self = (Ok (), self') →
       GaussianClassifierNode._stop_training label_le self'
       = (Raise AttributeError, self')).
Proof.
  split.
  - intros F N self self'. apply stop_training_again.
  - intros F N NL C L EL CL label_le D self self'.
    apply second_stop_training_raises.
Qed.

(** The claim C9 as it is written fails for the Gaussian classifier: the
    second [_stop_training] of the classifier of [gaussian_trained]
    raises.  So does the second [_stop_training] of the K-means
    classifier of [kmeans_stable], at the truth value of its array of
    centroids. *)
Lemma gaussian_stop_training_twice_raises :
  let first :=
    GaussianClassifierNode._stop_training (H0:=Examples.rational_numlib)
      Z.le Examples.gaussian_trained in
  let kfirst :=
    KMeansClassifier._stop_training Examples.euclid [0%nat; 1%nat]
      Examples.kmeans_stable in
  first.1 = Ok () ∧
  (GaussianClassifierNode._stop_training (H0:=Examples.rational_numlib)
     Z.le first.2).1 = Raise AttributeError ∧
  kfirst.1 = Ok () ∧
  KMeansClassifier._centroids kfirst.2 = Some [[of_Z 0]; [of_Z 10]] ∧
  (KMeansClassifier._stop_training Examples.euclid [0%nat; 1%nat]
     kfirst.2).1 = Raise ValueError.
Proof. repeat split; vm_compute; reflexivity. Qed.

(** The hypotheses of the amended C9 at one input: the classifier of
    [gaussian_trained]. *)
Lemma stop_training_twice_witness :
  let first :=
    GaussianClassifierNode._stop_training (H0:=Examples.rational_numlib)
      Z.le Examples.gaussian_trained in
  first = (Ok (), first.2) ∧
  GaussianClassifierNode._stop_training (H0:=Examples.rational_numlib)
    Z.le first.2 = (Raise AttributeError, first.2).
Proof.
  assert (Hstop :
    GaussianClassifierNode._stop_training (H0:=Examples.rational_numlib)
      Z.le Examples.gaussian_trained
    = (Ok (),
       (GaussianClassifierNode._stop_training (H0:=Examples.rational_numlib)
          Z.le Examples.gaussian_trained).2))
    by (vm_compute; reflexivity).
  split; [exact Hstop|].
  exact (proj2 stop_training_twice Q exactQ Examples.rational_numlib
           Examples.running_cov Z _ _ Z.le _ _ _ Hstop).
Defined.

(** ** DiscreteHopfieldClassifier: the relaxation *)

Section HopfieldEnergy.
Import DiscreteHopfieldClassifier.

Lemma sumprod_comm (u w : list Q) : (sumprod u w == sumprod w u)%Q.
Proof.
  revert w. induction u as [|a u IH]; intros [|b w]; cbn [sumprod];
    try reflexivity.
  rewrite IH. ring.
Qed.

(** The sum of products after one entry of the right vector has been
    replaced. *)
Lemma sumprod_insert_r (u : list Q) : ∀ (p : list Q) r v,
  length u = length p → (r < length p)%nat →
  (sumprod u (<[r := v]> p)
   == sumprod u p + nth r u 0 * (v - nth r p 0))%Q.
Proof.
  induction u as [|a u IH]; intros [|b p] r v Hlen Hr;
    cbn [length] in *; try lia.
  destruct r as [|r]; cbn [insert list_insert sumprod nth].
  - ring.
  - rewrite IH by lia. ring.
Qed.

Lemma sumprod_insert_l (u p : list Q) r v :
  length u = length p → (r < length p)%nat →
  (sumprod (<[r := v]> p) u
   == sumprod p u + (v - nth r p 0) * nth r u 0)%Q.
Proof.
  intros Hlen Hr. rewrite sumprod_comm, sumprod_insert_r by done.
  rewrite (sumprod_comm u p). ring.
Qed.

(** The column [r] of a matrix. *)
Lemma column_is_row n (m : list (list Q)) r :
  square n m → symmetric n m → (r < n)%nat →
  map (fun row => nth r row 0%Q) m = nth r m [].
Proof.
  intros [Hlen Hrows] Hsym Hr. apply list_eq. intros i.
  rewrite list_lookup_fmap.
  destruct (m !! i) as [row|] eqn:Ei.
  - pose proof (lookup_lt_Some _ _ _ Ei) as Hi.
    cbn [fmap option_fmap option_map].
    assert (Hrow : nth i m [] = row) by (by apply nth_lookup_Some).
    assert (Hlr : length (nth r m []) = n).
    { rewrite Forall_forall in Hrows. apply Hrows.
      apply list_elem_of_In, nth_In. lia. }
    destruct (lookup_lt_is_Some_2 (nth r m []) i) as [v Ev]; [lia|].
    rewrite Ev. f_equal.
    pose proof (Hsym i r ltac:(lia) Hr) as Hs. unfold entry in Hs. rewrite Hrow in Hs.
    rewrite Hs. by apply nth_lookup_Some.
  - cbn [fmap option_fmap option_map]. symmetry. apply lookup_ge_None.
    apply lookup_ge_None in Ei.
    assert (length (nth r m []) = n).
    { rewrite Forall_forall in Hrows. apply Hrows.
      apply list_elem_of_In, nth_In. lia. }
    lia.
Qed.

(** The products of the rows with a pattern one entry of which has been
    replaced, summed against any vector. *)
Lemma sumprod_rows_insert (m : list (list Q)) : ∀ (q p : list Q) r v,
  Forall (fun row => length row = length p) m → (r < length p)%nat →
  (sumprod q (map (fun row => sumprod row (<[r := v]> p)) m)
   == sumprod q (map (fun row => sumprod row p) m)
      + (v - nth r p 0) * sumprod q (map (fun row => nth r row 0%Q) m))%Q.
Proof.
  induction m as [|row m IH]; intros q p r v Hrows Hr.
  - destruct q; cbn [map sumprod]; ring.
  - apply Forall_cons in Hrows as [Hrow Hrows].
    destruct q as [|a q]; cbn [map sumprod]; [ring|].
    rewrite IH by done. rewrite sumprod_insert_r by done. ring.
Qed.

Lemma nth_map_rows (f : list Q → Q) (m : list (list Q)) r :
  (r < length m)%nat → nth r (map f m) 0%Q = f (nth r m []).
Proof.
  revert r. induction m as [|row m IH]; intros [|r] Hr; simpl in *;
    try lia; [done|]. apply IH. lia.
Qed.

(** The energy after one unit has been set to [v]. *)
Lemma energy_insert n (m : list (list Q)) (threshold p : list Q) r v :
  square n m → symmetric n m → zero_diagonal n m →
  length p = n → length threshold = n → (r < n)%nat →
  (energy m threshold (<[r := v]> p)
   == energy m threshold p
      - (v - nth r p 0)
        * (sumprod (nth r m []) p - nth r threshold 0))%Q.
Proof.
  intros Hsq Hsym Hz Hp Ht Hr. pose proof Hsq as [Hlen Hrows].
  assert (Hrows' : Forall (fun row => length row = length p) m)
    by (by rewrite Hp).
  assert (Hlr : length (nth r m []) = length p).
  { rewrite Forall_forall in Hrows'. apply Hrows'.
    apply list_elem_of_In, nth_In. lia. }
  unfold energy.
  rewrite (sumprod_insert_r threshold p r v) by lia.
  rewrite (sumprod_insert_l
             (map (fun row => sumprod row (<[r := v]> p)) m) p r v)
    by (rewrite ?length_map; lia).
  rewrite nth_map_rows by lia.
  rewrite (sumprod_insert_r (nth r m []) p r v) by lia.
  rewrite sumprod_rows_insert by (try done; lia).
  rewrite (column_is_row n m r) by done.
  rewrite (sumprod_comm p (nth r m [])).
  pose proof (Hz r Hr) as Hd. unfold entry in Hd. rewrite Hd.
  field.
Qed.
End HopfieldEnergy.

Section HopfieldPass.
Import DiscreteHopfieldClassifier.

Lemma dot_from_sumprod (u : list Q) : ∀ (w : list Q) (acc : Q),
  (dot_from acc u w == acc + sumprod u w)%Q.
Proof.
  induction u as [|a u IH]; intros [|b w] acc; cbn [dot_from sumprod];
    try ring.
  rewrite IH. cbn [fadd fmul exactQ]. ring.
Qed.

Lemma dot_sumprod (u w : list Q) : (dot u w == sumprod u w)%Q.
Proof.
  unfold dot. rewrite dot_from_sumprod. unfold fzero.
  cbn [of_Z exactQ]. change (inject_Z 0) with 0%Q. ring.
Qed.

(** [numx.sign] in exact arithmetic. *)
Lemma sign_Q (x : Q) :
  ((x < 0)%Q ∧ sign x = (-1)%Q) ∨ ((0 < x)%Q ∧ sign x = 1%Q)
  ∨ ((x == 0)%Q ∧ sign x = 0%Q).
Proof.
  unfold sign, fzero. change (of_Z 0 : Q) with 0%Q.
  destruct (fltb x 0%Q) eqn:E1.
  { left. split; [by apply fltb_Q|done]. }
  destruct (fltb 0%Q x) eqn:E2.
  { right. left. split; [by apply fltb_Q|done]. }
  right. right.
  assert (Hx : (x == 0)%Q).
  { apply Qle_antisym; apply Qnot_lt_le; intros Hlt%fltb_Q; congruence. }
  split; [done|].
  assert (E3 : feqb x 0%Q = true) by (by apply Qeq_bool_iff).
  by rewrite E3.
Qed.

Lemma bipolar_insert (p : list Q) r v :
  bipolar p → v = 1%Q ∨ v = (-1)%Q → bipolar (<[r := v]> p).
Proof.
  unfold bipolar. intros Hp Hv. rewrite Forall_forall in *.
  intros a Ha. apply list_elem_of_lookup in Ha as [i Hi].
  destruct (decide (i = r)) as [->|Hne].
  - pose proof (lookup_lt_Some _ _ _ Hi) as Hlt.
    rewrite length_insert in Hlt.
    rewrite list_lookup_insert_eq in Hi by done. by injection Hi as <-.
  - rewrite list_lookup_insert_ne in Hi by done.
    apply Hp. by eapply list_elem_of_lookup_2.
Qed.

(** The visit of one unit: it leaves the pattern and the flag, or flips
    the unit, clears the flag and lowers the energy. *)
Lemma update_unit_energy n m threshold (p : list Q) (flag : bool) row :
  relaxable n m threshold → pattern_of n p → (row < n)%nat →
  ∃ p' flag',
    update_unit m threshold (p, flag) row = Ok (p', flag') ∧
    pattern_of n p' ∧
    ((p' = p ∧ flag' = flag) ∨
     (flag' = false ∧ (energy m threshold p' < energy m threshold p)%Q)).
Proof.
  intros (Hsq & Hsym & Hz & Ht) [Hb Hp] Hr. pose proof Hsq as [Hlen Hrows].
  assert (Hlr : length (nth row m []) = n).
  { rewrite Forall_forall in Hrows. apply Hrows.
    apply list_elem_of_In, nth_In. lia. }
  unfold update_unit.
  rewrite (index_nth m row []), (index_nth threshold row 0%Q) by lia.
  cbn [mbind result_bind bind]. unfold np_dot.
  rewrite Hlr, Hp, Nat.eqb_refl. cbn [mbind result_bind bind].
  rewrite (index_nth p row 0%Q) by lia. cbn [mbind result_bind bind].
  set (x := fsub (dot (nth row m []) p) (nth row threshold 0%Q)).
  assert (Hx : (x == sumprod (nth row m []) p - nth row threshold 0)%Q).
  { unfold x. cbn [fsub exactQ]. by rewrite dot_sumprod. }
  assert (Hcur : nth row p 0%Q = 1%Q ∨ nth row p 0%Q = (-1)%Q).
  { unfold bipolar in Hb. rewrite Forall_forall in Hb. apply Hb.
    apply list_elem_of_In, nth_In. lia. }
  pose proof (fun v => energy_insert n m threshold p row v
                         Hsq Hsym Hz Hp Ht Hr) as HE.
  change (of_Z 0 : Q) with 0%Q.
  destruct (sign_Q x) as [[Hneg ->]|[[Hpos ->]|[Hzero ->]]].
  - change (feqb (-1)%Q 0%Q) with false. cbn iota.
    destruct Hcur as [Hc|Hc]; rewrite Hc.
    + change (negb (feqb 1%Q (-1)%Q)) with true. cbn iota.
      eexists _, _. split; [done|]. split.
      { split; [apply bipolar_insert; auto | by rewrite length_insert]. }
      right. split; [done|]. rewrite HE, Hc. lra.
    + change (negb (feqb (-1)%Q (-1)%Q)) with false. cbn iota.
      eexists _, _. split; [done|]. split; [by split|]. by left.
  - change (feqb 1%Q 0%Q) with false. cbn iota.
    destruct Hcur as [Hc|Hc]; rewrite Hc.
    + change (negb (feqb 1%Q 1%Q)) with false. cbn iota.
      eexists _, _. split; [done|]. split; [by split|]. by left.
    + change (negb (feqb (-1)%Q 1%Q)) with true. cbn iota.
      eexists _, _. split; [done|]. split.
      { split; [apply bipolar_insert; auto | by rewrite length_insert]. }
      right. split; [done|]. rewrite HE, Hc. lra.
  - change (feqb 0%Q 0%Q) with true. cbn iota.
    eexists _, _. split; [done|]. split; [by split|]. by left.
Qed.
End HopfieldPass.

Section HopfieldConverges.
Import DiscreteHopfieldClassifier.

(** One pass: it leaves the pattern and the flag, or clears the flag and
    lowers the energy. *)
Lemma one_pass_energy n m threshold (order : list nat) :
  ∀ (p : list Q) (flag : bool),
  relaxable n m threshold → pattern_of n p →
  (∀ r, r ∈ order → (r < n)%nat) →
  ∃ p' flag',
    one_pass m threshold order (p, flag) = Ok (p', flag') ∧
    pattern_of n p' ∧
    ((p' = p ∧ flag' = flag) ∨
     (flag' = false ∧ (energy m threshold p' < energy m threshold p)%Q)).
Proof.
  induction order as [|r order IH]; intros p flag Hm Hp Hord.
  - exists p, flag. split; [done|]. split; [done|]. by left.
  - destruct (update_unit_energy n m threshold p flag r Hm Hp)
      as (p1 & f1 & E1 & Hp1 & H1); [apply Hord; left|].
    destruct (IH p1 f1 Hm Hp1) as (p' & f' & E' & Hp' & H');
      [intros r' Hr'; apply Hord; by right|].
    exists p', f'. split; [|split; [done|]].
    + cbn [one_pass]. rewrite E1. exact E'.
    + destruct H1 as [[-> ->]|[-> Hlt1]], H' as [[-> ->]|[-> Hlt']];
        [by left | by right | by right |].
      right. split; [done|]. lra.
Qed.

(** A pass that ends with the flag still set has flipped no unit. *)
Lemma one_pass_converged n m threshold order (p p' : list Q) :
  relaxable n m threshold → pattern_of n p →
  (∀ r, r ∈ order → (r < n)%nat) →
  one_pass m threshold order (p, true) = Ok (p', true) → p' = p.
Proof.
  intros Hm Hp Hord E.
  destruct (one_pass_energy n m threshold order p true Hm Hp Hord)
    as (p1 & f1 & E1 & _ & [[-> ->]|[-> _]]); congruence.
Qed.




End HopfieldConverges.

Section HopfieldDiagonal.
Import DiscreteHopfieldClassifier.
Context {F : Type} `{Num F}.
Implicit Types (self : state (F:=F)) (m : list (list F)).

Lemma same_off_diagonal_refl m : same_off_diagonal m m.
Proof. split; [done|]. intros i row Hi. by exists row. Qed.

Lemma same_off_diagonal_trans m1 m2 m3 :
  same_off_diagonal m1 m2 → same_off_diagonal m2 m3 →
  same_off_diagonal m1 m3.
Proof.
  intros [Hl1 H1] [Hl2 H2]. split; [congruence|].
  intros i row Hi. destruct (H1 i row Hi) as (row2 & Hi2 & Hlen2 & Hoff2).
  destruct (H2 i row2 Hi2) as (row3 & Hi3 & Hlen3 & Hoff3).
  exists row3. split; [done|]. split; [congruence|].
  intros j Hj. rewrite Hoff3, Hoff2 by done. done.
Qed.

Lemma same_off_diagonal_insert m i row :
  m !! i = Some row →
  same_off_diagonal m (<[i := <[i := of_Z 0]> row]> m).
Proof.
  intros Hi. split; [by rewrite length_insert|].
  intros k rowk Hk. destruct (decide (k = i)) as [->|Hne].
  - assert (rowk = row) as -> by congruence.
    exists (<[i := of_Z 0]> row). split; [|split].
    + apply list_lookup_insert_eq. by eapply lookup_lt_Some.
    + by rewrite length_insert.
    + intros j Hj. by rewrite list_lookup_insert_ne.
  - exists rowk. split; [|done]. by rewrite list_lookup_insert_ne.
Qed.

(** The loop of [_stop_training] over indices that are all on the
    diagonal of the matrix returns; it sets those entries to 0 and leaves
    the others. *)
Lemma zero_diagonal_loop_run (idxs : list nat) : ∀ self m,
  _weight_matrix self = Matrix m →
  (∀ i, i ∈ idxs → ∃ row, m !! i = Some row ∧ (i < length row)%nat) →
  ∃ m', for_each idxs zero_diagonal_entry self
        = (Ok (), set_weight_matrix (Matrix m') self) ∧
        same_off_diagonal m m' ∧
        (∀ i, i ∈ idxs → zero_at m' i) ∧
        (∀ i, zero_at m i → zero_at m' i).
Proof.
  induction idxs as [|i idxs IH]; intros self m Em Hin.
  - exists m. split; [|split; [apply same_off_diagonal_refl|split]].
    + cbn [for_each]. unfold mret, method_ret. f_equal.
      destruct self; simpl in *. by subst.
    + by intros i ?%elem_of_nil.
    + done.
  - destruct (Hin i) as (row & Ei & Hlt); [left|].
    destruct (lookup_lt_is_Some_2 row i Hlt) as [v Ev].
    set (m1 := <[i := <[i := of_Z 0]> row]> m).
    assert (E1 : zero_diagonal_entry i self
                 = (Ok (), set_weight_matrix (Matrix m1) self)).
    { unfold zero_diagonal_entry, mbind, method_bind, get, lift, put, index.
      by rewrite Em, Ei, Ev. }
    pose proof (same_off_diagonal_insert m i row Ei) as Hs1.
    fold m1 in Hs1.
    destruct (zero_diagonal_entry_inv i self _ m Em E1)
      as (m1' & Heq & Hz1 & Hpres1).
    assert (m1' = m1) as ->.
    { apply (f_equal _weight_matrix) in Heq. simpl in Heq. congruence. }
    destruct (IH (set_weight_matrix (Matrix m1) self) m1 eq_refl)
      as (m' & E' & Hs' & Hz' & Hpres').
    { intros k Hk. destruct (Hin k) as (rowk & Ek & Hltk); [by right|].
      destruct Hs1 as [_ Hs1]. destruct (Hs1 k rowk Ek) as (r' & ? & ? & _).
      exists r'. split; [done|lia]. }
    exists m'. split; [|split; [|split]].
    + cbn [for_each]. unfold mbind, method_bind. rewrite E1. exact E'.
    + by eapply same_off_diagonal_trans.
    + intros k [->|Hk]%elem_of_cons; auto.
    + auto.
Qed.
End HopfieldDiagonal.

Section HopfieldTrained.
Import DiscreteHopfieldClassifier.

Lemma entry_lookup (m : list (list Q)) i j row v :
  m !! i = Some row → row !! j = Some v → entry m i j = v.
Proof.
  intros Hi Hj. unfold entry.
  rewrite (nth_lookup_Some _ _ _ _ Hi). by apply nth_lookup_Some.
Qed.

Lemma square_lookup n (m : list (list Q)) i j :
  square n m → (i < n)%nat → (j < n)%nat →
  ∃ row v, m !! i = Some row ∧ length row = n ∧ row !! j = Some v ∧
           entry m i j = v.
Proof.
  intros [Hlen Hrows] Hi Hj.
  destruct (lookup_lt_is_Some_2 m i) as [row Erow]; [lia|].
  assert (Hrow : length row = n).
  { rewrite Forall_forall in Hrows. apply Hrows.
    by eapply list_elem_of_lookup_2. }
  destruct (lookup_lt_is_Some_2 row j) as [v Ev]; [lia|].
  exists row, v. repeat split; try done. by eapply entry_lookup.
Qed.

(** A matrix given by its rows and entries. *)
Lemma square_intro n (m : list (list Q)) :
  length m = n →
  (∀ i row, m !! i = Some row → length row = n) → square n m.
Proof.
  intros Hlen Hrows. split; [done|]. apply Forall_forall.
  intros row [i Hi]%list_elem_of_lookup. by eapply Hrows.
Qed.

Lemma outer_trained (s : list Q) (d : Q) :
  let w := map (map (fun a => fdiv a d)) (outer s s) in
  square (length s) w ∧
  ∀ i j, (i < length s)%nat → (j < length s)%nat →
    entry w i j = (nth i s 0 * nth j s 0 / d)%Q.
Proof.
  cbn zeta. unfold outer. split.
  - apply square_intro; [by rewrite !length_map|].
    intros i row Hi. rewrite !list_lookup_fmap in Hi.
    destruct (s !! i); [|done]. injection Hi as <-.
    by rewrite !length_map.
  - intros i j Hi Hj.
    destruct (lookup_lt_is_Some_2 s i Hi) as [a Ea].
    destruct (lookup_lt_is_Some_2 s j Hj) as [b Eb].
    rewrite (nth_lookup_Some _ _ _ _ Ea), (nth_lookup_Some _ _ _ _ Eb).
    apply (entry_lookup _ i j (map (fun a0 => fdiv a0 d)
                                   (map (fun b0 => fmul a b0) s))).
    + by rewrite !list_lookup_fmap, Ea.
    + by rewrite !list_lookup_fmap, Eb.
Qed.

Lemma scaled_outer_symmetric (s : list Q) (d : Q) :
  symmetric (length s) (map (map (fun a => fdiv a d)) (outer s s)).
Proof.
  intros i j Hi Hj. destruct (outer_trained s d) as [_ He].
  rewrite !He by done. by rewrite Qmult_comm_eq.
Qed.

Lemma add_zero_trained n (w : list (list Q)) :
  square n w → symmetric n w →
  let w' := map (map (fun b => fadd (of_Z 0) b)) w in
  square n w' ∧ symmetric n w'.
Proof.
  intros Hsq Hsym. cbn zeta.
  assert (He : ∀ i j, (i < n)%nat → (j < n)%nat →
            entry (map (map (fun b => fadd (of_Z 0) b)) w) i j
            = fadd (of_Z 0) (entry w i j)).
  { intros i j Hi Hj.
    destruct (square_lookup n w i j Hsq Hi Hj) as (row & v & Er & _ & Ev & ->).
    apply (entry_lookup _ i j (map (fun b => fadd (of_Z 0) b) row)).
    - by rewrite list_lookup_fmap, Er.
    - by rewrite list_lookup_fmap, Ev. }
  split.
  - destruct Hsq as [Hlen Hrows].
    apply square_intro; [by rewrite length_map|].
    intros i row Hi. rewrite list_lookup_fmap in Hi.
    destruct (w !! i) as [r|] eqn:Er; [|done]. injection Hi as <-.
    rewrite length_map. rewrite Forall_forall in Hrows. apply Hrows.
    by eapply list_elem_of_lookup_2.
  - intros i j Hi Hj. rewrite !He by done. by rewrite (Hsym i j).
Qed.

Lemma add_trained n (a b : list (list Q)) :
  square n a → symmetric n a → square n b → symmetric n b →
  let w' := zip_with (zip_with fadd) a b in
  square n w' ∧ symmetric n w'.
Proof.
  intros Hsa Hya Hsb Hyb. cbn zeta.
  assert (He : ∀ i j, (i < n)%nat → (j < n)%nat →
            entry (zip_with (zip_with fadd) a b) i j
            = fadd (entry a i j) (entry b i j)).
  { intros i j Hi Hj.
    destruct (square_lookup n a i j Hsa Hi Hj) as (ra & va & Era & _ & Eva & ->).
    destruct (square_lookup n b i j Hsb Hi Hj) as (rb & vb & Erb & _ & Evb & ->).
    apply (entry_lookup _ i j (zip_with fadd ra rb)).
    - by rewrite lookup_zip_with, Era, Erb.
    - by rewrite lookup_zip_with, Eva, Evb. }
  split.
  - destruct Hsa as [Hla Hra], Hsb as [Hlb Hrb].
    apply square_intro; [rewrite length_zip_with; lia|].
    intros i row Hi. apply lookup_zip_with_Some in Hi
      as (ra & rb & -> & Era & Erb).
    rewrite Forall_forall in Hra, Hrb.
    rewrite length_zip_with,
      (Hra ra) by (by eapply list_elem_of_lookup_2).
    rewrite (Hrb rb) by (by eapply list_elem_of_lookup_2). lia.
  - intros i j Hi Hj. rewrite !He by done.
    by rewrite (Hya i j), (Hyb i j).
Qed.

Lemma length_bool_to_sign (p : list bool) :
  length (bool_to_sign (F:=Q) p) = length p.
Proof. apply length_map. Qed.

Lemma bool_to_sign_bipolar (p : list bool) : bipolar (bool_to_sign p).
Proof.
  unfold bipolar, bool_to_sign. apply Forall_forall.
  intros v (b & -> & _)%list_elem_of_fmap. destruct b; [by left|by right].
Qed.

Lemma train_one_trained n (self : state (F:=Q)) (p : list bool) :
  input_dim self = n → length p = n →
  _weight_matrix self = Zero ∨ trained n self →
  trained n (_train_one self p) ∧
  _shuffled_update (_train_one self p) = _shuffled_update self.
Proof.
  intros Hd Hp Hw. split; [|done]. split; [done|].
  pose proof (outer_trained (bool_to_sign p)
                (of_Z (Z.of_nat (input_dim self)))) as [Hsq _].
  pose proof (scaled_outer_symmetric (bool_to_sign p)
                (of_Z (Z.of_nat (input_dim self)))) as Hsym.
  rewrite length_bool_to_sign, Hp in Hsq, Hsym.
  cbn [_train_one _weight_matrix].
  destruct Hw as [Ez|(_ & w & Ew & Hsw & Hyw)].
  - rewrite Ez. cbn [add_matrix]. eexists. split; [done|].
    by apply add_zero_trained.
  - rewrite Ew. cbn [add_matrix]. eexists. split; [done|].
    by apply add_trained.
Qed.

Lemma train_trained n (patterns : list (list bool)) :
  ∀ self : state (F:=Q),
  input_dim self = n → Forall (fun p => length p = n) patterns →
  trained n self →
  trained n (_train self patterns) ∧
  _shuffled_update (_train self patterns) = _shuffled_update self.
Proof.
  induction patterns as [|p patterns IH]; intros self Hd Hps Ht; [done|].
  apply Forall_cons in Hps as [Hp Hps].
  destruct (train_one_trained n self p Hd Hp (or_intror Ht)) as [Ht1 Hf1].
  destruct (IH (_train_one self p)) as [Ht' Hf']; [done|done|done|].
  split; [exact Ht'|]. cbn [_train fold_left]. fold (_train (_train_one self p) patterns). congruence.
Qed.

(** Training on at least one pattern and then [_stop_training]: the
    call returns and leaves a matrix the relaxation converges on. *)
Lemma stop_training_relaxable n (self : state (F:=Q))
    (patterns : list (list bool)) (threshold : list Q) :
  _weight_matrix self = Zero → input_dim self = n →
  patterns ≠ [] → Forall (fun p => length p = n) patterns →
  length threshold = n →
  ∃ self' m,
    _stop_training (_train self patterns) = (Ok (), self') ∧
    _weight_matrix self' = Matrix m ∧
    _shuffled_update self' = _shuffled_update self ∧
    relaxable n m threshold.
Proof.
  intros Ez Hd Hne Hps Ht.
  destruct patterns as [|p patterns]; [done|].
  apply Forall_cons in Hps as [Hp Hps].
  destruct (train_one_trained n self p Hd Hp (or_introl Ez)) as [Ht1 Hf1].
  destruct (train_trained n patterns (_train_one self p)) as [Htr Hf];
    [done|done|done|].
  change (_train self (p :: patterns))
    with (_train (_train_one self p) patterns).
  set (trained_self := _train (_train_one self p) patterns) in *.
  destruct Htr as (Hd' & w & Ew & Hsq & Hsym).
  destruct (zero_diagonal_loop_run (seq 0 n) trained_self w Ew)
    as (m & Erun & [Hlen Hoff] & Hz & _).
  { intros i [_ Hi]%elem_of_seq.
    destruct (square_lookup n w i i Hsq) as (row & v & Er & Hl & _);
      [lia|lia|]. exists row. split; [done|lia]. }
  exists (set_weight_matrix (Matrix m) trained_self), m.
  split; [|split; [done|split; [simpl; rewrite Hf; exact Hf1|]]].
  { unfold _stop_training, mbind, method_bind, get. by rewrite Hd'. }
  assert (Hsqm : square n m).
  { destruct Hsq as [Hlw Hrows]. apply square_intro; [congruence|].
    intros i row' Hi.
    destruct (lookup_lt_is_Some_2 w i) as [row Er].
    { apply lookup_lt_Some in Hi. lia. }
    destruct (Hoff i row Er) as (row'' & Hi' & Hl' & _).
    assert (row'' = row') as -> by congruence. rewrite Hl'.
    rewrite Forall_forall in Hrows. apply Hrows.
    by eapply list_elem_of_lookup_2. }
  assert (Hentry : ∀ i j, (i < n)%nat → (j < n)%nat → i ≠ j →
            entry m i j = entry w i j).
  { intros i j Hi Hj Hij.
    destruct (square_lookup n w i j Hsq Hi Hj) as (row & v & Er & _ & Ev & ->).
    destruct (Hoff i row Er) as (row' & Er' & _ & Hsame).
    apply (entry_lookup _ i j row'); [done|].
    by rewrite Hsame. }
  split; [done|]. split; [|split; [|done]].
  - intros i j Hi Hj. destruct (decide (i = j)) as [->|Hij]; [done|].
    rewrite !Hentry by done. by apply Hsym.
  - intros i Hi. destruct (Hz i) as (row & Er & Ev).
    { apply elem_of_seq. lia. }
    by apply (entry_lookup _ i i row).
Qed.
End HopfieldTrained.



(** The memory of the witness recalls the stored pattern, in exact
    arithmetic and in double precision. *)
Example hopfield_recall_exact :
  DiscreteHopfieldClassifier._label_one (F:=Q)
    (DiscreteHopfieldClassifier._stop_training
       (DiscreteHopfieldClassifier._train
          (DiscreteHopfieldClassifier.init 4) [Examples.hopfield_stored])).2
    (fun _ => reverse) 3 Examples.hopfield_query [0%Q; 0%Q; 0%Q; 0%Q]
  = Some (Ok Examples.hopfield_stored).
Proof. vm_compute. reflexivity. Qed.

Example hopfield_recall_binary64 :
  DiscreteHopfieldClassifier._label_one (F:=float)
    (DiscreteHopfieldClassifier._stop_training
       (DiscreteHopfieldClassifier._train
          (DiscreteHopfieldClassifier.init 4) [Examples.hopfield_stored])).2
    (fun _ => reverse) 3 Examples.hopfield_query
    [of_Z 0; of_Z 0; of_Z 0; of_Z 0]
  = Some (Ok Examples.hopfield_stored).
Proof. vm_compute. reflexivity. Qed.

(** ** SimpleMarkovClassifier: the sum of the probabilities *)

Lemma zsum_perm (l k : list Z) :
  l ≡ₚ k → foldr Z.add 0%Z l = foldr Z.add 0%Z k.
Proof. induction 1; simpl; lia. Qed.

Lemma zsum_map_ext {A} (g g' : A → Z) (l : list A) :
  (∀ a, a ∈ l → g a = g' a) →
  foldr Z.add 0%Z (map g l) = foldr Z.add 0%Z (map g' l).
Proof.
  induction l as [|a l IH]; intros Hg; [done|]. simpl.
  rewrite (Hg a) by left. rewrite IH; [done|].
  intros a' Ha'. apply Hg. by right.
Qed.

Lemma fsum_foldr (l : list Q) : (fsum l == foldr Qplus 0 l)%Q.
Proof.
  unfold fsum, fzero. cbn [of_Z fadd exactQ]. change (inject_Z 0) with 0%Q.
  assert (Hg : ∀ a : Q, (fold_left Qplus l a == a + foldr Qplus 0 l)%Q).
  { induction l as [|v l IH]; intros a; cbn [fold_left foldr]; [ring|].
    rewrite IH. ring. }
  rewrite Hg. ring.
Qed.

Lemma qsum_perm (l k : list Q) :
  l ≡ₚ k → (foldr Qplus 0 l == foldr Qplus 0 k)%Q.
Proof.
  induction 1 as [|x l k _ IH|x y l|l k1 k2 _ IH1 _ IH2]; cbn [foldr].
  - reflexivity.
  - by rewrite IH.
  - ring.
  - by rewrite IH1.
Qed.

(** A sum of quotients by [d], where every quotient is that of an
    integer. *)
Lemma qsum_quotients {A} (g : A → Q) (c : A → Z) (d : Q) (l : list A) :
  ¬ (d == 0)%Q →
  (∀ a, a ∈ l → (g a == inject_Z (c a) / d)%Q) →
  (foldr Qplus 0 (map g l)
   == inject_Z (foldr Z.add 0%Z (map c l)) / d)%Q.
Proof.
  intros Hd. induction l as [|a l IH]; intros Hg; cbn [map foldr].
  - change (inject_Z 0) with 0%Q. by field.
  - rewrite (Hg a) by left. rewrite IH by (intros a' Ha'; apply Hg; by right).
    rewrite inject_Z_plus. by field.
Qed.

Section MarkovSum.
Import SimpleMarkovClassifier.
Context {K L : Type} `{Countable K} `{Countable L}.
Implicit Types (self : state (K:=K) (L:=L)) (h : history (K:=K) (L:=L)).

(** The keys of a dictionary to which one key is added or at which one
    value is replaced. *)
Lemma keys_insert (m : gmap L Z) (l0 : L) (v : Z) :
  (map_to_list (<[l0 := v]> m)).*1
  ≡ₚ l0 :: (map_to_list (delete l0 m)).*1.
Proof.
  rewrite <- insert_delete_eq.
  rewrite map_to_list_insert by apply lookup_delete_eq. done.
Qed.

Lemma keys_delete (m : gmap L Z) (l0 : L) (v : Z) :
  m !! l0 = Some v →
  (map_to_list m).*1 ≡ₚ l0 :: (map_to_list (delete l0 m)).*1.
Proof.
  intros Hl. rewrite <- (insert_id m l0 v Hl) at 1. apply keys_insert.
Qed.

Lemma joint_count_learn self f0 l0 feature label :
  joint_count (_learn self f0 l0) feature label
  = (joint_count self feature label
     + if decide ((f0, l0) = (feature, label)) then 1 else 0)%Z.
Proof.
  unfold joint_count. cbn [_learn connections].
  rewrite count_up_lookup. case_decide as Heq.
  - injection Heq as -> ->. simpl. lia.
  - lia.
Qed.

Lemma joint_ok_init : joint_ok (init (K:=K) (L:=L)).
Proof.
  split.
  - intros feature. unfold joint_total. cbn [init labels features].
    by rewrite map_to_list_empty, lookup_empty.
  - intros feature label _. apply lookup_empty.
Qed.

Lemma joint_ok_learn self f0 l0 : joint_ok self → joint_ok (_learn self f0 l0).
Proof.
  intros [Htot Hnone]. split.
  - intros feature.
    set (kd := (map_to_list (delete l0 (labels self))).*1).
    assert (Hnot : l0 ∉ kd).
    { unfold kd. intros ([l v] & -> & Hin)%list_elem_of_fmap.
      apply elem_of_map_to_list in Hin. cbn [fst] in Hin.
      by rewrite lookup_delete_eq in Hin. }
    assert (Hold : joint_total self feature
                   = (joint_count self feature l0
                      + foldr Z.add 0%Z (map (joint_count self feature) kd))%Z).
    { unfold joint_total. destruct (labels self !! l0) as [v|] eqn:El.
      - by rewrite (zsum_perm _ _ (Permutation_map _ (keys_delete _ _ _ El))).
      - unfold kd. rewrite (delete_id _ _ El). unfold joint_count at 2.
        rewrite (Hnone feature l0 El). simpl. lia. }
    assert (Hnew : joint_total (_learn self f0 l0) feature
                   = (joint_count (_learn self f0 l0) feature l0
                      + foldr Z.add 0%Z
                          (map (joint_count (_learn self f0 l0) feature) kd))%Z).
    { unfold joint_total. cbn [_learn labels]. unfold count_up.
      destruct (labels self !! l0);
        by rewrite (zsum_perm _ _ (Permutation_map _ (keys_insert _ _ _))). }
    rewrite Hnew.
    rewrite (zsum_map_ext (joint_count (_learn self f0 l0) feature)
                          (joint_count self feature) kd).
    2:{ intros l Hl. rewrite joint_count_learn.
        rewrite decide_False; [lia|]. intros [= _ ->]. done. }
    rewrite joint_count_learn. cbn [_learn features].
    rewrite count_up_lookup. specialize (Htot feature). rewrite Hold in Htot.
    destruct (decide (f0 = feature)) as [->|Hne].
    + rewrite decide_True by done. simpl. lia.
    + rewrite decide_False by congruence. lia.
  - intros feature label. cbn [_learn labels connections].
    rewrite !count_up_lookup. case_decide as Hl; [done|].
    intros Hlabel. rewrite decide_False by congruence. by apply Hnone.
Qed.

Lemma joint_ok_after h : joint_ok (after h).
Proof.
  rewrite after_observations. generalize (observations h).
  intros obs. assert (Hgen : ∀ self, joint_ok self → joint_ok (learn_all obs self)).
  { induction obs as [|[f l] obs IH]; intros self Hok; [done|].
    apply IH. by apply joint_ok_learn. }
  apply Hgen, joint_ok_init.
Qed.

(** In exact arithmetic the probabilities of an observed feature add up
    to 1 after every history: a sum that is not 1 comes from the rounding
    of double precision alone. *)
Theorem prob_one_sums_to_one_exact h (feature : list K)
    (probabilities : gmap L Q) :
  feature ∈ (observations h).*1 →
  _prob_one (after h) feature = Ok probabilities →
  (fsum (map_to_list probabilities).*2 == 1)%Q.
Proof.
  intros Hobs Eprob.
  assert (Hin : feature ∈ dom (features (after h))).
  { rewrite dom_features_after. by apply elem_of_list_to_set. }
  apply elem_of_dom in Hin as [n_feature Ef].
  destruct (prob_one_posterior h feature n_feature Ef) as (m & Em & Hlook).
  assert (m = probabilities) as -> by congruence.
  destruct (counts_ok_after h) as [Hl Hf].
  destruct (Hf feature n_feature Ef) as [Hnf Hn].
  destruct (joint_ok_after h) as [Htot _].
  specialize (Htot feature). rewrite Ef in Htot. cbn [default] in Htot.
  unfold id in Htot.
  set (g := posterior (after h) feature n_feature).
  assert (Hperm : map_to_list probabilities
                  ≡ₚ map (fun label => (label, g label))
                         (map_to_list (labels (after h))).*1).
  { apply NoDup_Permutation.
    - apply NoDup_map_to_list.
    - assert (Hinj : Inj (=) (=) (fun label => (label, g label)))
        by (by intros l1 l2 [= ->]).
      apply (NoDup_fmap_2 _), NoDup_fst_map_to_list.
    - intros [l v]. rewrite elem_of_map_to_list, Hlook. split.
      + destruct (labels (after h) !! l) as [n|] eqn:El; [|done].
        intros [= <-]. apply list_elem_of_fmap. exists l. split; [done|].
        apply list_elem_of_fmap. exists (l, n). split; [done|].
        by apply elem_of_map_to_list.
      + intros (l' & [= -> ->] & Hin)%list_elem_of_fmap.
        apply list_elem_of_fmap in Hin as ([l'' n] & -> & Hin).
        apply elem_of_map_to_list in Hin. cbn [fst]. by rewrite Hin. }
  rewrite fsum_foldr.
  rewrite (qsum_perm _ (map g (map_to_list (labels (after h))).*1)).
  2:{ rewrite Hperm. rewrite <- list_fmap_compose. done. }
  rewrite (qsum_quotients g (joint_count (after h) feature)
             (inject_Z n_feature)).
  - fold (joint_total (after h) feature). rewrite Htot.
    field. apply inject_Z_nonzero. lia.
  - apply inject_Z_nonzero. lia.
  - intros l ([l' n] & -> & Hin)%list_elem_of_fmap.
    apply elem_of_map_to_list in Hin. cbn [fst]. unfold g, posterior.
    rewrite Hin. cbn [default]. unfold id. apply Hl in Hin as Hpos.
    field. repeat split; apply inject_Z_nonzero; lia.
Qed.
End MarkovSum.

(** ** SignumClassifier *)

(** The sum of a row with its entries negated, in exact arithmetic. *)
Lemma fsum_opp (xi : list Q) : (fsum (map Qopp xi) == - fsum xi)%Q.
Proof.
  rewrite !fsum_foldr. induction xi as [|a xi IH]; cbn [map foldr].
  - ring.
  - rewrite IH. ring.
Qed.

Lemma sign_Q_proper (a b : Q) : (a == b)%Q → sign a = sign b.
Proof.
  intros Hab.
  destruct (sign_Q a) as [[Ha ->]|[[Ha ->]|[Ha ->]]],
           (sign_Q b) as [[Hb ->]|[[Hb ->]|[Hb ->]]];
    try reflexivity; exfalso; lra.
Qed.

(** [_label] returns one label for each row, in exact arithmetic 1 for a
    row whose entries add up to a positive number, -1 for a negative sum
    and 0, which is neither class, for a row whose entries add up to 0
    (a row without entries among them); the rows with all entries
    negated get the negated labels. *)
Theorem signum_label_by_sum (x : list (list Q)) :
  length (SignumClassifier._label x) = length x ∧
  (∀ i xi, x !! i = Some xi →
     ∃ l, SignumClassifier._label x !! i = Some l ∧
          (((0 < fsum xi)%Q ∧ l = 1%Q) ∨ ((fsum xi < 0)%Q ∧ l = (-1)%Q)
           ∨ ((fsum xi == 0)%Q ∧ l = 0%Q))) ∧
  SignumClassifier._label (map (map Qopp) x)
  = map Qopp (SignumClassifier._label x).
Proof.
  unfold SignumClassifier._label. split; [by rewrite !length_map|]. split.
  - intros i xi Hi. exists (sign (fsum xi)). split.
    + by rewrite !list_lookup_fmap, Hi.
    + destruct (sign_Q (fsum xi)) as [[Hs ->]|[[Hs ->]|[Hs ->]]]; auto.
  - rewrite <- !list_fmap_compose. apply list_fmap_ext. intros i xi _.
    cbn [compose]. rewrite (sign_Q_proper _ _ (fsum_opp xi)).
    destruct (sign_Q (fsum xi)) as [[Hs Es]|[[Hs Es]|[Hs Es]]],
             (sign_Q (- fsum xi)%Q) as [[Ho Eo]|[[Ho Eo]|[Ho Eo]]];
      rewrite Es, Eo; try reflexivity; exfalso; lra.
Qed.

(** ** SimpleMarkovClassifier: the dictionaries of counts *)

Section MarkovCounts.
Import SimpleMarkovClassifier.
Context {K L : Type} `{Countable K} `{Countable L}.
Implicit Types (self : state (K:=K) (L:=L)) (h : history (K:=K) (L:=L)).

(** Counting a list of keys up in a dictionary. *)
Lemma count_up_all_lookup {A} `{Countable A} (keys : list A) :
  ∀ (d : gmap A Z) (k : A),
    fold_left (fun d k => count_up k d) keys d !! k
    = match occurrences k keys with
      | O => d !! k
      | S n => Some (default 0%Z (d !! k) + Z.of_nat (S n))%Z
      end.
Proof.
  unfold occurrences.
  induction keys as [|k0 keys IH]; intros d k; [done|].
  cbn [fold_left]. rewrite IH, filter_cons, !count_up_lookup.
  destruct (decide (k0 = k)) as [->|Hne].
  - cbn [length default]. unfold id.
    destruct (length (filter _ keys)); f_equal; lia.
  - done.
Qed.

Lemma count_up_all_empty {A} `{Countable A} (keys : list A) (k : A) :
  fold_left (fun d k => count_up k d) keys (∅ : gmap A Z) !! k
  = count_entry (occurrences k keys).
Proof.
  rewrite count_up_all_lookup, lookup_empty.
  destruct (occurrences k keys); [done|]. cbn [default count_entry].
  by f_equal.
Qed.

(** The four attributes after a list of observations. *)
Lemma learn_all_fields obs : ∀ self,
  ntotal_connections (learn_all obs self)
  = (ntotal_connections self + Z.of_nat (length obs))%Z ∧
  labels (learn_all obs self)
  = fold_left (fun d k => count_up k d) obs.*2 (labels self) ∧
  features (learn_all obs self)
  = fold_left (fun d k => count_up k d) obs.*1 (features self) ∧
  connections (learn_all obs self)
  = fold_left (fun d k => count_up k d) obs (connections self).
Proof.
  induction obs as [|[f l] obs IH]; intros self.
  - cbn [learn_all fold_left length fmap list_fmap]. repeat split. lia.
  - change (learn_all ((f, l) :: obs) self)
      with (learn_all obs (_learn self f l)).
    destruct (IH (_learn self f l)) as (-> & -> & -> & ->).
    cbn [_learn ntotal_connections labels features connections fmap
         list_fmap fold_left length fst snd].
    repeat split. lia.
Qed.

Lemma state_eq self self' :
  ntotal_connections self = ntotal_connections self' →
  features self = features self' →
  labels self = labels self' →
  connections self = connections self' →
  self = self'.
Proof. destruct self, self'. simpl. by intros -> -> -> ->. Qed.

Lemma occurrences_perm {A} `{EqDecision A} (k : A) (l l' : list A) :
  l ≡ₚ l' → occurrences k l = occurrences k l'.
Proof. intros Hp. unfold occurrences. by rewrite Hp. Qed.

(** Training counts occurrences: after every history the total is the
    number of the observations, and the dictionaries [labels], [features]
    and [connections] hold for every label, feature and (feature, label)
    pair the number of the observations it occurs in, and no entry for one
    that occurs in none. *)
Theorem train_counts_occurrences h :
  ntotal_connections (after h) = Z.of_nat (length (observations h)) ∧
  (∀ label, labels (after h) !! label
            = count_entry (occurrences label (observations h).*2)) ∧
  (∀ feature, features (after h) !! feature
              = count_entry (occurrences feature (observations h).*1)) ∧
  (∀ feature label,
     connections (after h) !! (feature, label)
     = count_entry (occurrences (feature, label) (observations h))).
Proof.
  rewrite after_observations.
  destruct (learn_all_fields (observations h) init) as (-> & -> & -> & ->).
  cbn [init ntotal_connections labels features connections].
  split; [lia|].
  split; [|split]; intros; apply count_up_all_empty.
Qed.

(** Training does not depend on the order of the observations or on the
    batches they come in: two histories with the same observations, in
    whatever order and however they are cut into calls of [train], lead to
    the same state. *)
Theorem train_order_independent h h' :
  observations h ≡ₚ observations h' → after h = after h'.
Proof.
  intros Hp. rewrite !after_observations.
  destruct (learn_all_fields (observations h) init) as (En & El & Ef & Ec).
  destruct (learn_all_fields (observations h') init) as (En' & El' & Ef' & Ec').
  apply state_eq.
  - rewrite En, En'. by rewrite Hp.
  - rewrite Ef, Ef'. apply map_eq. intros f.
    cbn [init features]. rewrite !count_up_all_empty.
    f_equal. apply occurrences_perm. by rewrite Hp.
  - rewrite El, El'. apply map_eq. intros l.
    cbn [init labels]. rewrite !count_up_all_empty.
    f_equal. apply occurrences_perm. by rewrite Hp.
  - rewrite Ec, Ec'. apply map_eq. intros c.
    cbn [init connections]. rewrite !count_up_all_empty.
    f_equal. by apply occurrences_perm.
Qed.

End MarkovCounts.

Lemma train_order_independent_witness :
  SimpleMarkovClassifier.after (K:=Z) (L:=string)
    [([[0%Z]; [1%Z]], LabelSeq ["a"; "b"]); ([[0%Z]], OneLabel "b")]
  = SimpleMarkovClassifier.after [([[0%Z]; [0%Z]; [1%Z]], LabelSeq ["b"; "a"; "b"])].
Proof.
  apply train_order_independent. vm_compute.
  apply perm_trans with [([0%Z], "b"); ([0%Z], "a"); ([1%Z], "b")].
  - apply perm_trans with [([0%Z], "a"); ([0%Z], "b"); ([1%Z], "b")].
    + apply perm_skip, perm_swap.
    + apply perm_swap.
  - reflexivity.
Defined.

Section MarkovFrequencies.
Import SimpleMarkovClassifier.
Context {K L : Type} `{Countable K} `{Countable L}.
Implicit Types (self : state (K:=K) (L:=L)) (h : history (K:=K) (L:=L)).

Lemma default_count_entry (n : nat) :
  default 0%Z (count_entry n) = Z.of_nat n.
Proof. by destruct n. Qed.

(** A pair occurs at most as often as its feature. *)
Lemma occurrences_pair_le (feature : list K) (label : L)
    (obs : list (list K * L)) :
  (occurrences (feature, label) obs ≤ occurrences feature obs.*1)%nat.
Proof.
  unfold occurrences. induction obs as [|[f l] obs IH]; [done|].
  cbn [fmap list_fmap fst]. rewrite !filter_cons.
  destruct (decide ((f, l) = (feature, label))) as [[= -> ->]|Hne].
  - rewrite decide_True by done. cbn [length]. lia.
  - destruct (decide (f = feature)); cbn [length]; lia.
Qed.

Lemma occurrences_elem {A} `{EqDecision A} (k : A) (keys : list A) :
  k ∈ keys ↔ (0 < occurrences k keys)%nat.
Proof.
  unfold occurrences. induction keys as [|k0 keys IH].
  - split; [by intros ?%elem_of_nil | simpl; lia].
  - rewrite elem_of_cons, filter_cons. destruct (decide (k0 = k)) as [->|Hne].
    + cbn [length]. split; [lia | by left].
    + rewrite IH. split; [|by right]. intros [->|]; done.
Qed.

(** The probability of a label for a feature is a relative frequency:
    the number of the observations of the feature with this label divided
    by the number of the observations of the feature; in exact arithmetic
    it lies between 0 and 1. *)
Theorem prob_one_relative_frequency h (feature : list K)
    (probabilities : gmap L Q) (label : L) (v : Q) :
  _prob_one (after h) feature = Ok probabilities →
  probabilities !! label = Some v →
  (v == inject_Z (Z.of_nat (occurrences (feature, label) (observations h)))
        / inject_Z (Z.of_nat (occurrences feature (observations h).*1)))%Q
  ∧ (0 <= v)%Q ∧ (v <= 1)%Q.
Proof.
  intros Eprob Ev.
  destruct (features (after h) !! feature) as [n_feature|] eqn:Ef.
  2:{ unfold _prob_one in Eprob. rewrite Ef in Eprob.
      injection Eprob as <-. by rewrite lookup_empty in Ev. }
  destruct (prob_one_posterior h feature n_feature Ef) as (m & Em & Hlook).
  assert (m = probabilities) as -> by congruence.
  rewrite Hlook in Ev.
  destruct (labels (after h) !! label) as [n_label|] eqn:El; [|done].
  injection Ev as <-.
  destruct (counts_ok_after h) as [Hl Hf].
  apply Hl in El as Hnl. destruct (Hf _ _ Ef) as [Hnf Hn].
  pose proof (occurrences_pair_le feature label (observations h)) as Hle.
  unfold posterior, joint_count.
  revert Ef El Hn. rewrite after_observations.
  destruct (learn_all_fields (observations h) init) as (-> & -> & -> & ->).
  cbn [init ntotal_connections labels features connections].
  rewrite !count_up_all_empty. intros Ef El Hn.
  rewrite El, default_count_entry. cbn [default]. unfold id.
  assert (Enf : n_feature = Z.of_nat (occurrences feature (observations h).*1)).
  { destruct (occurrences feature (observations h).*1);
      cbn [count_entry] in Ef; congruence. }
  subst n_feature.
  set (n_pair := occurrences (feature, label) (observations h)) in *.
  set (n_feat := occurrences feature (observations h).*1) in *.
  set (nt := (0 + Z.of_nat (length (observations h)))%Z) in *.
  assert (Eq : ((inject_Z (Z.of_nat n_pair) / inject_Z n_label
                 * (inject_Z n_label / inject_Z nt)
                 / (inject_Z (Z.of_nat n_feat) / inject_Z nt))
                == inject_Z (Z.of_nat n_pair) / inject_Z (Z.of_nat n_feat))%Q).
  { field. repeat split; apply inject_Z_nonzero; lia. }
  rewrite Eq. split; [reflexivity|].
  assert (Hpos : (0 < inject_Z (Z.of_nat n_feat))%Q).
  { rewrite <- (Zlt_Qlt 0). lia. }
  split.
  - apply Qle_shift_div_l; [done|]. rewrite Qmult_0_l.
    rewrite <- (Zle_Qle 0). lia.
  - apply Qle_shift_div_r; [done|]. rewrite Qmult_1_l.
    rewrite <- Zle_Qle. lia.
Qed.

(** After every history [_prob] returns, in exact arithmetic, for every
    batch of query features: no division raises.  It returns one
    dictionary for each query, empty for a feature that has not been
    observed and with every observed label as a key for one that has. *)
Theorem prob_never_raises h (feats : list (list K)) :
  ∃ ds : list (gmap L Q),
    _prob (after h) feats = Ok ds ∧ length ds = length feats ∧
    ∀ i feature, feats !! i = Some feature →
      ∃ d, ds !! i = Some d ∧
           dom d = if decide (feature ∈ (observations h).*1)
                   then list_to_set (observations h).*2
                   else (∅ : gset L).
Proof.
  assert (Hone : ∀ feature, ∃ d : gmap L Q,
            _prob_one (after h) feature = Ok d ∧
            dom d = if decide (feature ∈ (observations h).*1)
                    then list_to_set (observations h).*2
                    else (∅ : gset L)).
  { intros feature.
    destruct (features (after h) !! feature) as [n_feature|] eqn:Ef.
    - destruct (prob_one_posterior h feature n_feature Ef)
        as (m & Em & Hlook).
      exists m. split; [done|]. rewrite decide_True.
      + rewrite <- dom_labels_after. apply set_eq. intros l.
        by rewrite !elem_of_dom, Hlook, fmap_is_Some.
      + apply (elem_of_list_to_set (C:=gset (list K))).
        rewrite <- dom_features_after. apply elem_of_dom. by exists n_feature.
    - exists ∅. split; [unfold _prob_one; by rewrite Ef|].
      rewrite decide_False; [apply dom_empty_L|].
      by apply features_after_None. }
  destruct (mapM_lookup_ok (_prob_one (F:=Q) (after h)) feats)
    as (ds & Eds & Hlen & Hds).
  { intros i feature _. destruct (Hone feature) as (d & -> & _). done. }
  exists ds. split; [exact Eds|]. split; [exact Hlen|].
  intros i feature Hi. destruct (Hds i feature Hi) as (d & Ed & Hd).
  exists d. split; [exact Hd|].
  destruct (Hone feature) as (d' & Ed' & Hdom). congruence.
Qed.
End MarkovFrequencies.

Lemma prob_one_relative_frequency_witness :
  ∃ (probabilities : gmap string Q) (v : Q),
    SimpleMarkovClassifier._prob_one
      (SimpleMarkovClassifier.after Examples.markov_history) [0%Z]
    = Ok probabilities ∧
    probabilities !! "b" = Some v ∧ (v == 3 # 4)%Q ∧ (0 <= v)%Q ∧ (v <= 1)%Q.
Proof.
  destruct (SimpleMarkovClassifier._prob_one (F:=Q)
              (SimpleMarkovClassifier.after Examples.markov_history) [0%Z])
    as [probabilities|e] eqn:Eprob; [|vm_compute in Eprob; discriminate].
  destruct (probabilities !! "b") as [v|] eqn:Ev.
  2:{ exfalso. revert Ev. injection Eprob as <-. vm_compute. discriminate. }
  exists probabilities, v. split; [done|]. split; [done|].
  destruct (prob_one_relative_frequency Examples.markov_history [0%Z]
              probabilities "b" v Eprob Ev) as (Hv & H0 & H1).
  split; [|by split]. rewrite Hv. vm_compute. reflexivity.
Defined.

Lemma prob_one_sums_to_one_exact_witness :
  ∃ probabilities : gmap string Q,
    SimpleMarkovClassifier._prob_one
      (SimpleMarkovClassifier.after Examples.markov_history) [0%Z]
    = Ok probabilities ∧
    (fsum (map_to_list probabilities).*2 == 1)%Q.
Proof.
  destruct (SimpleMarkovClassifier._prob_one (F:=Q)
              (SimpleMarkovClassifier.after Examples.markov_history) [0%Z])
    as [probabilities|e] eqn:Eprob; [|vm_compute in Eprob; discriminate].
  exists probabilities. split; [done|].
  apply (prob_one_sums_to_one_exact Examples.markov_history [0%Z]);
    [vm_compute; left | exact Eprob].
Defined.

(** ** PerceptronClassifier: the labels it accepts and the updates *)

Lemma fabs_one_Q (l : Q) :
  feqb (fabs l) (of_Z 1) = true ↔ (l == 1)%Q ∨ (l == -1)%Q.
Proof.
  unfold fabs, fzero. change (of_Z 0 : Q) with 0%Q.
  change (of_Z 1 : Q) with 1%Q. cbn [feqb fsub exactQ].
  rewrite Qeq_bool_iff. destruct (fltb l 0%Q) eqn:E.
  - apply fltb_Q in E. split.
    + intros Heq. right. lra.
    + intros [Heq|Heq]; lra.
  - assert (¬ (l < 0)%Q) by (intros Hlt%fltb_Q; congruence).
    split.
    + intros Heq. by left.
    + intros [Heq|Heq]; [done|lra].
Qed.

(** [_check_train_args] accepts a single label that is 1 or -1 and a
    sequence of labels, one for each row, that are all 1 or -1; everything
    else it refuses with a [TrainingException]. *)
Theorem check_train_args_accepts (x : list (list Q)) (lbls : labels_arg Q) :
  let accepted :=
    match lbls with
    | OneLabel l => (l == 1)%Q ∨ (l == -1)%Q
    | LabelSeq ls =>
        length ls = length x ∧
        Forall (fun l => (l == 1)%Q ∨ (l == -1)%Q) ls
    end in
  (PerceptronClassifier._check_train_args x lbls = Ok () ∧ accepted)
  ∨ (PerceptronClassifier._check_train_args x lbls = Raise TrainingException
     ∧ ¬ accepted).
Proof.
  unfold PerceptronClassifier._check_train_args.
  destruct lbls as [l|ls]; cbn [labels_mismatch].
  - cbn [forallb]. rewrite andb_true_r.
    destruct (feqb (fabs l) (of_Z 1)) eqn:E.
    + left. split; [done|]. by apply fabs_one_Q.
    + right. split; [done|]. intros Hl%fabs_one_Q. congruence.
  - destruct (length ls =? length x)%nat eqn:Elen; cbn [negb].
    + apply Nat.eqb_eq in Elen.
      destruct (forallb _ ls) eqn:E.
      * left. split; [done|]. split; [done|].
        apply Forall_forall. intros l Hl. apply fabs_one_Q.
        rewrite forallb_forall in E. apply E. by apply list_elem_of_In.
      * right. split; [done|]. intros [_ Hall].
        assert (forallb (fun x : Q => feqb (fabs x) (of_Z 1)) ls = true);
          [|congruence].
        apply forallb_forall. intros l Hl%list_elem_of_In.
        apply fabs_one_Q. by apply (proj1 (Forall_forall _ _) Hall).
    + apply Nat.eqb_neq in Elen. right. split; [done|]. by intros [? _].
Qed.

Section PerceptronExact.
Import PerceptronClassifier DiscreteHopfieldClassifier.
Implicit Types (self : PerceptronClassifier.state (F:=Q)) (w xi : list Q).

(** The entries of the updated weights and their product with the row. *)
Lemma updated_weights_eq (rate : Q) : ∀ w xi,
  (rate == 0)%Q → length w = length xi →
  Forall2 Qeq (zip_with (fun wj xj => fadd wj (fmul rate xj)) w xi) w.
Proof.
  intros w xi Hr. revert xi.
  induction w as [|a w IH]; intros [|b xi] Hlen; try done.
  cbn [zip_with]. constructor; [|apply IH; by injection Hlen].
  cbn [fadd fmul exactQ]. rewrite Hr. ring.
Qed.

Lemma sumprod_updated (rate : Q) : ∀ w xi,
  length w = length xi →
  (sumprod xi (zip_with (fun wj xj => fadd wj (fmul rate xj)) w xi)
   == sumprod xi w + rate * sumprod xi xi)%Q.
Proof.
  induction w as [|a w IH]; intros [|b xi] Hlen; try done.
  - cbn [zip_with sumprod]. ring.
  - cbn [zip_with sumprod]. rewrite IH by (by injection Hlen).
    cbn [fadd fmul exactQ]. ring.
Qed.

Lemma sumprod_square_nonneg (xi : list Q) : (0 <= sumprod xi xi)%Q.
Proof.
  induction xi as [|a xi IH]; cbn [sumprod]; [done|].
  assert (0 <= a * a)%Q by nra. lra.
Qed.

(** A row that the perceptron labels as its label says changes nothing:
    the rate of the update is 0, and the weights and the offset keep their
    values. *)
Theorem train_row_correct_unchanged self xi (labeli : Q) :
  length (weights self) = PerceptronClassifier.input_dim self →
  length xi = PerceptronClassifier.input_dim self →
  _label_row self xi = Ok labeli →
  ∃ self',
    train_row xi labeli self = (Ok (), self') ∧
    Forall2 Qeq (weights self') (weights self) ∧
    (offset_weight self' == offset_weight self)%Q ∧
    learning_rate self' = learning_rate self.
Proof.
  intros Ew Ex Elabel.
  rewrite train_row_online_update by done. eexists. split; [done|].
  unfold _label_row, np_dot in Elabel. rewrite Ex, Ew, Nat.eqb_refl in Elabel.
  cbn [mbind result_bind bind] in Elabel. injection Elabel as Elabel.
  change (sign (fadd (dot xi (weights self)) (offset_weight self))
          = labeli) in Elabel.
  cbn [with_weights weights offset_weight learning_rate online_update fst snd].
  rewrite (dot_comm (weights self)). rewrite Elabel.
  assert (Hr : (fmul (learning_rate self) (fsub labeli labeli) == 0)%Q).
  { cbn [fmul fsub exactQ]. ring. }
  split; [|split; [|done]].
  - apply updated_weights_eq; [done|congruence].
  - cbn [fadd exactQ]. cbn [fmul fsub exactQ] in Hr. rewrite Hr. ring.
Qed.

(** A row that the perceptron labels otherwise than its label says moves
    the perceptron towards the label: with a positive learning rate and a
    label 1 or -1, the activation of the row, taken in the direction of
    the label, is larger after the update than before. *)
Theorem train_row_towards_label self xi (labeli prediction : Q) :
  length (weights self) = PerceptronClassifier.input_dim self →
  length xi = PerceptronClassifier.input_dim self →
  (0 < learning_rate self)%Q →
  labeli = 1%Q ∨ labeli = (-1)%Q →
  _label_row self xi = Ok prediction →
  ¬ (prediction == labeli)%Q →
  ∃ self',
    train_row xi labeli self = (Ok (), self') ∧
    (labeli * activation self xi < labeli * activation self' xi)%Q.
Proof.
  intros Ew Ex Hlr Hlabel Elabel Hne.
  rewrite train_row_online_update by done. eexists. split; [done|].
  unfold _label_row, np_dot in Elabel. rewrite Ex, Ew, Nat.eqb_refl in Elabel.
  cbn [mbind result_bind bind] in Elabel. injection Elabel as Elabel.
  change (sign (fadd (dot xi (weights self)) (offset_weight self))
          = prediction) in Elabel.
  unfold activation.
  cbn [with_weights weights offset_weight learning_rate online_update fst snd].
  rewrite (dot_comm (weights self)), Elabel.
  set (rate := fmul (learning_rate self) (fsub labeli prediction)).
  cbn [fadd exactQ]. rewrite !dot_sumprod.
  rewrite sumprod_updated by congruence.
  pose proof (sumprod_square_nonneg xi) as Hsq.
  assert (Hrate : (0 < labeli * rate)%Q).
  { unfold rate. cbn [fmul fsub exactQ].
    assert (Hp : prediction = (-1)%Q ∨ prediction = 1%Q ∨ prediction = 0%Q).
    { rewrite <- Elabel.
      destruct (sign_Q (fadd (dot xi (weights self)) (offset_weight self)))
        as [[_ ->]|[[_ ->]|[_ ->]]]; auto. }
    destruct Hlabel as [->| ->], Hp as [->|[->| ->]];
      try (exfalso; apply Hne; reflexivity); nra. }
  set (s := sumprod xi xi) in *. set (a := sumprod xi (weights self)).
  set (b := offset_weight self).
  assert (Hd : (labeli * (a + rate * s + (b + rate))
                == labeli * (a + b) + labeli * rate * (s + 1))%Q) by ring.
  rewrite Hd. assert (0 < labeli * rate * (s + 1))%Q by nra. lra.
Qed.
End PerceptronExact.

Lemma train_row_correct_unchanged_witness :
  let self :=
    PerceptronClassifier.with_weights ([1%Q; 1%Q], 0%Q)
      (PerceptronClassifier.init 2) in
  ∃ self',
    PerceptronClassifier.train_row [2%Q; 1%Q] 1%Q self = (Ok (), self') ∧
    Forall2 Qeq (PerceptronClassifier.weights self')
                (PerceptronClassifier.weights self).
Proof.
  intros self.
  destruct (train_row_correct_unchanged self [2%Q; 1%Q] 1%Q)
    as (self' & E & Hw & _); [reflexivity | reflexivity | reflexivity |].
  by exists self'.
Defined.

Lemma train_row_towards_label_witness :
  let self :=
    PerceptronClassifier.with_weights ([1%Q; 1%Q], 0%Q)
      (PerceptronClassifier.init 2) in
  ∃ self',
    PerceptronClassifier.train_row [2%Q; 1%Q] (-1)%Q self = (Ok (), self') ∧
    (-1 * PerceptronClassifier.activation self [2%Q; 1%Q]
     < -1 * PerceptronClassifier.activation self' [2%Q; 1%Q])%Q.
Proof.
  intros self.
  apply (train_row_towards_label self [2%Q; 1%Q] (-1)%Q 1%Q);
    [reflexivity | reflexivity | reflexivity | by right | reflexivity |].
  intros Heq. discriminate Heq.
Defined.

(** ** DiscreteHopfieldClassifier: the counters *)

Section HopfieldCounters.
Import DiscreteHopfieldClassifier.
Context {F : Type} `{Num F}.
Implicit Types self : state (F:=F).

Lemma train_counters (patterns : list (list bool)) : ∀ self,
  input_dim (_train self patterns) = input_dim self ∧
  _num_patterns (_train self patterns)
  = (_num_patterns self + Z.of_nat (length patterns))%Z.
Proof.
  induction patterns as [|p patterns IH]; intros self.
  - cbn [_train fold_left length]. split; [done|lia].
  - change (_train self (p :: patterns))
      with (_train (_train_one self p) patterns).
    destruct (IH (_train_one self p)) as [-> ->].
    cbn [_train_one input_dim _num_patterns length]. split; [done|lia].
Qed.

End HopfieldCounters.

(** Training counts the patterns and leaves the dimension: the load
    parameter of a memory of [dim] units, in exact arithmetic, is the
    number of the patterns it has been trained with divided by [dim], and
    reading it raises a [ZeroDivisionError] for a memory without units. *)
Theorem load_parameter_counts_patterns (dim : nat)
    (patterns : list (list bool)) :
  let self :=
    DiscreteHopfieldClassifier._train
      (DiscreteHopfieldClassifier.init (F:=Q) dim) patterns in
  DiscreteHopfieldClassifier.memory_size self = dim ∧
  DiscreteHopfieldClassifier._num_patterns self
  = Z.of_nat (length patterns) ∧
  DiscreteHopfieldClassifier.load_parameter self
  = match dim with
    | O => Raise ZeroDivisionError
    | S _ => Ok (inject_Z (Z.of_nat (length patterns))
                 / inject_Z (Z.of_nat dim))%Q
    end.
Proof.
  cbn zeta.
  destruct (train_counters (F:=Q) patterns
              (DiscreteHopfieldClassifier.init dim)) as [Ed En].
  cbn [DiscreteHopfieldClassifier.init
       DiscreteHopfieldClassifier.input_dim
       DiscreteHopfieldClassifier._num_patterns] in Ed, En.
  unfold DiscreteHopfieldClassifier.memory_size,
    DiscreteHopfieldClassifier.load_parameter.
  rewrite Ed, En, Z.add_0_l. split; [done|]. split; [done|].
  destruct dim as [|dim]; [done|].
  apply pydiv_Q_ok. apply inject_Z_nonzero. lia.
Qed.

(** ** DiscreteHopfieldClassifier: what the relaxation returns *)

Section HopfieldFixedPoint.
Import DiscreteHopfieldClassifier.
Implicit Types (self : state (F:=Q)) (m : list (list Q)) (p : list Q).

(** The visit of a unit leaves the pattern and the flag or clears the
    flag, and it keeps a pattern bipolar. *)
Lemma update_unit_inv m threshold p p' (flag flag' : bool) row :
  update_unit m threshold (p, flag) row = Ok (p', flag') →
  ((p' = p ∧ flag' = flag) ∨ flag' = false) ∧ (bipolar p → bipolar p').
Proof.
  unfold update_unit.
  destruct (index m row) as [w_row|]; [|done].
  destruct (index threshold row) as [thresh_row|]; [|done].
  cbn [mbind result_bind bind].
  destruct (np_dot w_row p) as [d|]; [|done].
  cbn [mbind result_bind bind]. change (of_Z 0 : Q) with 0%Q.
  destruct (sign_Q (fsub d thresh_row)) as [[_ ->]|[[_ ->]|[_ ->]]].
  - change (feqb (-1)%Q 0%Q) with false. cbn iota.
    destruct (index p row) as [cur|]; [|done]. cbn [mbind result_bind bind].
    destruct (negb (feqb cur (-1)%Q)); intros [= <- <-].
    + split; [by right|]. intros Hb. apply bipolar_insert; auto.
    + split; [by left|done].
  - change (feqb 1%Q 0%Q) with false. cbn iota.
    destruct (index p row) as [cur|]; [|done]. cbn [mbind result_bind bind].
    destruct (negb (feqb cur 1%Q)); intros [= <- <-].
    + split; [by right|]. intros Hb. apply bipolar_insert; auto.
    + split; [by left|done].
  - change (feqb 0%Q 0%Q) with true. cbn iota. intros [= <- <-].
    split; [by left|done].
Qed.

Lemma one_pass_inv m threshold (order : list nat) : ∀ p p' (flag flag' : bool),
  one_pass m threshold order (p, flag) = Ok (p', flag') →
  (bipolar p → bipolar p') ∧
  (flag' = true →
   p' = p ∧ flag = true ∧
   ∀ r, r ∈ order → update_unit m threshold (p, true) r = Ok (p, true)).
Proof.
  induction order as [|r order IH]; intros p p' flag flag' E.
  - injection E as <- <-. split; [done|]. intros ->. split; [done|].
    split; [done|]. by intros r ?%elem_of_nil.
  - cbn [one_pass] in E.
    destruct (update_unit m threshold (p, flag) r) as [[p1 f1]|] eqn:E1;
      [|done].
    cbn [mbind result_bind bind] in E.
    destruct (update_unit_inv _ _ _ _ _ _ _ E1) as [H1 Hb1].
    destruct (IH _ _ _ _ E) as [Hb Hstable].
    split; [auto|]. intros Hf. destruct (Hstable Hf) as (-> & -> & Hall).
    destruct H1 as [[-> Hflag]|?]; [|done]. subst flag.
    split; [done|]. split; [done|].
    intros r' [->|Hr']%elem_of_cons; [done|by apply Hall].
Qed.

(** A pattern that no visit changes passes in every order. *)
Lemma one_pass_stable m threshold (order : list nat) p :
  (∀ r, r ∈ order → update_unit m threshold (p, true) r = Ok (p, true)) →
  one_pass m threshold order (p, true) = Ok (p, true).
Proof.
  induction order as [|r order IH]; intros Hall; [done|].
  cbn [one_pass]. rewrite (Hall r) by left. cbn [mbind result_bind bind].
  apply IH. intros r' Hr'. apply Hall. by right.
Qed.

(** The relaxation returns a pattern that a pass has left as it is. *)
Lemma relax_inv self shuffle m threshold (fuel : nat) : ∀ (k : nat) p final,
  relax self shuffle m threshold fuel k p = Some (Ok final) →
  (bipolar p → bipolar final) ∧
  ∃ k', ∀ r, r ∈ iter_order_of self shuffle m k' →
          update_unit m threshold (final, true) r = Ok (final, true).
Proof.
  induction fuel as [|fuel IH]; intros k p final E; [done|].
  cbn [relax] in E.
  destruct (one_pass m threshold (iter_order_of self shuffle m k) (p, true))
    as [[p' [|]]|] eqn:Epass; [| |done].
  - injection E as <-.
    destruct (one_pass_inv _ _ _ _ _ _ _ Epass) as [Hb Hstable].
    destruct (Hstable eq_refl) as (-> & _ & Hall).
    split; [done|]. by exists k.
  - destruct (one_pass_inv _ _ _ _ _ _ _ Epass) as [Hb _].
    destruct (IH _ _ _ E) as [Hb' Hk]. split; [auto|done].
Qed.

(** The booleans of a bipolar pattern give the pattern back. *)
Lemma bool_to_sign_to_bool p :
  bipolar p → bool_to_sign (sign_to_bool p) = p.
Proof.
  unfold bipolar, bool_to_sign, sign_to_bool. intros Hb.
  rewrite <- list_fmap_compose. rewrite <- (list_fmap_id p) at 2.
  apply list_fmap_ext. intros i v Hv. cbn [compose].
  rewrite Forall_forall in Hb.
  destruct (Hb v) as [->| ->]; [by eapply list_elem_of_lookup_2|done|done].
Qed.

(** What [_label_one] returns is a fixed point of the recall: queried
    with the pattern it has returned, under the same thresholds and
    whatever the shuffles are, [_label_one] finds in its first pass that
    no unit changes, and returns the pattern again.  The arithmetic is
    exact. *)
Theorem label_one_fixed_point self
    (shuffle shuffle' : nat → list nat → list nat) (fuel fuel' : nat)
    (pattern recalled : list bool) (threshold : list Q) :
  (∀ k order, shuffle k order ≡ₚ order) →
  (∀ k order, shuffle' k order ≡ₚ order) →
  _label_one self shuffle fuel pattern threshold = Some (Ok recalled) →
  _label_one self shuffle' (S fuel') recalled threshold = Some (Ok recalled).
Proof.
  intros Hs Hs'. unfold _label_one.
  destruct (_weight_matrix self) as [|m]; [done|].
  destruct (relax self shuffle m threshold fuel 0 (bool_to_sign pattern))
    as [[final|]|] eqn:E; [|done|done].
  intros [= <-].
  destruct (relax_inv _ _ _ _ _ _ _ _ E) as [Hb (k & Hall)].
  specialize (Hb (bool_to_sign_bipolar pattern)).
  rewrite (bool_to_sign_to_bool final Hb). cbn [relax].
  rewrite one_pass_stable; [done|].
  intros r Hr. apply Hall. revert Hr. unfold iter_order_of.
  destruct (_shuffled_update self); [|done].
  by rewrite Hs, Hs'.
Qed.
End HopfieldFixedPoint.

Lemma label_one_fixed_point_witness :
  let self :=
    (DiscreteHopfieldClassifier._stop_training
       (DiscreteHopfieldClassifier._train
          (DiscreteHopfieldClassifier.init (F:=Q) 4)
          [Examples.hopfield_stored])).2 in
  DiscreteHopfieldClassifier._label_one self (fun _ => reverse) 3
    Examples.hopfield_query [0%Q; 0%Q; 0%Q; 0%Q]
  = Some (Ok Examples.hopfield_stored) ∧
  DiscreteHopfieldClassifier._label_one self (fun _ order => order) 1
    Examples.hopfield_stored [0%Q; 0%Q; 0%Q; 0%Q]
  = Some (Ok Examples.hopfield_stored).
Proof.
  intros self.
  assert (E : DiscreteHopfieldClassifier._label_one self (fun _ => reverse) 3
                Examples.hopfield_query [0%Q; 0%Q; 0%Q; 0%Q]
              = Some (Ok Examples.hopfield_stored))
    by (vm_compute; reflexivity).
  split; [exact E|].
  apply (label_one_fixed_point self (fun _ => reverse) (fun _ order => order)
           3 0 Examples.hopfield_query Examples.hopfield_stored
           [0%Q; 0%Q; 0%Q; 0%Q]).
  - intros k order. apply reverse_Permutation.
  - done.
  - exact E.
Defined.

(** ** DiscreteHopfieldClassifier: the weights that training stores *)

Section HopfieldHebb.
Import DiscreteHopfieldClassifier.
Implicit Types (self : state (F:=Q)) (w : list (list Q)).

Lemma entry_add_zero n w i j :
  square n w → (i < n)%nat → (j < n)%nat →
  entry (map (map (fun b => fadd (of_Z 0) b)) w) i j
  = fadd (of_Z 0) (entry w i j).
Proof.
  intros Hsq Hi Hj.
  destruct (square_lookup n w i j Hsq Hi Hj) as (row & v & Er & _ & Ev & ->).
  apply (entry_lookup _ i j (map (fun b => fadd (of_Z 0) b) row)).
  - by rewrite list_lookup_fmap, Er.
  - by rewrite list_lookup_fmap, Ev.
Qed.

Lemma entry_add n (a b : list (list Q)) i j :
  square n a → square n b → (i < n)%nat → (j < n)%nat →
  entry (zip_with (zip_with fadd) a b) i j
  = fadd (entry a i j) (entry b i j).
Proof.
  intros Hsa Hsb Hi Hj.
  destruct (square_lookup n a i j Hsa Hi Hj) as (ra & va & Era & _ & Eva & ->).
  destruct (square_lookup n b i j Hsb Hi Hj) as (rb & vb & Erb & _ & Evb & ->).
  apply (entry_lookup _ i j (zip_with fadd ra rb)).
  - by rewrite lookup_zip_with, Era, Erb.
  - by rewrite lookup_zip_with, Eva, Evb.
Qed.

Lemma hebbian_cons n (p : list bool) (patterns : list (list bool)) i j :
  hebbian n (p :: patterns) i j
  = (nth i (bool_to_sign p) 0 * nth j (bool_to_sign p) 0
     / inject_Z (Z.of_nat n) + hebbian n patterns i j)%Q.
Proof. reflexivity. Qed.

(** The entries of the matrix that one pattern adds. *)
Lemma scaled_outer_entry n (p : list bool) i j :
  length p = n → (i < n)%nat → (j < n)%nat →
  let scaled :=
    map (map (fun a : Q => fdiv a (of_Z (Z.of_nat n))))
        (outer (bool_to_sign p) (bool_to_sign p)) in
  square n scaled ∧
  entry scaled i j
  = (nth i (bool_to_sign p) 0 * nth j (bool_to_sign p) 0
     / inject_Z (Z.of_nat n))%Q.
Proof.
  intros Hp Hi Hj. cbn zeta.
  destruct (outer_trained (bool_to_sign p) (of_Z (Z.of_nat n))) as [Hsq He].
  rewrite length_bool_to_sign, Hp in Hsq, He. split; [done|].
  by rewrite He.
Qed.

(** Training from a matrix that is there adds the sum of Hebb's rule to
    every entry. *)
Lemma train_entries n (patterns : list (list bool)) : ∀ self w,
  trained n self → _weight_matrix self = Matrix w →
  Forall (fun p => length p = n) patterns →
  ∃ w', _weight_matrix (_train self patterns) = Matrix w' ∧
        trained n (_train self patterns) ∧
        ∀ i j, (i < n)%nat → (j < n)%nat →
          (entry w' i j == entry w i j + hebbian n patterns i j)%Q.
Proof.
  induction patterns as [|p patterns IH]; intros self w Ht Ew Hps.
  - exists w. split; [done|]. split; [done|]. intros i j _ _.
    cbn [hebbian foldr]. ring.
  - apply Forall_cons in Hps as [Hp Hps].
    change (_train self (p :: patterns))
      with (_train (_train_one self p) patterns).
    pose proof Ht as (Hd & w0 & Ew0 & Hsq & _).
    assert (w0 = w) as -> by congruence.
    destruct (train_one_trained n self p Hd Hp (or_intror Ht)) as [Ht1 _].
    set (scaled :=
           map (map (fun a : Q => fdiv a (of_Z (Z.of_nat n))))
               (outer (bool_to_sign p) (bool_to_sign p))).
    assert (Ew1 : _weight_matrix (_train_one self p)
                  = Matrix (zip_with (zip_with fadd) w scaled)).
    { cbn [_train_one _weight_matrix]. by rewrite Ew, Hd. }
    destruct (IH _ _ Ht1 Ew1 Hps) as (w' & Ew' & Ht' & He').
    exists w'. split; [done|]. split; [done|]. intros i j Hi Hj.
    destruct (scaled_outer_entry n p i j Hp Hi Hj) as [Hsq2 He2].
    rewrite He' by done. fold scaled in Hsq2, He2.
    rewrite (entry_add n w scaled i j) by done. rewrite He2.
    rewrite hebbian_cons. cbn [fadd exactQ]. ring.
Qed.

(** Training stores the patterns by the rule of Hebb: after training a
    new memory of [n] units with at least one pattern, the weight between
    the units [i] and [j] is the sum over the patterns of the product of
    the two units' values (-1 or 1) divided by [n]; [_stop_training] then
    sets the weight of every unit to itself to 0 and leaves the others.
    The arithmetic is exact. *)
Theorem train_stores_hebbian_weights n self (patterns : list (list bool)) :
  _weight_matrix self = Zero → input_dim self = n →
  patterns ≠ [] → Forall (fun p => length p = n) patterns →
  ∃ w self' m,
    _weight_matrix (_train self patterns) = Matrix w ∧
    (∀ i j, (i < n)%nat → (j < n)%nat →
       (entry w i j == hebbian n patterns i j)%Q) ∧
    _stop_training (_train self patterns) = (Ok (), self') ∧
    _weight_matrix self' = Matrix m ∧
    (∀ i j, (i < n)%nat → (j < n)%nat →
       (entry m i j == if decide (i = j) then 0
                       else hebbian n patterns i j)%Q).
Proof.
  intros Ez Hd Hne Hps.
  destruct patterns as [|p patterns]; [done|].
  apply Forall_cons in Hps as [Hp Hps].
  destruct (train_one_trained n self p Hd Hp (or_introl Ez)) as [Ht1 _].
  set (scaled :=
         map (map (fun a : Q => fdiv a (of_Z (Z.of_nat n))))
             (outer (bool_to_sign p) (bool_to_sign p))).
  assert (Ew1 : _weight_matrix (_train_one self p)
                = Matrix (map (map (fun b => fadd (of_Z 0) b)) scaled)).
  { cbn [_train_one _weight_matrix]. by rewrite Ez, Hd. }
  destruct (train_entries n patterns _ _ Ht1 Ew1 Hps) as (w & Ew & Ht & He).
  change (_train self (p :: patterns))
    with (_train (_train_one self p) patterns).
  set (trained_self := _train (_train_one self p) patterns) in *.
  assert (Hw : ∀ i j, (i < n)%nat → (j < n)%nat →
            (entry w i j == hebbian n (p :: patterns) i j)%Q).
  { intros i j Hi Hj. rewrite He by done.
    destruct (scaled_outer_entry n p i j Hp Hi Hj) as [Hsq2 He2].
    fold scaled in Hsq2, He2.
    rewrite (entry_add_zero n scaled i j) by done. rewrite He2.
    rewrite hebbian_cons. cbn [fadd exactQ of_Z].
    change (inject_Z 0) with 0%Q. ring. }
  destruct Ht as (Hd' & w0 & Ew0 & Hsq & _).
  assert (w0 = w) as -> by congruence.
  destruct (zero_diagonal_loop_run (seq 0 n) trained_self w Ew)
    as (m & Erun & [Hlen Hoff] & Hz & _).
  { intros i [_ Hi]%elem_of_seq.
    destruct (square_lookup n w i i Hsq) as (row & v & Er & Hl & _);
      [lia|lia|]. exists row. split; [done|lia]. }
  exists w, (set_weight_matrix (Matrix m) trained_self), m.
  split; [done|]. split; [exact Hw|]. split.
  { unfold _stop_training, mbind, method_bind, get. by rewrite Hd'. }
  split; [done|]. intros i j Hi Hj. destruct (decide (i = j)) as [->|Hij].
  - destruct (Hz j) as (row & Er & Ev); [apply elem_of_seq; lia|].
    by rewrite (entry_lookup _ j j row (of_Z 0) Er Ev).
  - destruct (square_lookup n w i j Hsq Hi Hj) as (row & v & Er & _ & Ev & E).
    destruct (Hoff i row Er) as (row' & Er' & _ & Hsame).
    rewrite (entry_lookup _ i j row' v Er'); [|by rewrite Hsame].
    rewrite <- E. by apply Hw.
Qed.
End HopfieldHebb.

Lemma train_stores_hebbian_weights_witness :
  ∃ w self' m,
    DiscreteHopfieldClassifier._weight_matrix
      (DiscreteHopfieldClassifier._train
         (DiscreteHopfieldClassifier.init (F:=Q) 4)
         [Examples.hopfield_stored; Examples.hopfield_query])
    = DiscreteHopfieldClassifier.Matrix w ∧
    DiscreteHopfieldClassifier._stop_training
      (DiscreteHopfieldClassifier._train
         (DiscreteHopfieldClassifier.init (F:=Q) 4)
         [Examples.hopfield_stored; Examples.hopfield_query])
    = (Ok (), self') ∧
    DiscreteHopfieldClassifier._weight_matrix self'
    = DiscreteHopfieldClassifier.Matrix m ∧
    (DiscreteHopfieldClassifier.entry w 0 1 == 0)%Q ∧
    (DiscreteHopfieldClassifier.entry m 2 3 == 1 # 2)%Q.
Proof.
  destruct (train_stores_hebbian_weights 4
              (DiscreteHopfieldClassifier.init 4)
              [Examples.hopfield_stored; Examples.hopfield_query])
    as (w & self' & m & Ew & Hw & Estop & Em & Hm);
    [reflexivity | reflexivity | discriminate | repeat constructor |].
  exists w, self', m. split; [done|]. split; [done|]. split; [done|]. split.
  - rewrite (Hw 0%nat 1%nat) by lia. vm_compute. reflexivity.
  - rewrite (Hm 2%nat 3%nat) by lia. vm_compute. reflexivity.
Defined.

(** ** DiscreteHopfieldClassifier: the recall of a batch *)

Section HopfieldStopDim.
Import DiscreteHopfieldClassifier.
Context {F : Type} `{Num F}.

End HopfieldStopDim.

Section HopfieldBatch.
Import DiscreteHopfieldClassifier.
Implicit Types (self : state (F:=Q)) (m : list (list Q)).



End HopfieldBatch.


(** ** DiscreteHopfieldClassifier: the recall of the stored pattern *)

Section HopfieldStored.
Import DiscreteHopfieldClassifier.
Implicit Types (self : state (F:=Q)) (m : list (list Q)) (s q : list Q).

(** [_stop_training] on a trained memory: the entries off the diagonal
    stay and those of the diagonal become 0. *)
Lemma stop_training_entries n self w :
  trained n self → _weight_matrix self = Matrix w →
  ∃ m, _stop_training self = (Ok (), set_weight_matrix (Matrix m) self) ∧
       square n m ∧
       ∀ i j, (i < n)%nat → (j < n)%nat →
         entry m i j = if decide (i = j) then 0%Q else entry w i j.
Proof.
  intros (Hd & w0 & Ew0 & Hsq & _) Ew.
  assert (w0 = w) as -> by congruence.
  destruct (zero_diagonal_loop_run (seq 0 n) self w Ew)
    as (m & Erun & [Hlen Hoff] & Hz & _).
  { intros i [_ Hi]%elem_of_seq.
    destruct (square_lookup n w i i Hsq) as (row & v & Er & Hl & _);
      [lia|lia|]. exists row. split; [done|lia]. }
  exists m. split.
  { unfold _stop_training, mbind, method_bind, get. by rewrite Hd. }
  split.
  - destruct Hsq as [Hlw Hrows]. apply square_intro; [congruence|].
    intros i row' Hi.
    destruct (lookup_lt_is_Some_2 w i) as [row Er].
    { apply lookup_lt_Some in Hi. lia. }
    destruct (Hoff i row Er) as (row'' & Hi' & Hl' & _).
    assert (row'' = row') as -> by congruence. rewrite Hl'.
    rewrite Forall_forall in Hrows. apply Hrows.
    by eapply list_elem_of_lookup_2.
  - intros i j Hi Hj. destruct (decide (i = j)) as [->|Hij].
    + destruct (Hz j) as (row & Er & Ev); [apply elem_of_seq; lia|].
      by apply (entry_lookup _ j j row).
    + destruct (square_lookup n w i j Hsq Hi Hj)
        as (row & v & Er & _ & Ev & ->).
      destruct (Hoff i row Er) as (row' & Er' & _ & Hsame).
      apply (entry_lookup _ i j row'); [done|]. by rewrite Hsame.
Qed.

Lemma sumprod_map_l (f : Q → Q) (c : Q) : ∀ s q,
  (∀ b, (f b == c * b)%Q) →
  (sumprod (map f s) q == c * sumprod s q)%Q.
Proof.
  intros s q Hf. revert q.
  induction s as [|a s IH]; intros [|b q]; cbn [map sumprod]; try ring.
  rewrite IH, Hf. ring.
Qed.

Lemma sumprod_scaled_r (c : Q) : ∀ s q,
  length q = length s →
  (∀ j, (j < length s)%nat → (nth j q 0 == c * nth j s 0)%Q) →
  (sumprod s q == c * sumprod s s)%Q.
Proof.
  induction s as [|a s IH]; intros [|b q] Hlen Hq; try done.
  - cbn [sumprod]. ring.
  - cbn [sumprod]. rewrite IH.
    + rewrite (Hq 0%nat) by (cbn [length]; lia). cbn [nth]. ring.
    + by injection Hlen.
    + intros j Hj. apply (Hq (S j)). cbn [length]. lia.
Qed.

Lemma sumprod_bipolar s :
  bipolar s → (sumprod s s == inject_Z (Z.of_nat (length s)))%Q.
Proof.
  unfold bipolar. induction 1 as [|a s Ha _ IH]; cbn [sumprod length].
  - reflexivity.
  - rewrite IH, Nat2Z.inj_succ, <- Z.add_1_l, inject_Z_plus.
    destruct Ha as [->| ->]; ring.
Qed.

Lemma bipolar_nth s j :
  bipolar s → (j < length s)%nat → nth j s 0%Q = 1%Q ∨ nth j s 0%Q = (-1)%Q.
Proof.
  unfold bipolar. rewrite Forall_forall. intros Hb Hj. apply Hb.
  apply list_elem_of_In, nth_In. lia.
Qed.

(** The row of a unit in the matrix of one stored pattern. *)
Lemma single_pattern_row n self (p : list bool) r :
  _weight_matrix self = Zero → input_dim self = n → length p = n →
  (r < n)%nat →
  ∃ m, _stop_training (_train self [p])
       = (Ok (), set_weight_matrix (Matrix m) (_train self [p])) ∧
       length m = n ∧
       nth r m []
       = <[r := 0%Q]>
           (map (fun b : Q =>
                   (0 + nth r (bool_to_sign p) 0 * b
                        / inject_Z (Z.of_nat n))%Q)
                (bool_to_sign p)).
Proof.
  intros Ez Hd Hp Hr.
  destruct (train_one_trained n self p Hd Hp (or_introl Ez)) as [Ht1 _].
  set (s := bool_to_sign (F:=Q) p).
  set (scaled :=
         map (map (fun a : Q => fdiv a (of_Z (Z.of_nat n)))) (outer s s)).
  assert (Ew1 : _weight_matrix (_train_one self p)
                = Matrix (map (map (fun b => fadd (of_Z 0) b)) scaled)).
  { cbn [_train_one _weight_matrix]. by rewrite Ez, Hd. }
  change (_train self [p]) with (_train_one self p).
  destruct (stop_training_entries n _ _ Ht1 Ew1) as (m & Estop & Hsq & He).
  exists m. split; [done|]. split; [by destruct Hsq|].
  assert (Hs : length s = n) by (unfold s; by rewrite length_bool_to_sign).
  destruct (square_lookup n m r r Hsq Hr Hr) as (row & _ & Er & Hlrow & _).
  rewrite (nth_lookup_Some _ _ _ _ Er).
  apply (nth_ext _ _ 0%Q 0%Q).
  { by rewrite length_insert, length_map, Hs. }
  intros j Hj. rewrite Hlrow in Hj.
  assert (Hentry : entry m r j = nth j row 0%Q).
  { unfold entry. by rewrite (nth_lookup_Some _ _ _ _ Er). }
  rewrite <- Hentry, He by done.
  destruct (decide (r = j)) as [<-|Hne].
  - symmetry. apply nth_lookup_Some, list_lookup_insert_eq.
    by rewrite length_map, Hs.
  - destruct (scaled_outer_entry n p r j Hp Hr Hj) as [Hsq2 He2].
    fold s scaled in Hsq2, He2.
    rewrite (entry_add_zero n scaled r j) by done. rewrite He2.
    destruct (lookup_lt_is_Some_2 s j) as [b Eb]; [lia|].
    symmetry. apply nth_lookup_Some.
    rewrite list_lookup_insert_ne by done.
    rewrite list_lookup_fmap, Eb. cbn [fmap option_fmap option_map].
    by rewrite (nth_lookup_Some _ _ _ _ Eb).
Qed.

(** No visit of a unit changes the stored pattern or its negative. *)
Lemma single_pattern_stable n m (p : list bool) (c : Q) q r :
  length p = n → (r < n)%nat → length m = n →
  nth r m []
  = <[r := 0%Q]>
      (map (fun b : Q =>
              (0 + nth r (bool_to_sign p) 0 * b / inject_Z (Z.of_nat n))%Q)
           (bool_to_sign p)) →
  bipolar q → length q = n →
  (∀ j, (j < n)%nat → (nth j q 0 == c * nth j (bool_to_sign p) 0)%Q) →
  update_unit m (replicate n 0%Q) (q, true) r = Ok (q, true).
Proof.
  intros Hp Hr Hm Hrow Hb Hq Hc.
  set (s := bool_to_sign (F:=Q) p) in *.
  assert (Hs : length s = n) by (unfold s; by rewrite length_bool_to_sign).
  assert (Hbs : bipolar s) by apply bool_to_sign_bipolar.
  set (u := map (fun b : Q =>
                   (0 + nth r s 0 * b / inject_Z (Z.of_nat n))%Q) s) in *.
  assert (Hu : length u = n) by (unfold u; by rewrite length_map).
  assert (Eth : index (replicate n 0%Q) r = Ok 0%Q).
  { unfold index. by rewrite lookup_replicate_2. }
  unfold update_unit. rewrite (index_nth m r []) by lia.
  cbn [mbind result_bind bind]. rewrite Eth.
  cbn [mbind result_bind bind]. unfold np_dot.
  rewrite Hrow, length_insert, Hu, Hq, Nat.eqb_refl.
  cbn [mbind result_bind bind]. rewrite (index_nth q r 0%Q) by lia.
  cbn [mbind result_bind bind].
  set (x := fsub (dot (<[r := 0%Q]> u) q) 0%Q).
  assert (Hpos : (0 < inject_Z (Z.of_nat n))%Q).
  { rewrite <- (Zlt_Qlt 0). lia. }
  assert (Hx : (x == nth r q 0%Q * (1 - 1 / inject_Z (Z.of_nat n)))%Q).
  { unfold x. cbn [fsub exactQ]. rewrite dot_sumprod.
    rewrite sumprod_insert_l by (try lia; congruence).
    unfold u at 1.
    rewrite (sumprod_map_l _ (nth r s 0 / inject_Z (Z.of_nat n))%Q)
      by (intros b; field; lra).
    rewrite (sumprod_scaled_r c s q) by (rewrite ?Hs; auto; congruence).
    rewrite (sumprod_bipolar s Hbs), Hs.
    unfold u. rewrite nth_map_Q by lia. rewrite (Hc r Hr).
    destruct (bipolar_nth s r Hbs) as [-> | ->]; [lia| |]; field; lra. }
  assert (Hfrac : (0 <= 1 - 1 / inject_Z (Z.of_nat n))%Q).
  { assert (1 / inject_Z (Z.of_nat n) <= 1)%Q; [|lra].
    apply Qle_shift_div_r; [done|]. rewrite Qmult_1_l.
    rewrite <- (Zle_Qle 1). lia. }
  change (of_Z 0 : Q) with 0%Q.
  destruct (bipolar_nth q r Hb) as [Ecur|Ecur]; [lia| |];
    rewrite Ecur in Hx |- *;
    destruct (sign_Q x) as [[Hneg ->]|[[Hp' ->]|[Hzero ->]]];
    try reflexivity; exfalso; nra.
Qed.

(** A memory that has stored one pattern recalls it as it is, and so its
    negative: with the thresholds 0 the first pass, in whatever order,
    changes no unit of either.  The arithmetic is exact. *)
Theorem stored_pattern_recalled (dim : nat) self (p : list bool)
    (shuffle : nat → list nat → list nat) (fuel : nat) :
  _weight_matrix self = Zero → input_dim self = dim → length p = dim →
  (∀ k order, shuffle k order ≡ₚ order) →
  ∃ self',
    _stop_training (_train self [p]) = (Ok (), self') ∧
    _label_one self' shuffle (S fuel) p (replicate dim 0%Q)
    = Some (Ok p) ∧
    _label_one self' shuffle (S fuel) (map negb p) (replicate dim 0%Q)
    = Some (Ok (map negb p)).
Proof.
  intros Ez Hd Hp Hs.
  assert (Hstop : ∃ m,
            _stop_training (_train self [p])
            = (Ok (), set_weight_matrix (Matrix m) (_train self [p])) ∧
            length m = dim ∧
            ∀ r, (r < dim)%nat →
              nth r m []
              = <[r := 0%Q]>
                  (map (fun b : Q =>
                          (0 + nth r (bool_to_sign p) 0 * b
                               / inject_Z (Z.of_nat dim))%Q)
                       (bool_to_sign p))).
  { destruct dim as [|dim'].
    - apply nil_length_inv in Hp. subst p. exists [].
      split; [|split; [done|intros r Hr; lia]].
      unfold _stop_training, mbind, method_bind, get.
      cbn [_train fold_left _train_one input_dim]. rewrite Hd.
      cbn [for_each seq]. unfold mret, method_ret. f_equal.
      unfold set_weight_matrix.
      cbn [input_dim _weight_matrix _num_patterns _shuffled_update].
      unfold _train_one at 1. cbn [input_dim _num_patterns _shuffled_update].
      by rewrite Ez.
    - destruct (single_pattern_row (S dim') self p 0 Ez Hd Hp)
        as (m & Estop & Hm & _); [lia|].
      exists m. split; [done|]. split; [done|]. intros r Hr.
      destruct (single_pattern_row (S dim') self p r Ez Hd Hp Hr)
        as (m' & Estop' & _ & Hrow).
      rewrite Estop in Estop'. injection Estop' as <-. exact Hrow. }
  destruct Hstop as (m & Estop & Hm & Hrows).
  eexists. split; [exact Estop|].
  assert (Hrecall : ∀ (t : list bool) (c : Q),
            length t = dim →
            (∀ j, (j < dim)%nat →
               (nth j (bool_to_sign t) 0
                == c * nth j (bool_to_sign p) 0)%Q) →
            _label_one (set_weight_matrix (Matrix m) (_train self [p]))
              shuffle (S fuel) t (replicate dim 0%Q) = Some (Ok t)).
  { intros t c Ht Hc. unfold _label_one.
    cbn [set_weight_matrix _weight_matrix relax].
    rewrite one_pass_stable.
    - f_equal. f_equal. unfold sign_to_bool, bool_to_sign.
      rewrite <- list_fmap_compose. rewrite <- (list_fmap_id t) at 2.
      apply list_fmap_ext. by intros i [|] _.
    - intros r Hr.
      assert (Hlt : (r < dim)%nat).
      { revert Hr. unfold iter_order_of. rewrite Hm.
        destruct (_shuffled_update _); [rewrite Hs|];
          intros ?%elem_of_seq; lia. }
      apply (single_pattern_stable dim m p c); auto.
      + apply bool_to_sign_bipolar.
      + by rewrite length_bool_to_sign. }
  split.
  - apply (Hrecall p 1%Q Hp). intros j _. ring.
  - apply (Hrecall (map negb p) (-1)%Q); [by rewrite length_map|].
    intros j Hj. unfold bool_to_sign.
    destruct (lookup_lt_is_Some_2 p j) as [b Eb]; [lia|].
    rewrite (nth_lookup_Some (map _ (map negb p)) j 0%Q
               (if negb b then of_Z 1 else of_Z (-1))).
    2:{ by rewrite !list_lookup_fmap, Eb. }
    rewrite (nth_lookup_Some (map _ p) j 0%Q
               (if b then of_Z 1 else of_Z (-1))).
    2:{ by rewrite list_lookup_fmap, Eb. }
    destruct b; cbn [negb of_Z exactQ]; ring.
Qed.
End HopfieldStored.

Lemma stored_pattern_recalled_witness :
  ∃ self',
    DiscreteHopfieldClassifier._stop_training
      (DiscreteHopfieldClassifier._train
         (DiscreteHopfieldClassifier.init (F:=Q) 4)
         [Examples.hopfield_stored])
    = (Ok (), self') ∧
    DiscreteHopfieldClassifier._label_one self' (fun _ => reverse) 1
      Examples.hopfield_stored (replicate 4 0%Q)
    = Some (Ok Examples.hopfield_stored).
Proof.
  destruct (stored_pattern_recalled 4 (DiscreteHopfieldClassifier.init 4)
              Examples.hopfield_stored (fun _ => reverse) 0)
    as (self' & Estop & E & _).
  - reflexivity.
  - reflexivity.
  - reflexivity.
  - intros k order. apply reverse_Permutation.
  - exists self'. by split.
Defined.

(** ** DiscreteHopfieldClassifier: the energy of the recalled pattern *)

Section HopfieldEnergyRecall.
Import DiscreteHopfieldClassifier.
Implicit Types (self : state (F:=Q)) (m : list (list Q)).

(** The relaxation ends at its start or at a pattern of lower energy. *)
Lemma relax_energy n self shuffle m threshold :
  relaxable n m threshold →
  (∀ k r, r ∈ iter_order_of self shuffle m k → (r < n)%nat) →
  ∀ (fuel k : nat) (p final : list Q),
    pattern_of n p →
    relax self shuffle m threshold fuel k p = Some (Ok final) →
    pattern_of n final ∧
    (final = p ∨ (energy m threshold final < energy m threshold p)%Q).
Proof.
  intros Hm Hord. induction fuel as [|fuel IH]; intros k p final Hp E; [done|].
  cbn [relax] in E.
  destruct (one_pass_energy n m threshold (iter_order_of self shuffle m k)
              p true Hm Hp (Hord k))
    as (p' & f' & E' & Hp' & Hcases).
  rewrite E' in E. destruct f'.
  - injection E as <-. split; [done|].
    destruct Hcases as [[-> _]|[? _]]; [by left|done].
  - destruct (IH _ _ _ Hp' E) as [Hfin Hlow]. split; [done|]. right.
    destruct Hcases as [[_ ?]|[_ Hlt]]; [done|].
    destruct Hlow as [->|Hlt']; [done|lra].
Qed.

(** Recall never raises the energy: on a memory that has been trained
    and finalized, the pattern that [_label_one] returns is the query
    itself or a pattern of strictly lower energy under the weights and
    the thresholds.  The arithmetic is exact. *)
Theorem label_one_lowers_energy (dim : nat) self
    (patterns : list (list bool)) (shuffle : nat → list nat → list nat)
    (pattern : list bool) (threshold : list Q) :
  _weight_matrix self = Zero → input_dim self = dim →
  patterns ≠ [] → Forall (fun p => length p = dim) patterns →
  length pattern = dim → length threshold = dim →
  (∀ k order, shuffle k order ≡ₚ order) →
  ∃ self' m,
    _stop_training (_train self patterns) = (Ok (), self') ∧
    _weight_matrix self' = Matrix m ∧
    ∀ (fuel : nat) (recalled : list bool),
      _label_one self' shuffle fuel pattern threshold = Some (Ok recalled) →
      recalled = pattern ∨
      (energy m threshold (bool_to_sign recalled)
       < energy m threshold (bool_to_sign pattern))%Q.
Proof.
  intros Ez Hd Hne Hps Hp Ht Hs.
  destruct (stop_training_relaxable dim self patterns threshold
              Ez Hd Hne Hps Ht) as (self' & m & Estop & Em & _ & Hm).
  exists self', m. split; [done|]. split; [done|].
  intros fuel recalled. unfold _label_one. rewrite Em.
  destruct (relax self' shuffle m threshold fuel 0 (bool_to_sign pattern))
    as [[final|]|] eqn:E; [|done|done].
  intros [= <-].
  assert (Hlen : length m = dim) by (by destruct Hm as [[? _] _]).
  destruct (relax_energy dim self' shuffle m threshold Hm) with
    (fuel := fuel) (k := 0%nat) (p := bool_to_sign (F:=Q) pattern)
    (final := final) as [[Hb _] Hlow]; [| |done|].
  - intros k r. unfold iter_order_of. rewrite Hlen.
    destruct (_shuffled_update self'); [rewrite Hs|];
      intros ?%elem_of_seq; lia.
  - split; [apply bool_to_sign_bipolar | by rewrite length_bool_to_sign].
  - rewrite (bool_to_sign_to_bool final Hb).
    destruct Hlow as [->|Hlt]; [left|by right].
    unfold sign_to_bool, bool_to_sign.
    rewrite <- list_fmap_compose. rewrite <- (list_fmap_id pattern) at 2.
    apply list_fmap_ext. by intros i [|] _.
Qed.
End HopfieldEnergyRecall.

Lemma label_one_lowers_energy_witness :
  ∃ self' m,
    DiscreteHopfieldClassifier._stop_training
      (DiscreteHopfieldClassifier._train
         (DiscreteHopfieldClassifier.init (F:=Q) 4)
         [Examples.hopfield_stored])
    = (Ok (), self') ∧
    DiscreteHopfieldClassifier._weight_matrix self'
    = DiscreteHopfieldClassifier.Matrix m ∧
    (DiscreteHopfieldClassifier._label_one self' (fun _ => reverse) 3
       Examples.hopfield_query [0%Q; 0%Q; 0%Q; 0%Q]
     = Some (Ok Examples.hopfield_stored) →
     Examples.hopfield_stored = Examples.hopfield_query ∨
     (DiscreteHopfieldClassifier.energy m [0%Q; 0%Q; 0%Q; 0%Q]
        (bool_to_sign Examples.hopfield_stored)
      < DiscreteHopfieldClassifier.energy m [0%Q; 0%Q; 0%Q; 0%Q]
          (bool_to_sign Examples.hopfield_query))%Q).
Proof.
  destruct (label_one_lowers_energy 4 (DiscreteHopfieldClassifier.init 4)
              [Examples.hopfield_stored] (fun _ => reverse)
              Examples.hopfield_query [0%Q; 0%Q; 0%Q; 0%Q])
    as (self' & m & Estop & Em & Hlow).
  - reflexivity.
  - reflexivity.
  - discriminate.
  - repeat constructor.
  - reflexivity.
  - reflexivity.
  - intros k order. apply reverse_Permutation.
  - exists self', m. split; [done|]. split; [done|]. apply Hlow.
Defined.

(** ** KMeansClassifier: the data that training collects *)

Section KMeansData.
Import KMeansClassifier.
Context {F : Type} `{Num F} (norm : list F → F).
Implicit Types (self : state (F:=F)) (rows : list (list F)).

(** Cutting the entries of rows of equal length gives the rows back. *)
Lemma chunks_concat dim rows :
  Forall (fun row => length row = dim) rows →
  chunks (length rows) dim (concat rows) = rows ∧
  length (concat rows) = (length rows * dim)%nat.
Proof.
  induction 1 as [|row rows Hrow _ [IH1 IH2]]; [done|].
  cbn [length chunks concat]. split.
  - rewrite take_app_length', drop_app_length' by done. by rewrite IH1.
  - rewrite length_app, IH2, Hrow. lia.
Qed.

(** The calls of [_train] add the rows to the list, entry by entry, and
    their number to [tlen]. *)
Lemma train_batches (batches : list (list (list F))) : ∀ self l,
  data self = PyList l →
  for_each batches _train self
  = (Ok (),
     {| input_dim := input_dim self; _num_clusters := _num_clusters self;
        data := PyList (l ++ concat (concat batches));
        tlen := tlen self + length (concat batches);
        _centroids := _centroids self; max_iter := max_iter self |}).
Proof.
  induction batches as [|x batches IH]; intros self l El.
  - cbn [for_each concat length]. unfold mret, method_ret. f_equal.
    rewrite app_nil_r, Nat.add_0_r. destruct self; simpl in *. by subst.
  - cbn [for_each]. unfold mbind at 1, method_bind at 1.
    unfold _train at 1. unfold mbind, method_bind, get, put.
    cbn [data]. rewrite El. cbn [set_data].
    rewrite (IH _ (l ++ concat x)) by done.
    unfold set_data.
    cbn [input_dim _num_clusters tlen _centroids max_iter data concat].
    rewrite length_app, concat_app, <- app_assoc.
    f_equal. f_equal. lia.
Qed.

(** [_stop_training] leaves the rows it has cut the data into, whether it
    returns or raises afterwards. *)
Lemma stop_training_data self rows (centr_idx : list nat) :
  reshape (tlen self) (input_dim self) (entries (data self)) = Ok rows →
  data (_stop_training norm centr_idx self).2 = Rows rows.
Proof.
  intros Hreshape. unfold _stop_training.
  unfold mbind, method_bind, get, put, lift, mret, method_ret.
  rewrite Hreshape. cbn [_centroids set_data max_iter].
  unfold mbind, result_bind, bind.
  repeat case_match; simplify_eq; done.
Qed.

(** The data survive training: after calls of [_train] on batches of rows
    of [dim] entries, a new classifier of dimension [dim] has counted the
    rows, and [_stop_training] cuts the list of entries it has collected
    into exactly the rows of the batches, in their order; it leaves them in
    [data] whether it returns or raises afterwards. *)
Theorem stop_training_recovers_rows (num_clusters max_iter dim : nat)
    (batches : list (list (list F))) (centr_idx : list nat) :
  Forall (Forall (fun row => length row = dim)) batches →
  ∃ self,
    for_each batches _train (init num_clusters max_iter dim) = (Ok (), self) ∧
    tlen self = length (concat batches) ∧
    data (_stop_training norm centr_idx self).2 = Rows (concat batches).
Proof.
  intros Hrows. eexists. split; [by apply (train_batches batches _ [])|].
  cbn [tlen init Nat.add]. split; [done|]. apply stop_training_data.
  cbn [tlen init input_dim data entries app Nat.add].
  assert (Hall : Forall (fun row => length row = dim) (concat batches)).
  { apply Forall_concat. exact Hrows. }
  destruct (chunks_concat dim (concat batches) Hall) as [Hchunks Hlen].
  unfold reshape. rewrite Hlen, Nat.eqb_refl. by rewrite Hchunks.
Qed.
End KMeansData.

Lemma stop_training_recovers_rows_witness :
  ∃ self : KMeansClassifier.state (F:=float),
    for_each [[[of_Z 0]; [of_Z 1]]; [[of_Z 10]]] KMeansClassifier._train
      (KMeansClassifier.init 2 1 1) = (Ok (), self) ∧
    KMeansClassifier.tlen self = 3%nat ∧
    KMeansClassifier.data
      (KMeansClassifier._stop_training Examples.euclid [0%nat; 1%nat] self).2
    = KMeansClassifier.Rows [[of_Z 0]; [of_Z 1]; [of_Z 10]].
Proof.
  apply (stop_training_recovers_rows Examples.euclid 2 1 1
           [[[of_Z 0]; [of_Z 1]]; [[of_Z 10]]] [0%nat; 1%nat]).
  repeat constructor.
Defined.

(** ** KMeansClassifier: the labels and the centroids of a converged run *)

Lemma mapM_ok_elem {A B} (f : A → result B) (l : list A) (l' : list B) :
  mapM f l = Ok l' → ∀ b, b ∈ l' → ∃ a, a ∈ l ∧ f a = Ok b.
Proof.
  revert l'. induction l as [|a l IH]; intros l' E b Hb; simpl in E.
  - injection E as <-. by apply elem_of_nil in Hb.
  - destruct (f a) as [b0|e] eqn:Ea; simpl in E; [|discriminate].
    destruct (mapM f l) as [l0|e] eqn:El; simpl in E; [|discriminate].
    injection E as <-. apply elem_of_cons in Hb as [->|Hb].
    + exists a. split; [left|done].
    + destruct (IH l0 eq_refl b Hb) as (a' & Ha' & Ea').
      exists a'. split; [by right|done].
Qed.

Section KMeansConverged.
Import KMeansClassifier.
Variable norm : list Q → Q.
Implicit Types (self : state (F:=Q)) (rows cs : list (list Q)).

(** [_label] with centroids: for every row of the batch the index of a
    centroid, the first one among those at the smallest distance from the
    row.  The arithmetic is exact and the norm is any function. *)
Theorem label_nearest_centroid self cs (x : list (list Q)) :
  _centroids self = Some cs → cs ≠ [] →
  ∃ labels,
    _label norm self x = Ok labels ∧ length labels = length x ∧
    ∀ i xi, x !! i = Some xi →
      ∃ k, labels !! i = Some k ∧ (k < length cs)%nat ∧
           first_minimum (map (fun c => norm (vsub xi c)) cs) k.
Proof.
  intros Ec Hne. unfold _label. rewrite Ec. cbn [_nearest_centroid_idx].
  destruct (mapM_lookup_ok (fun xi => nearest_idx norm xi cs) x)
    as (labels & El & Hlen & Hl).
  { intros i xi _. by destruct (nearest_idx_ok norm xi cs Hne) as [k ->]. }
  exists labels. split; [done|]. split; [done|].
  intros i xi Hi. destruct (Hl i xi Hi) as (k & Ek & Hk).
  exists k. split; [done|]. split.
  - by eapply nearest_idx_bound.
  - by apply nearest_idx_first_minimum.
Qed.

(** One step: the new centroids, in exact arithmetic. *)
Lemma lloyd_step_exact (dim : nat) rows cs :
  cs ≠ [] → Forall (fun x => length x = dim) rows →
  ∃ new,
    lloyd_step norm rows cs = Ok new ∧ length new = length cs ∧
    ∀ k c, cs !! k = Some c →
      ∃ c', new !! k = Some c' ∧
        (assigned_to norm cs k rows = [] → c' = c) ∧
        (assigned_to norm cs k rows ≠ [] →
         Forall2 Qeq c' (mean dim (assigned_to norm cs k rows))).
Proof.
  intros Hne Hrows. unfold lloyd_step.
  destruct (cluster_spec norm cs rows (replicate (length cs) (None, of_Z 0)))
    as (sums & Esums & Hlen & Hsums); [by rewrite length_replicate | done |].
  rewrite length_replicate in Hlen.
  rewrite Esums. cbn [mbind result_bind bind].
  assert (Hpos : ∀ k c e, cs !! k = Some c → sums !! k = Some e →
            ∃ c', new_position cs k e = Ok c' ∧
              (assigned_to norm cs k rows = [] → c' = c) ∧
              (assigned_to norm cs k rows ≠ [] →
               Forall2 Qeq c' (mean dim (assigned_to norm cs k rows)))).
  { intros k c e Hk He. pose proof (lookup_lt_Some _ _ _ Hk) as Hklt.
    rewrite (Hsums k (None, of_Z 0)) in He by (by apply lookup_replicate_2).
    injection He as <-. cbn [fst snd].
    assert (Hsub : Forall (fun x => length x = dim)
                     (assigned_to norm cs k rows)).
    { unfold assigned_to. rewrite Forall_forall in Hrows.
      apply Forall_forall. intros x [_ Hx]%list_elem_of_filter. auto. }
    destruct (assigned_to norm cs k rows) as [|x samples] eqn:Ea.
    - cbn [fold_left]. exists c. split; [|by split].
      apply (new_position_empty cs k c Hk).
    - destruct (new_position_mean cs k dim x samples Hsub)
        as (c' & Ec' & Hmean).
      exists c'. by repeat split. }
  destruct (mapM_lookup_ok (fun '(idx, c) => new_position cs idx c)
              (zip (seq 0 (length sums)) sums))
    as (new & Enew & Hnewlen & Hnew).
  { intros i [idx e] Hi. apply lookup_zip_Some in Hi as [Hidx He].
    apply lookup_seq in Hidx as [-> Hilt]. cbn [Nat.add].
    destruct (lookup_lt_is_Some_2 cs i) as [c Hc]; [lia|].
    by destruct (Hpos i c e Hc He) as (c' & -> & _). }
  exists new. split; [done|]. split.
  - rewrite Hnewlen, length_zip, length_seq. lia.
  - intros k c Hk. pose proof (lookup_lt_Some _ _ _ Hk) as Hklt.
    destruct (lookup_lt_is_Some_2 sums k) as [e He]; [lia|].
    destruct (Hpos k c e Hk He) as (c' & Ec' & Hprop).
    exists c'. split; [|done].
    destruct (Hnew k (k, e)) as (b & Eb & Hb).
    { apply lookup_zip_Some. split; [|done].
      apply lookup_seq. split; [done|lia]. }
    rewrite Hb. cbn beta iota in Eb. congruence.
Qed.

Lemma mean_length dim (samples : list (list Q)) :
  length (mean dim samples) = dim.
Proof. unfold mean. by rewrite length_map, length_seq. Qed.

(** A step keeps the length of the centroids. *)
Lemma lloyd_step_lengths (dim : nat) rows cs new :
  cs ≠ [] → Forall (fun x => length x = dim) rows →
  Forall (fun c => length c = dim) cs →
  lloyd_step norm rows cs = Ok new →
  new ≠ [] ∧ Forall (fun c => length c = dim) new.
Proof.
  intros Hne Hrows Hcs Enew.
  destruct (lloyd_step_exact dim rows cs Hne Hrows) as (new' & E & Hlen & Hk).
  assert (new' = new) as -> by congruence. split.
  - intros ->. destruct cs; [done|]. discriminate Hlen.
  - apply Forall_forall. intros c' [k Hc']%list_elem_of_lookup.
    destruct (lookup_lt_is_Some_2 cs k) as [c Hc].
    { apply lookup_lt_Some in Hc'. lia. }
    destruct (Hk k c Hc) as (c'' & Ec'' & Hempty & Hmean).
    assert (c'' = c') as -> by congruence.
    rewrite Forall_forall in Hcs.
    destruct (assigned_to norm cs k rows) as [|x samples] eqn:Ea.
    + rewrite Hempty by done. apply Hcs. by eapply list_elem_of_lookup_2.
    + rewrite (Forall2_length _ _ _ (Hmean ltac:(done))).
      apply mean_length.
Qed.

(** The loop returns from inside with centroids that a step leaves as
    they are. *)
Lemma iterate_stable (dim : nat) rows (steps : nat) : ∀ cs stable,
  cs ≠ [] → Forall (fun x => length x = dim) rows →
  Forall (fun c => length c = dim) cs →
  iterate norm steps rows cs = Ok (Some stable) →
  stable ≠ [] ∧ Forall (fun c => length c = dim) stable ∧
  ∃ new, lloyd_step norm rows stable = Ok new ∧
         all_equal new stable = true.
Proof.
  induction steps as [|steps IH]; intros cs stable Hne Hrows Hcs E; [done|].
  cbn [iterate] in E.
  destruct (lloyd_step norm rows cs) as [new|e] eqn:Enew; [|done].
  cbn [mbind result_bind bind] in E.
  destruct (all_equal new cs) eqn:Eeq.
  - injection E as <-. split; [done|]. split; [done|]. by exists new.
  - destruct (lloyd_step_lengths dim rows cs new Hne Hrows Hcs Enew)
      as [Hne' Hnew].
    by apply (IH new).
Qed.

Lemma iterate_no_centroids rows (steps : nat) stable :
  iterate norm steps rows [] = Ok (Some stable) → stable = [].
Proof.
  revert stable. induction steps as [|steps IH]; intros stable E; [done|].
  cbn [iterate] in E.
  destruct (lloyd_step norm rows []) as [new|e] eqn:Enew; [|done].
  cbn [mbind result_bind bind] in E.
  destruct (all_equal new []); [by injection E as <-|].
  assert (new = []) as ->; [|by apply IH].
  unfold lloyd_step in Enew.
  destruct (cluster norm [] rows (replicate (length []) (None, of_Z 0)))
    as [sums|] eqn:Es; [|done].
  cbn [mbind result_bind bind] in Enew.
  assert (sums = []) as ->.
  { destruct rows as [|x rows]; cbn [cluster length replicate] in Es.
    - by injection Es as <-.
    - unfold nearest_idx, argmin in Es. cbn in Es. discriminate. }
  by injection Enew as <-.
Qed.

(** Arrays that compare equal have equal entries. *)
Lemma all_equal_lookup (a b : list (list Q)) k u v :
  all_equal a b = true → a !! k = Some u → b !! k = Some v →
  length u = length v → Forall2 Qeq u v.
Proof.
  unfold all_equal. intros Hall Hu Hv Hlen.
  rewrite forallb_forall in Hall.
  specialize (Hall (u, v)). cbn beta iota in Hall.
  assert (Hin : In (u, v) (zip a b)).
  { apply list_elem_of_In, list_elem_of_lookup. exists k.
    by apply lookup_zip_Some. }
  specialize (Hall Hin). rewrite forallb_forall in Hall.
  apply Forall2_same_length_lookup_2; [done|].
  intros j p q Hp Hq. specialize (Hall (p, q)). cbn beta iota in Hall.
  apply Qeq_bool_iff, Hall, list_elem_of_In, list_elem_of_lookup.
  exists j. by apply lookup_zip_Some.
Qed.

Lemma chunks_lengths (n dim : nat) : ∀ flat : list Q,
  length flat = (n * dim)%nat →
  length (chunks n dim flat) = n ∧
  Forall (fun row => length row = dim) (chunks n dim flat).
Proof.
  induction n as [|n IH]; intros flat Hlen; [done|].
  cbn [chunks length]. destruct (IH (drop dim flat)) as [IH1 IH2].
  { rewrite length_drop. lia. }
  split; [by rewrite IH1|]. constructor; [|done].
  rewrite length_take. lia.
Qed.

(** The centroids of a run that has converged are means: when
    [_stop_training] of a classifier without centroids returns and has
    assigned [_centroids], the data have been cut into [tlen] rows, and
    every centroid to which rows are assigned, each row to the first
    centroid at the smallest distance, is the mean of these rows.  The
    arithmetic is exact and the norm is any function. *)
Theorem stop_training_converged_means self self' (centr_idx : list nat) cs :
  _centroids self = None →
  _stop_training norm centr_idx self = (Ok (), self') →
  _centroids self' = Some cs →
  ∃ rows,
    data self' = Rows rows ∧ length rows = tlen self ∧
    ∀ k c, cs !! k = Some c →
      assigned_to norm cs k rows ≠ [] →
      Forall2 Qeq c (mean (input_dim self) (assigned_to norm cs k rows)).
Proof.
  intros Hc E Hc'. unfold _stop_training in E.
  unfold mbind, method_bind, get, put, lift, mret, method_ret in E.
  destruct (reshape (tlen self) (input_dim self) (entries (data self)))
    as [rows|e] eqn:Hreshape; [|done].
  cbn [_centroids set_data max_iter] in E. rewrite Hc in E.
  destruct (sample_centroids (set_data (Rows rows) self) rows centr_idx)
    as [cs0|e] eqn:Esample; [|done].
  destruct (iterate norm (max_iter self) rows cs0) as [[stable|]|e] eqn:Eit;
    [| |done]; injection E as <-; cbn [set_centroids _centroids] in Hc'.
  2:{ cbn [set_data _centroids] in Hc'. congruence. }
  injection Hc' as ->.
  unfold reshape in Hreshape.
  destruct (length (entries (data self)) =? tlen self * input_dim self)%nat
    eqn:Elen; [|done].
  apply Nat.eqb_eq in Elen. injection Hreshape as <-.
  destruct (chunks_lengths _ _ _ Elen) as [Hn Hrows].
  set (rows := chunks (tlen self) (input_dim self) (entries (data self))) in *.
  exists rows. split; [done|]. split; [done|].
  intros k c Hk Hassigned.
  assert (Hcs0 : Forall (fun c => length c = input_dim self) cs0).
  { unfold sample_centroids in Esample.
    destruct (_ <? _)%nat; [done|].
    apply Forall_forall. intros c0 Hc0.
    destruct (mapM_ok_elem _ _ _ Esample c0 Hc0) as (i & _ & Ei).
    unfold index in Ei. destruct (rows !! i) as [row|] eqn:Erow; [|done].
    injection Ei as <-. rewrite Forall_forall in Hrows. apply Hrows.
    by eapply list_elem_of_lookup_2. }
  destruct (decide (cs0 = [])) as [->|Hne0].
  { apply iterate_no_centroids in Eit. subst cs. by destruct k. }
  destruct (iterate_stable (input_dim self) rows _ cs0 cs Hne0 Hrows Hcs0 Eit)
    as (Hne & Hcs & new & Enew & Heq).
  destruct (lloyd_step_exact (input_dim self) rows cs Hne Hrows)
    as (new' & Enew' & _ & Hnew).
  assert (new' = new) as -> by congruence.
  destruct (Hnew k c Hk) as (c' & Ec' & _ & Hmean).
  specialize (Hmean Hassigned).
  assert (Hcc : Forall2 Qeq c' c).
  { apply (all_equal_lookup new cs k); [done|done|done|].
    rewrite (Forall2_length _ _ _ Hmean), mean_length.
    rewrite Forall_forall in Hcs. symmetry. apply Hcs.
    by eapply list_elem_of_lookup_2. }
  apply Forall2_same_length_lookup_2.
  { rewrite <- (Forall2_length _ _ _ Hcc). by eapply Forall2_length. }
  intros j a b Ha Hb.
  destruct (Forall2_lookup_r _ _ _ _ _ Hcc Ha) as (a' & Ea' & Haa').
  destruct (Forall2_lookup_l _ _ _ _ _ Hmean Ea') as (b' & Eb' & Hab').
  assert (b' = b) as -> by congruence. by rewrite <- Haa'.
Qed.
End KMeansConverged.

Lemma stop_training_converged_means_witness :
  let stopped :=
    KMeansClassifier._stop_training Examples.sq_norm [0%nat; 1%nat]
      Examples.kmeans_exact in
  stopped.1 = Ok () ∧
  ∃ cs rows,
    KMeansClassifier._centroids stopped.2 = Some cs ∧
    KMeansClassifier.data stopped.2 = KMeansClassifier.Rows rows ∧
    length rows = 2%nat ∧
    ∀ k c, cs !! k = Some c →
      KMeansClassifier.assigned_to Examples.sq_norm cs k rows ≠ [] →
      Forall2 Qeq c
        (KMeansClassifier.mean 1
           (KMeansClassifier.assigned_to Examples.sq_norm cs k rows)).
Proof.
  intros stopped.
  assert (E : stopped = (Ok (), stopped.2)) by (vm_compute; reflexivity).
  split; [by rewrite E|].
  assert (Ec : KMeansClassifier._centroids stopped.2
               = Some [[0%Q]; [10%Q]]) by (vm_compute; reflexivity).
  destruct (stop_training_converged_means Examples.sq_norm
              Examples.kmeans_exact stopped.2 [0%nat; 1%nat]
              [[0%Q]; [10%Q]] eq_refl E Ec) as (rows & Hd & Hl & Hmeans).
  exists [[0%Q]; [10%Q]], rows. by repeat split.
Defined.

Lemma label_nearest_centroid_witness :
  let self :=
    (KMeansClassifier._stop_training Examples.sq_norm [0%nat; 1%nat]
       Examples.kmeans_exact).2 in
  ∃ labels,
    KMeansClassifier._label Examples.sq_norm self [[1%Q]; [7%Q]]
    = Ok labels ∧
    length labels = 2%nat.
Proof.
  intros self.
  destruct (label_nearest_centroid Examples.sq_norm self
              [[0%Q]; [10%Q]] [[1%Q]; [7%Q]])
    as (labels & El & Hlen & _).
  - vm_compute. reflexivity.
  - discriminate.
  - exists labels. by split.
Defined.

(** ** GaussianClassifierNode: the accumulators of the labels *)

Section GaussianTrain.
Import GaussianClassifierNode.
Context {F : Type} `{Num F} `{CovarianceMatrix F}.
Context {L : Type} `{Countable L}.
Implicit Types (self : state (F:=F) (L:=L)) (objs : gmap L cov_obj).

(** One call of [_update_covs]: the accumulator of the label, a new one
    when the label has none, is updated with the rows. *)
Lemma update_covs_inv (x : list (list F)) (lbl : L) self self' objs :
  cov_objs self = Some objs →
  _update_covs x lbl self = (Ok (), self') →
  ∃ obj',
    cov_update (default cov_new (objs !! lbl)) x = Ok obj' ∧
    self' = set_cov_objs (Some (<[lbl := obj']> objs)) self.
Proof.
  intros Eobjs. unfold _update_covs.
  intros (objs0 & s0 & [E0 ->]%attr_inv & E)%method_bind_inv.
  assert (objs0 = objs) as -> by congruence.
  apply method_bind_inv in E as ([] & s1 & E1 & E).
  destruct (decide (is_Some (objs !! lbl))) as [[obj Eobj]|Hnone].
  - injection E1 as <-.
    apply method_bind_inv in E as (objs1 & s1 & [E1 ->]%attr_inv & E).
    assert (objs1 = objs) as -> by congruence.
    apply method_bind_inv in E as (obj1 & s1 & [E1' ->]%lift_inv & E).
    rewrite Eobj in E1'. injection E1' as <-.
    apply method_bind_inv in E as (obj' & s1 & [Eu ->]%lift_inv & E).
    unfold mbind, method_bind, get, put in E. injection E as <-.
    exists obj'. by rewrite Eobj.
  - unfold mbind, method_bind, get, put in E1. injection E1 as <-.
    apply method_bind_inv in E as (objs1 & s1 & [E1 ->]%attr_inv & E).
    cbn [cov_objs set_cov_objs] in E1. injection E1 as <-.
    apply method_bind_inv in E as (obj1 & s1 & [E1' ->]%lift_inv & E).
    rewrite lookup_insert_eq in E1'. injection E1' as <-.
    apply method_bind_inv in E as (obj' & s1 & [Eu ->]%lift_inv & E).
    unfold mbind, method_bind, get, put in E. injection E as <-.
    exists obj'. split.
    + apply eq_None_not_Some in Hnone. by rewrite Hnone.
    + unfold set_cov_objs. cbn. by rewrite insert_insert_eq.
Qed.

(** The loop over the labels of a batch, each label once. *)
Lemma update_labels_inv (rows_of_label : L → list (list F))
    (lbls : list L) : ∀ self self' objs,
  NoDup lbls → cov_objs self = Some objs →
  for_each lbls (fun lbl => _update_covs (rows_of_label lbl) lbl) self
  = (Ok (), self') →
  ∃ objs',
    self' = set_cov_objs (Some objs') self ∧
    (∀ lbl, lbl ∈ lbls →
       ∃ obj', objs' !! lbl = Some obj' ∧
               cov_update (default cov_new (objs !! lbl))
                          (rows_of_label lbl) = Ok obj') ∧
    (∀ lbl, lbl ∉ lbls → objs' !! lbl = objs !! lbl).
Proof.
  induction lbls as [|lbl0 lbls IH]; intros self self' objs Hnd Eobjs E.
  - injection E as <-. exists objs. split; [|split].
    + destruct self; simpl in *. by subst.
    + by intros lbl ?%elem_of_nil.
    + done.
  - apply NoDup_cons in Hnd as [Hnotin Hnd].
    apply for_each_inv_cons in E as (s1 & E1 & E).
    destruct (update_covs_inv _ _ _ _ _ Eobjs E1) as (obj0 & Eu0 & ->).
    destruct (IH (set_cov_objs (Some (<[lbl0 := obj0]> objs)) self) self'
                 (<[lbl0 := obj0]> objs) Hnd eq_refl E)
      as (objs' & -> & Hin & Hout).
    exists objs'. split; [done|]. split.
    + intros lbl [->|Hl]%elem_of_cons.
      * exists obj0. split; [|done].
        by rewrite (Hout lbl0 Hnotin), lookup_insert_eq.
      * destruct (Hin lbl Hl) as (obj' & Eobj' & Eu).
        exists obj'. split; [done|].
        rewrite lookup_insert_ne in Eu; [done|]. by intros ->.
    + intros lbl Hl. apply not_elem_of_cons in Hl as [Hne Hl].
      by rewrite (Hout lbl Hl), lookup_insert_ne.
Qed.

(** A batch with a sequence of labels updates the accumulator of every
    label of the sequence once, with exactly the rows of the batch that
    carry the label, creating the accumulator of a label that is new;
    the accumulators of the other labels stay as they are, and the keys of
    [cov_objs] grow by the labels of the sequence. *)
Theorem train_updates_each_label (x : list (list F)) (ls : list L)
    self self' objs :
  cov_objs self = Some objs →
  _train x (LabelSeq ls) self = (Ok (), self') →
  ∃ objs',
    cov_objs self' = Some objs' ∧
    dom objs' = dom objs ∪ list_to_set ls ∧
    (∀ lbl, lbl ∈ ls →
       ∃ obj', objs' !! lbl = Some obj' ∧
               cov_update (default cov_new (objs !! lbl))
                          (compress lbl ls x) = Ok obj') ∧
    (∀ lbl, lbl ∉ ls → objs' !! lbl = objs !! lbl).
Proof.
  intros Eobjs E. cbn [_train] in E.
  destruct (update_labels_inv (fun lbl => compress lbl ls x)
              (elements (list_to_set ls : gset L)) self self' objs)
    as (objs' & -> & Hin & Hout); [apply NoDup_elements|done|done|].
  assert (Hel : ∀ lbl, lbl ∈ elements (list_to_set ls : gset L) ↔ lbl ∈ ls).
  { intros lbl. by rewrite elem_of_elements, elem_of_list_to_set. }
  exists objs'. split; [done|]. split; [|split].
  - apply set_eq. intros lbl.
    rewrite elem_of_union, !elem_of_dom, elem_of_list_to_set.
    destruct (decide (lbl ∈ ls)) as [Hl|Hl].
    + destruct (Hin lbl) as (obj' & -> & _); [by apply Hel|]. split; eauto.
    + rewrite (Hout lbl) by (by rewrite Hel). tauto.
  - intros lbl Hl. apply Hin. by apply Hel.
  - intros lbl Hl. apply Hout. by rewrite Hel.
Qed.
End GaussianTrain.

Lemma train_updates_each_label_witness :
  ∃ objs' : gmap Z (cov_obj (CovarianceMatrix:=Examples.running_cov)),
    GaussianClassifierNode.cov_objs Examples.gaussian_trained = Some objs' ∧
    dom objs' = (∅ : gset Z) ∪ list_to_set [0%Z; 0%Z; 1%Z; 1%Z].
Proof.
  destruct (train_updates_each_label (H0:=Examples.running_cov)
              [[1%Q]; [3%Q]; [10%Q]; [12%Q]] [0%Z; 0%Z; 1%Z; 1%Z]
              (GaussianClassifierNode.init 1) Examples.gaussian_trained ∅)
    as (objs' & Eobjs & Hdom & _).
  - reflexivity.
  - vm_compute. reflexivity.
  - exists objs'. split; [done|]. by rewrite Hdom, dom_empty_L.
Defined.

(** ** GaussianClassifierNode: what [_stop_training] stores *)

Section GaussianStop.
Import GaussianClassifierNode.
Context {F : Type} `{Num F} `{NumLib F} `{CovarianceMatrix F}.
Context {L : Type} `{Countable L}.
Variable label_le : L → L → Prop.
Context `{∀ a b, Decision (label_le a b)}.
Implicit Types (self : state (F:=F) (L:=L)) (objs : gmap L cov_obj).

Lemma append_inv {A} (field : state → option (list A))
    (set : option (list A) → state → state) (a : A) self self' :
  append field set a self = (Ok (), self') →
  ∃ l, field self = Some l ∧ self' = set (Some (l ++ [a])) self.
Proof.
  unfold append.
  intros (l & s1 & [El ->]%attr_inv & E)%method_bind_inv.
  unfold mbind, method_bind, get, put in E. injection E as <-. eauto.
Qed.

(** The body of the loop over the labels appends the number of the rows
    of the label to [p] and adds it to [nitems]. *)
Lemma fix_label_inv nitems lbl self nitems' self' ps objs :
  p self = Some ps → cov_objs self = Some objs →
  fix_label nitems lbl self = (Ok nitems', self') →
  ∃ c, fixed_count objs lbl c ∧ nitems' = fadd nitems c ∧
       p self' = Some (ps ++ [c]) ∧ cov_objs self' = Some objs ∧
       labels self' = labels self.
Proof.
  intros Ep Eobjs. unfold fix_label.
  intros (objs0 & s0 & [E0 ->]%attr_inv & E)%method_bind_inv.
  assert (objs0 = objs) as -> by congruence.
  apply method_bind_inv in E as (obj & s1 & [Eobj ->]%lift_inv & E).
  apply method_bind_inv in E as ([[cov mean] c] & s1 & [Efix ->]%lift_inv & E).
  apply method_bind_inv in E as ([] & s1 & (l1 & _ & ->)%append_inv & E).
  apply method_bind_inv in E as ([] & s2 & (l2 & _ & ->)%append_inv & E).
  apply method_bind_inv in E as ([] & s3 & (l3 & E3 & ->)%append_inv & E).
  cbn [p set_means set_sqrt_def_covs] in E3.
  rewrite Ep in E3. injection E3 as <-.
  apply method_bind_inv in E as (icov & s4 & [_ ->]%lift_inv & E).
  apply method_bind_inv in E as ([] & s5 & (l5 & _ & ->)%append_inv & E).
  injection E as <- <-. exists c. split.
  { exists obj, cov, mean. split; [|done].
    by destruct (objs !! lbl); [injection Eobj as ->|]. }
  by repeat split.
Qed.

Lemma fix_labels_inv (lbls : list L) : ∀ nitems self nitems' self' ps objs,
  p self = Some ps → cov_objs self = Some objs →
  fix_labels nitems lbls self = (Ok nitems', self') →
  ∃ counts,
    Forall2 (fixed_count objs) lbls counts ∧
    nitems' = fold_left fadd counts nitems ∧
    p self' = Some (ps ++ counts) ∧ labels self' = labels self.
Proof.
  induction lbls as [|lbl lbls IH];
    intros nitems self nitems' self' ps objs Ep Eobjs E.
  - injection E as <- <-. exists []. rewrite app_nil_r. by repeat split.
  - cbn [fix_labels] in E.
    apply method_bind_inv in E as (nit1 & s1 & E1 & E).
    destruct (fix_label_inv _ _ _ _ _ _ _ Ep Eobjs E1)
      as (c & Hc & -> & Ep1 & Eobjs1 & El1).
    destruct (IH _ _ _ _ _ _ Ep1 Eobjs1 E) as (counts & Hcs & -> & Ep' & El').
    exists (c :: counts). split; [by constructor|]. split; [done|].
    split; [by rewrite Ep', <- app_assoc | congruence].
Qed.

(** The loop that divides the entries of [p] by [nitems]. *)
Lemma normalize_inv nitems (todo : list F) : ∀ (done : list F) self self',
  p self = Some (done ++ todo) →
  for_each (seq (length done) (length todo)) (normalize_p nitems) self
  = (Ok (), self') →
  p self' = Some (done ++ map (fun c => fdiv c nitems) todo) ∧
  labels self' = labels self ∧
  (todo ≠ [] → feqb nitems fzero = false).
Proof.
  induction todo as [|c todo IH]; intros done self self' Ep E.
  - injection E as <-. by repeat split.
  - cbn [length seq] in E. apply for_each_inv_cons in E as (s1 & E1 & E).
    unfold normalize_p in E1.
    apply method_bind_inv in E1 as (ps & s0 & [Eps ->]%attr_inv & E1).
    assert (ps = done ++ c :: todo) as -> by congruence.
    apply method_bind_inv in E1 as (p_i & s0 & [Ei ->]%lift_inv & E1).
    unfold index in Ei. rewrite list_lookup_middle in Ei by done.
    injection Ei as <-.
    apply method_bind_inv in E1 as (q & s0 & [Eq ->]%lift_inv & E1).
    unfold pydiv in Eq. destruct (feqb nitems fzero) eqn:Ez; [done|].
    injection Eq as <-.
    unfold mbind, method_bind, get, put in E1. injection E1 as <-.
    rewrite insert_app_r_alt, Nat.sub_diag in E by lia.
    cbn [insert list_insert] in E.
    destruct (IH (done ++ [fdiv c nitems])
                 (set_p (Some (done ++ fdiv c nitems :: todo)) self) self')
      as (Ep' & El' & _).
    + cbn [p set_p]. by rewrite <- app_assoc.
    + rewrite length_app. cbn [length]. by rewrite Nat.add_1_r.
    + split; [|split; [done|done]].
      rewrite Ep', <- app_assoc. done.
Qed.

(** The steps of [_stop_training]. *)
Lemma stop_training_inv self self' :
  _stop_training label_le self = (Ok (), self') →
  ∃ objs counts,
    cov_objs self = Some objs ∧
    let lbls := merge_sort label_le (map_to_list objs).*1 in
    let nitems := fold_left fadd counts (of_Z 0) in
    Forall2 (fixed_count objs) lbls counts ∧
    labels self' = Some lbls ∧
    p self' = Some (map (fun c => fdiv c nitems) counts) ∧
    (counts ≠ [] → feqb nitems fzero = false).
Proof.
  unfold _stop_training. intros E.
  apply method_bind_inv in E as (objs & s1 & [Eobjs ->]%attr_inv & E).
  unfold mbind at 1, method_bind at 1, get at 1 in E.
  apply method_bind_inv in E as ([] & s1 & E1 & E).
  injection E1 as <-.
  unfold mbind at 1, method_bind at 1, get at 1 in E.
  apply method_bind_inv in E as ([] & s1 & E1 & E). injection E1 as <-.
  unfold mbind at 1, method_bind at 1, get at 1 in E.
  apply method_bind_inv in E as ([] & s1 & E1 & E). injection E1 as <-.
  unfold mbind at 1, method_bind at 1, get at 1 in E.
  apply method_bind_inv in E as ([] & s1 & E1 & E). injection E1 as <-.
  unfold mbind at 1, method_bind at 1, get at 1 in E.
  apply method_bind_inv in E as ([] & s1 & E1 & E). injection E1 as <-.
  apply method_bind_inv in E as (lbls & s1 & [El ->]%attr_inv & E).
  cbn [labels set_sqrt_def_covs set_p set_means set_inv_covs set_labels]
    in El. injection El as <-.
  apply method_bind_inv in E as (nitems & s1 & E1 & E).
  apply (fix_labels_inv _ _ _ _ _ [] objs) in E1
    as (counts & Hcounts & -> & Ep1 & El1); [|done|done].
  apply method_bind_inv in E as (ps & s2 & [Eps ->]%attr_inv & E).
  cbn [app] in Ep1. assert (ps = counts) as -> by congruence.
  apply method_bind_inv in E as ([] & s2 & E2 & E).
  apply (normalize_inv _ counts []) in E2 as (Ep2 & El2 & Hz); [|done].
  unfold mbind, method_bind, get, put in E. injection E as <-.
  exists objs, counts. split; [done|]. cbn zeta. split; [done|].
  split; [|split; [done|done]].
  cbn [labels set_cov_objs]. rewrite El2, El1. done.
Qed.

(** [_stop_training] sorts the labels: the list [labels] it stores holds
    the keys of [cov_objs], the labels of the training data, each once
    and in the order of the labels, and every attribute of inference has
    one entry for each of them; the accumulators are deleted. *)
Theorem stop_training_sorts_labels self self' objs :
  Total label_le →
  cov_objs self = Some objs →
  _stop_training label_le self = (Ok (), self') →
  ∃ lbls,
    labels self' = Some lbls ∧
    Sorted label_le lbls ∧ NoDup lbls ∧
    (∀ lbl, lbl ∈ lbls ↔ is_Some (objs !! lbl)) ∧
    finalized (length lbls) self' ∧ cov_objs self' = None.
Proof.
  intros Htotal Eobjs E.
  destruct (stop_training_finalized label_le self self' E)
    as (Enone & lbls' & El' & Hfin).
  destruct (stop_training_inv self self' E)
    as (objs0 & counts & Eobjs0 & _ & El & _).
  assert (objs0 = objs) as -> by congruence.
  exists (merge_sort label_le (map_to_list objs).*1).
  assert (lbls' = merge_sort label_le (map_to_list objs).*1) as ->
    by congruence.
  split; [done|]. split; [by apply Sorted_merge_sort|]. split; [|split].
  - rewrite merge_sort_Permutation. apply NoDup_fst_map_to_list.
  - intros lbl. rewrite merge_sort_Permutation. split.
    + intros ([l obj] & -> & Hin%elem_of_map_to_list)%list_elem_of_fmap.
      by exists obj.
    + intros [obj Hobj]. apply list_elem_of_fmap. exists (lbl, obj).
      split; [done|]. by apply elem_of_map_to_list.
  - by split.
Qed.
End GaussianStop.

(** The priors: [_stop_training] stores for every label, in the order of
    [labels], the number of the rows of the label divided by the number
    of all rows, and in exact arithmetic the priors of a classifier with
    at least one label add up to 1. *)
Theorem stop_training_priors
    (NL : NumLib Q) (C : CovarianceMatrix Q)
    (L : Type) (EL : EqDecision L) (CL : Countable L)
    (label_le : L → L → Prop) (D : ∀ a b, Decision (label_le a b))
    (self self' : GaussianClassifierNode.state (F:=Q) (L:=L)) :
  GaussianClassifierNode._stop_training label_le self = (Ok (), self') →
  ∃ objs lbls counts ps,
    GaussianClassifierNode.cov_objs self = Some objs ∧
    GaussianClassifierNode.labels self' = Some lbls ∧
    GaussianClassifierNode.p self' = Some ps ∧
    Forall2 (GaussianClassifierNode.fixed_count objs) lbls counts ∧
    ps = map (fun c => (c / fsum counts)%Q) counts ∧
    (lbls ≠ [] → (fsum ps == 1)%Q).
Proof.
  intros E.
  destruct (stop_training_inv label_le self self' E)
    as (objs & counts & Eobjs & Hcounts & El & Ep & Hz).
  eexists objs, _, counts, _. split; [done|]. split; [exact El|].
  split; [exact Ep|]. split; [exact Hcounts|]. split; [done|].
  intros Hne. apply fsum_normalized.
  assert (Hc : counts ≠ []).
  { intros ->. apply Forall2_nil_inv_r in Hcounts. done. }
  specialize (Hz Hc). intros Hzero.
  apply Qeq_bool_iff in Hzero. unfold fsum, fzero in Hzero.
  cbn [feqb exactQ] in Hz. unfold fzero in Hz.
  change (of_Z 0 : Q) with 0%Q in Hz, Hzero. congruence.
Qed.

Lemma stop_training_priors_witness :
  ∃ objs lbls counts ps,
    GaussianClassifierNode.cov_objs Examples.gaussian_trained = Some objs ∧
    GaussianClassifierNode.labels
      (GaussianClassifierNode._stop_training (H0:=Examples.rational_numlib)
         Z.le Examples.gaussian_trained).2 = Some lbls ∧
    GaussianClassifierNode.p
      (GaussianClassifierNode._stop_training (H0:=Examples.rational_numlib)
         Z.le Examples.gaussian_trained).2 = Some ps ∧
    Forall2 (GaussianClassifierNode.fixed_count objs) lbls counts ∧
    ps = map (fun c => (c / fsum counts)%Q) counts.
Proof.
  destruct (stop_training_priors Examples.rational_numlib
              Examples.running_cov Z _ _ Z.le _ Examples.gaussian_trained
              (GaussianClassifierNode._stop_training
                 (H0:=Examples.rational_numlib)
                 Z.le Examples.gaussian_trained).2)
    as (objs & lbls & counts & ps & ? & ? & ? & ? & ? & _).
  - vm_compute. reflexivity.
  - exists objs, lbls, counts, ps. by repeat split.
Defined.

Lemma stop_training_sorts_labels_witness :
  ∃ lbls,
    GaussianClassifierNode.labels
      (GaussianClassifierNode._stop_training (H0:=Examples.rational_numlib)
         Z.le Examples.gaussian_trained).2 = Some lbls ∧
    Sorted Z.le lbls ∧ NoDup lbls.
Proof.
  assert (Eobjs : ∃ objs,
            GaussianClassifierNode.cov_objs Examples.gaussian_trained
            = Some objs) by (vm_compute; eauto).
  destruct Eobjs as [objs Eobjs].
  destruct (stop_training_sorts_labels (H0:=Examples.rational_numlib)
              Z.le Examples.gaussian_trained
              (GaussianClassifierNode._stop_training
                 (H0:=Examples.rational_numlib)
                 Z.le Examples.gaussian_trained).2 objs)
    as (lbls & El & Hs & Hnd & _).
  - apply Z.le_total.
  - exact Eobjs.
  - vm_compute. reflexivity.
  - exists lbls. by repeat split.
Defined.

(** ** GaussianClassifierNode: the dictionaries of [_prob] *)

Section GaussianProb.
Import GaussianClassifierNode.
Context {F : Type} `{Num F} `{NumLib F} `{CovarianceMatrix F}.
Context {L : Type} `{Countable L}.
Variable label_le : L → L → Prop.
Context `{∀ a b, Decision (label_le a b)}.
Implicit Types self : state (F:=F) (L:=L).

(** A dictionary made of items with different keys holds every item. *)
Lemma dict_items_lookup {A} (items : list (L * A)) : ∀ (d : gmap L A) k,
  NoDup items.*1 →
  (∀ v, (k, v) ∈ items →
        fold_left (fun d '(k, v) => <[k := v]> d) items d !! k = Some v) ∧
  (k ∉ items.*1 →
   fold_left (fun d '(k, v) => <[k := v]> d) items d !! k = d !! k).
Proof.
  induction items as [|[k0 v0] items IH]; intros d k Hnd.
  - split; [by intros v ?%elem_of_nil|done].
  - cbn [fmap list_fmap fst] in Hnd. apply NoDup_cons in Hnd as [Hnotin Hnd].
    cbn [fold_left]. destruct (IH (<[k0 := v0]> d) k Hnd) as [IHin IHout].
    split.
    + intros v [[= -> ->]|Hin]%elem_of_cons; [|by apply IHin].
      destruct (IH (<[k0 := v0]> d) k0 Hnd) as [_ IHout0].
      by rewrite IHout0, lookup_insert_eq.
    + cbn [fmap list_fmap fst]. intros [Hne Hout]%not_elem_of_cons.
      by rewrite IHout, lookup_insert_ne.
Qed.

Lemma dict_of_zip {A} (lbls : list L) (vs : list A) :
  NoDup lbls → length vs = length lbls →
  dom (dict_of (zip lbls vs)) = list_to_set lbls ∧
  ∀ i lbl, lbls !! i = Some lbl → dict_of (zip lbls vs) !! lbl = vs !! i.
Proof.
  intros Hnd Hlen.
  assert (Hfst : (zip lbls vs).*1 = lbls) by (apply fst_zip; lia).
  assert (Hlook : ∀ i lbl, lbls !! i = Some lbl →
            dict_of (zip lbls vs) !! lbl = vs !! i).
  { intros i lbl Hi.
    destruct (lookup_lt_is_Some_2 vs i) as [v Hv].
    { apply lookup_lt_Some in Hi. lia. }
    rewrite Hv. unfold dict_of.
    destruct (dict_items_lookup (zip lbls vs) ∅ lbl) as [Hin _].
    { by rewrite Hfst. }
    apply Hin. apply list_elem_of_lookup. exists i.
    by apply lookup_zip_Some. }
  split; [|exact Hlook].
  apply set_eq. intros lbl. rewrite elem_of_dom, elem_of_list_to_set.
  split.
  - intros [v Hv]. destruct (decide (lbl ∈ lbls)) as [|Hout]; [done|].
    unfold dict_of in Hv.
    destruct (dict_items_lookup (zip lbls vs) ∅ lbl) as [_ Hnone].
    { by rewrite Hfst. }
    rewrite Hnone, lookup_empty in Hv by (by rewrite Hfst). done.
  - intros [i Hi]%list_elem_of_lookup. rewrite (Hlook i lbl Hi).
    apply lookup_lt_is_Some_2. apply lookup_lt_Some in Hi. lia.
Qed.

(** On a classifier that [_stop_training] has finalized, [_prob] returns
    for every row of the batch a dictionary whose keys are exactly the
    labels of the training data and whose value for the label at the
    index [i] of [labels] is the entry at [i] of the row of
    [class_probabilities]. *)
Theorem prob_dictionaries self self' (x : list (list F)) :
  _stop_training label_le self = (Ok (), self') →
  ∃ lbls probs ds,
    labels self' = Some lbls ∧
    class_probabilities self' x = Ok probs ∧
    _prob self' x = Ok ds ∧ length ds = length x ∧
    ∀ r prob, probs !! r = Some prob →
      ∃ d, ds !! r = Some d ∧
           dom d = list_to_set lbls ∧
           ∀ i lbl, lbls !! i = Some lbl → d !! lbl = prob !! i.
Proof.
  intros E.
  destruct (stop_training_finalized label_le self self' E)
    as (_ & lbls & El & Hfin).
  destruct (stop_training_inv label_le self self' E)
    as (objs & counts & _ & _ & El' & _).
  assert (Hnd : NoDup lbls).
  { assert (lbls = merge_sort label_le (map_to_list objs).*1) as ->
      by congruence.
    rewrite merge_sort_Permutation. apply NoDup_fst_map_to_list. }
  destruct (class_probabilities_rows self' lbls x El Hfin) as (g & _ & Ep).
  eexists lbls, _, _. split; [done|]. split; [exact Ep|].
  unfold _prob. rewrite Ep, El. cbn [mbind result_bind bind].
  split; [done|]. split; [by rewrite !length_map|].
  intros r prob Hr. rewrite list_lookup_fmap, Hr.
  cbn [fmap option_fmap option_map]. eexists. split; [done|].
  apply dict_of_zip; [done|].
  apply list_lookup_fmap_Some in Hr as (xr & -> & _).
  by rewrite !length_map, length_seq.
Qed.
End GaussianProb.

Lemma prob_dictionaries_witness :
  ∃ lbls probs ds,
    GaussianClassifierNode.labels
      (GaussianClassifierNode._stop_training (H0:=Examples.rational_numlib)
         Z.le Examples.gaussian_trained).2 = Some lbls ∧
    GaussianClassifierNode.class_probabilities
      (H0:=Examples.rational_numlib)
      (GaussianClassifierNode._stop_training (H0:=Examples.rational_numlib)
         Z.le Examples.gaussian_trained).2 [[2%Q]; [11%Q]] = Ok probs ∧
    GaussianClassifierNode._prob (H0:=Examples.rational_numlib)
      (GaussianClassifierNode._stop_training (H0:=Examples.rational_numlib)
         Z.le Examples.gaussian_trained).2 [[2%Q]; [11%Q]] = Ok ds ∧
    length ds = 2%nat.
Proof.
  destruct (prob_dictionaries (H0:=Examples.rational_numlib) Z.le
              Examples.gaussian_trained
              (GaussianClassifierNode._stop_training
                 (H0:=Examples.rational_numlib)
                 Z.le Examples.gaussian_trained).2 [[2%Q]; [11%Q]])
    as (lbls & probs & ds & ? & ? & ? & ? & _).
  - vm_compute. reflexivity.
  - exists lbls, probs, ds. by repeat split.
Defined.

(** ** GaussianClassifierNode: the label of the largest probability *)

Section GaussianLabel.
Import GaussianClassifierNode.

Lemma argmax_from_first_maximum (l : list Q) : ∀ (p : list Q) b best,
  p !! b = Some best →
  (∀ j vj, p !! j = Some vj → (vj <= best)%Q) →
  (∀ j vj, (j < b)%nat → p !! j = Some vj → (vj < best)%Q) →
  first_maximum (p ++ l) (argmax_from b best (length p) l).
Proof.
  induction l as [|d l IH]; intros p b best Hb Hle Hlt.
  - rewrite app_nil_r. by exists best.
  - cbn [argmax_from]. rewrite feqb_Q_refl, (feqb_Q_refl d).
    cbn [andb negb]. rewrite orb_false_r.
    pose proof (lookup_lt_Some _ _ _ Hb) as Hbp.
    replace (p ++ d :: l) with ((p ++ [d]) ++ l)
      by (by rewrite <- app_assoc).
    replace (S (length p)) with (length (p ++ [d]))
      by (rewrite length_app; simpl; lia).
    destruct (fltb best d) eqn:E.
    + apply fltb_Q in E. apply IH.
      * apply list_lookup_middle. done.
      * intros j vj Hj. apply lookup_app_Some in Hj as [Hj|[_ Hj]].
        -- apply Hle in Hj. lra.
        -- apply list_lookup_singleton_Some in Hj as [_ <-]. lra.
      * intros j vj Hjlt Hj. rewrite lookup_app_l in Hj by done.
        apply Hle in Hj. lra.
    + assert (Hge : (d <= best)%Q).
      { apply Qnot_lt_le. intros Hlt'. apply fltb_Q in Hlt'. congruence. }
      apply IH.
      * by rewrite lookup_app_l.
      * intros j vj Hj. apply lookup_app_Some in Hj as [Hj|[_ Hj]].
        -- by apply Hle in Hj.
        -- by apply list_lookup_singleton_Some in Hj as [_ <-].
      * intros j vj Hjlt Hj. rewrite lookup_app_l in Hj by lia.
        by apply (Hlt j).
Qed.

Lemma argmax_first_maximum (l : list Q) :
  l ≠ [] → ∃ k, argmax l = Ok k ∧ first_maximum l k.
Proof.
  destruct l as [|d l]; [done|]. intros _. eexists. split; [done|].
  apply (argmax_from_first_maximum l [d] 0 d).
  - done.
  - intros [|j] vj Hj; [|done]. injection Hj as <-. lra.
  - intros j vj Hj. lia.
Qed.

(** [_label] classifies by the largest probability: on a classifier that
    [_stop_training] has finalized with at least one label, it returns for
    every row of the batch the label at the index of the first maximum of
    the row of [class_probabilities]; among labels of equal probability
    the first in the order of [labels] wins.  The arithmetic is exact. *)
Theorem label_maximum_a_posteriori
    (NL : NumLib Q) (C : CovarianceMatrix Q)
    (L : Type) (EL : EqDecision L) (CL : Countable L)
    (label_le : L → L → Prop) (D : ∀ a b, Decision (label_le a b))
    (self self' : state (F:=Q) (L:=L)) (x : list (list Q))
    (lbls : list L) :
  _stop_training label_le self = (Ok (), self') →
  labels self' = Some lbls → lbls ≠ [] →
  ∃ probs out,
    class_probabilities self' x = Ok probs ∧
    _label self' x = Ok out ∧ length out = length x ∧
    ∀ r prob, probs !! r = Some prob →
      ∃ i lbl, out !! r = Some lbl ∧ lbls !! i = Some lbl ∧
               first_maximum prob i.
Proof.
  intros E El Hne.
  destruct (stop_training_finalized label_le self self' E)
    as (_ & lbls' & El' & Hfin).
  assert (lbls' = lbls) as -> by congruence.
  destruct (class_probabilities_rows self' lbls x El Hfin) as (g & _ & Ep).
  set (probs := map (fun xr =>
                       let u := map (fun i => g i xr) (seq 0 (length lbls)) in
                       map (fun v => fdiv v (fsum u)) u) x) in *.
  assert (Hrow : ∀ r prob, probs !! r = Some prob →
            length prob = length lbls).
  { intros r prob Hr. unfold probs in Hr.
    apply list_lookup_fmap_Some in Hr as (xr & -> & _).
    by rewrite !length_map, length_seq. }
  assert (Hmax : ∀ r prob, probs !! r = Some prob →
            ∃ k, argmax prob = Ok k ∧ first_maximum prob k).
  { intros r prob Hr. apply argmax_first_maximum. intros ->.
    apply Hrow in Hr. destruct lbls; [done|discriminate]. }
  destruct (mapM_lookup_ok argmax probs) as (winner & Ew & Hwlen & Hw).
  { intros r prob Hr. by destruct (Hmax r prob Hr) as (k & -> & _). }
  assert (Hbound : ∀ r k, winner !! r = Some k → (k < length lbls)%nat).
  { intros r k Hk.
    destruct (lookup_lt_is_Some_2 probs r) as [prob Hr].
    { apply lookup_lt_Some in Hk. lia. }
    destruct (Hw r prob Hr) as (k' & Ek' & Hk').
    assert (k' = k) as -> by congruence.
    destruct (Hmax r prob Hr) as (k'' & Ek'' & (v & Hv & _)).
    assert (k'' = k) as -> by congruence.
    rewrite <- (Hrow r prob Hr). by eapply lookup_lt_Some. }
  destruct (mapM_lookup_ok (index lbls) winner) as (out & Eo & Holen & Ho).
  { intros r k Hk. unfold index.
    by destruct (lookup_lt_is_Some_2 lbls k (Hbound r k Hk)) as [lbl ->]. }
  exists probs, out. split; [done|]. split.
  { unfold _label. rewrite Ep. cbn [mbind result_bind bind].
    rewrite Ew. cbn [mbind result_bind bind]. by rewrite El. }
  split.
  { rewrite Holen, Hwlen. unfold probs. by rewrite length_map. }
  intros r prob Hr.
  destruct (Hw r prob Hr) as (k & Ek & Hk).
  destruct (Ho r k Hk) as (lbl & Elbl & Hlbl).
  exists k, lbl. split; [done|]. split.
  - unfold index in Elbl. by destruct (lbls !! k); [injection Elbl as ->|].
  - destruct (Hmax r prob Hr) as (k' & Ek' & Hfirst). congruence.
Qed.
End GaussianLabel.

Lemma label_maximum_a_posteriori_witness :
  ∃ probs out,
    GaussianClassifierNode.class_probabilities
      (H0:=Examples.rational_numlib)
      (GaussianClassifierNode._stop_training (H0:=Examples.rational_numlib)
         Z.le Examples.gaussian_trained).2 [[2%Q]; [11%Q]] = Ok probs ∧
    GaussianClassifierNode._label (H0:=Examples.rational_numlib)
      (GaussianClassifierNode._stop_training (H0:=Examples.rational_numlib)
         Z.le Examples.gaussian_trained).2 [[2%Q]; [11%Q]] = Ok out ∧
    length out = 2%nat.
Proof.
  destruct (label_maximum_a_posteriori Examples.rational_numlib
              Examples.running_cov Z _ _ Z.le _ Examples.gaussian_trained
              (GaussianClassifierNode._stop_training
                 (H0:=Examples.rational_numlib)
                 Z.le Examples.gaussian_trained).2 [[2%Q]; [11%Q]]
              [0%Z; 1%Z])
    as (probs & out & ? & ? & ? & _).
  - vm_compute. reflexivity.
  - vm_compute. reflexivity.
  - discriminate.
  - exists probs, out. by repeat split.
Defined.
